(** * Worktree creation with sync of git-ignored files

    A shallow embedding of [.opencode/skills/worktree/scripts/worktree.py]
    and the properties of its ignore-file parser, directory scanner, file
    copier, cleanup routine and orchestrator.

    Conventions of the embedding.
    - A Python [str] is a [string]; a character is a code point below 256.
    - A [pathlib.Path] is the list of its components ([path]).
    - Python sets are [gset]s, Python lists are [list]s.
    - Effectful code lives in the monad [M]: a state transformer over
      [world] whose result is a value or a raised exception.
    - [Path.exists], [Path.is_file] and the directory listing behind
      [os.walk] are total queries; console output cannot fail.  Every other
      external operation (the git subprocess, reading the ignore file,
      [stat], [mkdir], [copy2], [rmtree]) takes its outcome from the
      environment [env], which may answer with any exception.
    - Module [Probe] takes the three functions that call [Path.exists] or
      [Path.is_file] outside any [try] once more, with tests that may
      raise. *)

From Stdlib Require Import ZArith Ascii String Lia.
From stdpp Require Import gmap strings list pretty.

Open Scope Z_scope.

(** ** Strings *)

Module Str.

(** [str.isspace] on the code points below 256. *)
Definition is_space (c : ascii) : bool :=
  let n := nat_of_ascii c in
  ((9 <=? n) && (n <=? 13) || (28 <=? n) && (n <=? 32)
   || (n =? 133) || (n =? 160))%nat.

Definition is_empty (s : string) : bool :=
  match s with EmptyString => true | String _ _ => false end.

(** [s.lstrip(chars)] with the character class given as a predicate. *)
Fixpoint lstrip_with (f : ascii -> bool) (s : string) : string :=
  match s with
  | EmptyString => EmptyString
  | String c s' => if f c then lstrip_with f s' else s
  end.

(** [s.rstrip(chars)]: every trailing character of the class is removed. *)
Fixpoint rstrip_with (f : ascii -> bool) (s : string) : string :=
  match s with
  | EmptyString => EmptyString
  | String c s' =>
      let r := rstrip_with f s' in
      if is_empty r && f c then EmptyString else String c r
  end.

(** [s.strip()] *)
Definition strip (s : string) : string :=
  rstrip_with is_space (lstrip_with is_space s).

(** [s.rstrip(c)] for a one-character argument. *)
Definition rstrip (c : ascii) (s : string) : string :=
  rstrip_with (Ascii.eqb c) s.

(** [s.startswith(pre)] *)
Definition startswith (pre s : string) : bool := String.prefix pre s.

(** [sub in s] *)
Fixpoint contains (sub s : string) : bool :=
  String.prefix sub s ||
  match s with
  | EmptyString => false
  | String _ s' => contains sub s'
  end.

(** The one-character string holding a backslash (code point 92). *)
Definition backslash : string := String (ascii_of_nat 92) EmptyString.

(** [s.split(c)] *)
Fixpoint split_on (c : ascii) (s : string) : list string :=
  match s with
  | EmptyString => [EmptyString]
  | String d s' =>
      match split_on c s' with
      | [] => [EmptyString]
      | w :: ws => if Ascii.eqb d c then EmptyString :: w :: ws
                   else String d w :: ws
      end
  end.

(** [sep.join(ws)] *)
Fixpoint join (sep : string) (ws : list string) : string :=
  match ws with
  | [] => EmptyString
  | [w] => w
  | w :: ws' => w +:+ sep +:+ join sep ws'
  end.

End Str.

(** ** [fnmatch.fnmatch] on a POSIX host

    The library function is modelled by its translation of a pattern into
    tokens: [*], [?], a bracket class [[seq]] or [[!seq]] with ranges, and
    literal characters; a [[] without a closing bracket is a literal. *)

Module Fnmatch.

Inductive tok :=
| Star
| AnyChar
| Lit (c : ascii)
| Class (negate : bool) (items : list (ascii * ascii)).

(** The characters up to the next closing bracket, and what follows it. *)
Fixpoint until_rbracket (l : list ascii) : option (list ascii * list ascii) :=
  match l with
  | [] => None
  | c :: l' =>
      if Ascii.eqb c "]" then Some ([], l')
      else match until_rbracket l' with
           | Some (body, rest) => Some (c :: body, rest)
           | None => None
           end
  end.

(** The members of a class: [a-z] is a range, anything else stands for
    itself. *)
Fixpoint class_items (l : list ascii) : list (ascii * ascii) :=
  match l with
  | [] => []
  | lo :: l1 =>
      match l1 with
      | dash :: hi :: l2 =>
          if Ascii.eqb dash "-" then (lo, hi) :: class_items l2
          else (lo, lo) :: class_items l1
      | _ => (lo, lo) :: class_items l1
      end
  end.

Definition in_class (d : ascii) (items : list (ascii * ascii)) : bool :=
  existsb (fun '(lo, hi) =>
             (nat_of_ascii lo <=? nat_of_ascii d)%nat
             && (nat_of_ascii d <=? nat_of_ascii hi)%nat) items.

(** After an opening bracket: an optional [!], an optional leading []],
    then everything up to the closing bracket. *)
Definition bracket (l : list ascii)
  : option (bool * list ascii * list ascii) :=
  let '(neg, l1) :=
    match l with
    | c :: t => if Ascii.eqb c "!" then (true, t) else (false, l)
    | [] => (false, l)
    end in
  let '(lead, l2) :=
    match l1 with
    | c :: t => if Ascii.eqb c "]" then ([c], t) else ([], l1)
    | [] => ([], l1)
    end in
  match until_rbracket l2 with
  | Some (body, rest) => Some (neg, lead ++ body, rest)
  | None => None
  end.

(** [fnmatch.translate]; the fuel bounds the number of tokens by the
    length of the pattern. *)
Fixpoint translate (fuel : nat) (l : list ascii) : list tok :=
  match fuel with
  | O => []
  | S fuel' =>
      match l with
      | [] => []
      | c :: l' =>
          if Ascii.eqb c "*" then Star :: translate fuel' l'
          else if Ascii.eqb c "?" then AnyChar :: translate fuel' l'
          else if Ascii.eqb c "[" then
            match bracket l' with
            | Some (neg, body, rest) =>
                Class neg (class_items body) :: translate fuel' rest
            | None => Lit c :: translate fuel' l'
            end
          else Lit c :: translate fuel' l'
      end
  end.

(** A full match of the name against the translated pattern. *)
Fixpoint matches (ts : list tok) (s : list ascii) : bool :=
  match ts with
  | [] => match s with [] => true | _ :: _ => false end
  | Star :: ts' =>
      (fix star (s : list ascii) : bool :=
         matches ts' s
         || match s with [] => false | _ :: s' => star s' end) s
  | AnyChar :: ts' =>
      match s with [] => false | _ :: s' => matches ts' s' end
  | Lit c :: ts' =>
      match s with [] => false | d :: s' => Ascii.eqb c d && matches ts' s' end
  | Class neg items :: ts' =>
      match s with
      | [] => false
      | d :: s' => xorb neg (in_class d items) && matches ts' s'
      end
  end.

Definition fnmatch (name pat : string) : bool :=
  let p := list_ascii_of_string pat in
  matches (translate (length p) p) (list_ascii_of_string name).

End Fnmatch.

Export Fnmatch(fnmatch).

(** ** Constants of the script *)

Definition MAX_FILE_SIZE_BYTES : Z := 10 * 1024 * 1024.

Definition CAR_BRANDS : list string :=
  [ "toyota"; "honda"; "ford"; "chevrolet"; "bmw"; "mercedes"; "audi";
    "volkswagen"; "porsche"; "ferrari"; "lamborghini"; "maserati"; "jaguar";
    "lexus"; "infiniti"; "acura"; "mazda"; "subaru"; "nissan"; "hyundai";
    "kia"; "volvo"; "tesla"; "rivian"; "bentley"; "rollsroyce"; "aston";
    "mclaren"; "bugatti"; "pagani"; "koenigsegg"; "alpine"; "lotus";
    "morgan"; "mini"; "fiat"; "alfa"; "lancia"; "peugeot"; "renault";
    "citroen"; "skoda"; "seat"; "opel"; "saab"; "dacia"; "suzuki";
    "mitsubishi" ].

Definition BLACKLIST : gset string :=
  list_to_set
    [ "node_modules"; ".venv"; "venv"; "__pycache__"; ".cache"; "dist";
      "build"; ".git"; ".tox"; ".pytest_cache"; ".mypy_cache"; "coverage";
      ".next"; ".nuxt"; "vendor"; ".terraform"; "target"; ".gradle"; ".m2";
      "*.egg-info" ].

Definition COMMON_CONFIGS : list string :=
  [ ".env"; ".env.local"; ".env.development"; ".env.development.local";
    ".env.test"; ".env.test.local"; ".env.production.local";
    ".claude/settings.local.json"; "config/local.yaml"; "config/local.yml";
    "config/local.json" ].

(** ** [is_blacklisted] *)

Definition is_blacklisted (path_part : string) : bool :=
  if bool_decide (path_part ∈ BLACKLIST) then true
  else existsb (fun pattern => Str.contains "*" pattern
                               && fnmatch path_part pattern)
               (elements BLACKLIST).

(** ** The ignore-file parser (the first loop of [find_git_ignored_files]) *)

(** One iteration of [for line in f]: the patterns collected so far and the
    next physical line. *)
Definition parse_line (patterns : list string) (line : string) : list string :=
  let line := Str.strip line in
  if Str.is_empty line || Str.startswith "#" line || Str.startswith "!" line
  then patterns
  else
    let line := Str.rstrip "/" line in
    if Str.contains "/" line || Str.contains Str.backslash line || Str.contains "**" line
    then patterns
    else patterns ++ [line].

Definition parse_gitignore (lines : list string) : list string :=
  fold_left parse_line lines [].


(** ** Paths *)

Abbreviation path := (list string).

(** The components of a path written with [/] separators. *)
Definition parts (s : string) : path :=
  filter (fun c => c ≠ "") (Str.split_on "/" s).

(** [str(p)] for an absolute path. *)
Definition str_of_path (p : path) : string := "/" +:+ Str.join "/" p.

(** [p.parent] and [p.name] *)
Definition parent (p : path) : path := removelast p.
Definition name (p : path) : string := List.last p "".

(** Removes [.] and resolves [..] against the components before it. *)
Definition normalize (p : path) : path :=
  fold_left (fun acc c => if bool_decide (c = ".") then acc
                          else if bool_decide (c = "..") then removelast acc
                          else acc ++ [c]) p [].

(** [Path(s).resolve()] in the working directory [cwd]. *)
Definition resolve (cwd : path) (s : string) : path :=
  if Str.startswith "/" s then normalize (parts s)
  else normalize (cwd ++ parts s).

(** [p.relative_to(base)], used by the script only on paths below [base]. *)
Definition relative_to (base p : path) : path := drop (length base) p.

(** ** Exceptions, results and the file system *)

Inductive exn :=
| CalledProcessError (returncode : Z) (output : string)
| FileNotFoundError
| OSError
| RuntimeError (message : string)
| OtherException
| KeyboardInterrupt
| SystemExit (code : Z).

(** [isinstance(e, OSError)] *)
Definition is_OSError (e : exn) : bool :=
  match e with FileNotFoundError | OSError => true | _ => false end.

(** [isinstance(e, Exception)]: everything but the two [BaseException]s. *)
Definition is_Exception (e : exn) : bool :=
  match e with KeyboardInterrupt | SystemExit _ => false | _ => true end.

Definition is_CalledProcessError (e : exn) : bool :=
  match e with CalledProcessError _ _ => true | _ => false end.

Inductive result (A : Type) :=
| Ret (a : A)
| Raise (e : exn).
Arguments Ret {A} a.
Arguments Raise {A} e.

(** A directory tree; the entries of a directory are in listing order. *)
#[local] Unset Elimination Schemes.
Inductive node :=
| File
| Dir (entries : list (string * node)).
#[local] Set Elimination Schemes.

(** The entry of that name, if any. *)
Fixpoint child (entries : list (string * node)) (nm : string) : option node :=
  match entries with
  | [] => None
  | (n, c) :: rest => if String.eqb n nm then Some c else child rest nm
  end.

Fixpoint tree_lookup (t : node) (p : path) : option node :=
  match p with
  | [] => Some t
  | nm :: p' =>
      match t with
      | File => None
      | Dir entries =>
          match child entries nm with
          | Some c => tree_lookup c p'
          | None => None
          end
      end
  end.

Definition is_dir (n : node) : bool :=
  match n with Dir _ => true | File => false end.

(** The two name lists [os.walk] yields for a directory. *)
Definition dir_names (entries : list (string * node)) : list string :=
  (filter (fun e => is_dir e.2) entries).*1.
Definition file_names (entries : list (string * node)) : list string :=
  (filter (fun e => negb (is_dir e.2)) entries).*1.

(** What [subprocess.run] does: the process completes, or the call raises. *)
Inductive proc :=
| Completed (returncode : Z) (stdout stderr : string)
| Failed (e : exn).

(** The environment of one run: the file system as found, and the outcome
    of every external operation. *)
Record env := {
  tree : node;                          (* the root directory *)
  cwd : path;
  read_lines : path -> result (list string);  (* open the file, iterate its lines *)
  stat : path -> result Z;              (* [p.stat().st_size] *)
  git : list string -> proc;            (* [subprocess.run(["git"] + args)] *)
  add_leaves_dir : bool;                (* a failed [worktree add] leaves a partial directory *)
  mkdir : path -> option exn;           (* [p.mkdir(parents=True, exist_ok=True)] *)
  copy2 : path -> path -> option exn;   (* [shutil.copy2(src, dst)] *)
  rmtree : path -> option exn;          (* [shutil.rmtree(p)] *)
  now : Z;                              (* [int(time.time())] *)
  choice : nat;                         (* the index [random.choice] picks *)
}.

(** ** Console output and the trace of a run *)

Inductive level := LError | LWarn | LInfo | LSuccess | LPlain.

Inductive msg :=
| NotAGitRepository
| SourceRepository (source_dir : path)
| UsingDefaultPath (worktree_path : path)
| UsingGeneratedBranch (branch : string)
| InvalidBranchName (branch : string)
| BranchNameRules
| BranchIs (branch : string)
| WorktreePathIs (worktree_path : path)
| PathAlreadyExists (worktree_path : path)
| SuggestDifferentPath (worktree_path : path)
| CreatingWorktree
| CreatingNewBranch (branch : string)
| WorktreeCreated
| ScanningIgnored
| CouldNotReadGitignore (e : exn)
| SkippingLargeFile (rel_path : path) (size : Z)
| CopyingFiles
| Copied (rel_path : path) (size : option Z)
| FailedToCopy (src : path) (e : exn)
| CleaningUp (worktree_path : path)
| ReportBanner
| ReportDetails (worktree_path : path) (branch : string) (source_dir : path)
| ReportCopied (copied_count : nat) (total_size : Z)
| ReportNothingCopied
| ReportExcluded (skipped_dirs : gset string)
| ReportNextSteps (worktree_path : path)
| ErrorText (e : exn)
| Cancelled
| UnexpectedError (e : exn).

Inductive event :=
| Git (args : list string)
| Scandir (top : path)
| Mkdir (p : path)
| Copy2 (src dst : path)
| Rmtree (p : path)
| Out (l : level) (m : msg).

(** The state a run changes: the paths created outside the tree found at
    start ([str] of each), and everything done so far, oldest first. *)
Record world := {
  existing : gset string;
  trace : list event;
}.

Definition log (ev : event) (w : world) : world :=
  {| existing := existing w; trace := trace w ++ [ev] |}.

Definition set_existing (f : gset string -> gset string) (w : world) : world :=
  {| existing := f (existing w); trace := trace w |}.

(** ** The monad of effectful code *)

Definition M (A : Type) : Type := world -> result A * world.

#[global] Instance M_ret : MRet M := fun A a w => (Ret a, w).

#[global] Instance M_bind : MBind M := fun A B f m w =>
  match m w with
  | (Ret a, w') => f a w'
  | (Raise e, w') => (Raise e, w')
  end.

Definition raise {A} (e : exn) : M A := fun w => (Raise e, w).

(** [try: body except ...]: the handler answers [None] for an exception no
    clause matches, which then propagates. *)
Definition try_except {A} (body : M A) (handler : exn -> option (M A)) : M A :=
  fun w =>
    match body w with
    | (Ret a, w') => (Ret a, w')
    | (Raise e, w') =>
        match handler e with
        | Some h => h w'
        | None => (Raise e, w')
        end
    end.

Definition emit (ev : event) : M unit := fun w => (Ret tt, log ev w).

Definition lift {A} (r : result A) : M A := fun w => (r, w).

Definition sys_exit {A} (code : Z) : M A := raise (SystemExit code).

(** [for x in l: s = f(s, x)] *)
Fixpoint for_each {A S} (f : S -> A -> M S) (l : list A) (s : S) : M S :=
  match l with
  | [] => mret s
  | x :: l' => s' ← f s x; for_each f l' s'
  end.

Definition print_error (m : msg) : M unit := emit (Out LError m).
Definition print_warn (m : msg) : M unit := emit (Out LWarn m).
Definition print_info (m : msg) : M unit := emit (Out LInfo m).
Definition print_success (m : msg) : M unit := emit (Out LSuccess m).
Definition print (m : msg) : M unit := emit (Out LPlain m).

(** [p.exists()]: found in the tree, or created during the run.  The run
    deletes nothing of the tree found at start: the one path the script
    removes is the worktree path, which step 4 has found absent. *)
Definition exists_now (E : env) (w : world) (p : path) : bool :=
  bool_decide (is_Some (tree_lookup (tree E) p))
  || bool_decide (str_of_path p ∈ existing w).

Definition path_exists (E : env) (p : path) : M bool := fun w =>
  (Ret (exists_now E w p), w).

(** [p.is_file()] *)
Definition path_is_file (E : env) (p : path) : M bool := fun w =>
  (Ret (match tree_lookup (tree E) p with Some File => true | _ => false end), w).

(** ** [run_git_command] and [validate_branch_name] *)

(** What a completed git command changes on disk: a worktree added or
    removed at the path it names. *)
Definition git_effect (E : env) (args : list string) (returncode : Z)
    (ex : gset string) : gset string :=
  let added p := if (returncode =? 0) || add_leaves_dir E then {[p]} ∪ ex else ex in
  match args with
  | [a; b; c; d] =>
      if bool_decide (a = "worktree" ∧ b = "add") then added c
      else if bool_decide (a = "worktree" ∧ b = "remove" ∧ c = "--force")
           then (if returncode =? 0 then ex ∖ {[d]} else ex)
           else ex
  | [a; b; c; _; p] =>
      if bool_decide (a = "worktree" ∧ b = "add" ∧ c = "-b") then added p else ex
  | _ => ex
  end.

(** [subprocess.run(["git"] + args, capture_output=True, check=False)] *)
Definition subprocess_run_git (E : env) (args : list string)
  : M (Z * string * string) := fun w =>
  let w := log (Git args) w in
  match git E args with
  | Completed rc out err => (Ret (rc, out, err), set_existing (git_effect E args rc) w)
  | Failed e => (Raise e, w)
  end.

Definition run_git_command (E : env) (args : list string) (check : bool)
  : M (Z * string) :=
  try_except
    ('(returncode, stdout, stderr) ← subprocess_run_git E args;
     let output := if Str.is_empty stdout then Str.strip stderr
                   else Str.strip stdout in
     if check && negb (returncode =? 0)
     then raise (CalledProcessError returncode output)
     else mret (returncode, output))
    (fun e => match e with
              | FileNotFoundError =>
                  Some (raise (RuntimeError "git command not found. Please install git."))
              | _ => None
              end).

Definition validate_branch_name (E : env) (branch : string) : M bool :=
  try_except
    (run_git_command E ["check-ref-format"; "--branch"; branch] true;;
     mret true)
    (fun e => if is_CalledProcessError e then Some (mret false) else None).

(** [get_random_car] *)
Definition get_random_car (E : env) : string :=
  nth (choice E mod length CAR_BRANDS) CAR_BRANDS "".

(** ** [os.walk], top-down, with the default [onerror] and no symlinks

    The loop body receives the directory, its sub-directory names and its
    file names, and hands back the sub-directory list as it left it: the
    walk descends into exactly those names, which is how pruning in place
    works.  A name that is not a directory contributes nothing. *)

Fixpoint os_walk {S} (body : path -> list string -> list string -> S -> M (S * list string))
    (top : path) (t : node) (s : S) : M S :=
  match t with
  | File => mret s
  | Dir entries =>
      emit (Scandir top);;
      '(s1, dirs) ← body top (dir_names entries) (file_names entries) s;
      for_each
        (fun s d =>
           (fix descend (es : list (string * node)) : M S :=
              match es with
              | [] => mret s
              | (n, c) :: rest =>
                  if String.eqb n d then os_walk body (top ++ [d]) c s
                  else descend rest
              end) entries)
        dirs s1
  end.

(** ** [find_git_ignored_files] *)

Record scan_state := {
  files_to_copy : list path;
  skipped_dirs : gset string;
  seen_files : gset path;
}.

Definition scan_start : scan_state :=
  {| files_to_copy := []; skipped_dirs := ∅; seen_files := ∅ |}.

Definition add_seen (p : path) (st : scan_state) : scan_state :=
  {| files_to_copy := files_to_copy st; skipped_dirs := skipped_dirs st;
     seen_files := {[p]} ∪ seen_files st |}.

Definition append_file (p : path) (st : scan_state) : scan_state :=
  {| files_to_copy := files_to_copy st ++ [p]; skipped_dirs := skipped_dirs st;
     seen_files := seen_files st |}.

Definition add_skipped (d : string) (st : scan_state) : scan_state :=
  {| files_to_copy := files_to_copy st; skipped_dirs := {[d]} ∪ skipped_dirs st;
     seen_files := seen_files st |}.

(** [l.remove(x)]: the first occurrence goes.  The script removes only
    names it has just read from the same list. *)
Fixpoint list_remove (x : string) (l : list string) : list string :=
  match l with
  | [] => []
  | y :: l' => if String.eqb y x then l' else y :: list_remove x l'
  end.

(** "Filter out blacklisted directories": the two loops over [dirs]. *)
Definition prune_blacklisted (dirs : list string) (st : scan_state)
  : scan_state * list string :=
  let '(st, dirs_to_remove) :=
    fold_left (fun '(st, rm) d =>
                 if is_blacklisted d then (add_skipped d st, rm ++ [d])
                 else (st, rm))
              dirs (st, []) in
  (st, fold_left (fun dirs d => list_remove d dirs) dirs_to_remove dirs).

(** The inner [for pattern in patterns] for one file name; every path
    through a matching pattern ends in [break]. *)
Fixpoint check_patterns (E : env) (source_dir root_path : path)
    (filename : string) (patterns : list string) (st : scan_state)
  : M scan_state :=
  match patterns with
  | [] => mret st
  | pattern :: patterns' =>
      if fnmatch filename pattern then
        let file_path := root_path ++ [filename] in
        if bool_decide (file_path ∈ seen_files st) then mret st
        else
          let st := add_seen file_path st in
          try_except
            (size ← lift (stat E file_path);
             if MAX_FILE_SIZE_BYTES <? size then
               print_warn (SkippingLargeFile (relative_to source_dir file_path) size);;
               mret st
             else mret (append_file file_path st))
            (fun e => if is_OSError e then Some (mret st) else None)
      else check_patterns E source_dir root_path filename patterns' st
  end.

(** The body of [for root, dirs, files in os.walk(source_dir)]. *)
Definition scan_directory (E : env) (source_dir : path) (patterns : list string)
    (root_path : path) (dirs files : list string) (st : scan_state)
  : M (scan_state * list string) :=
  let '(st, dirs) := prune_blacklisted dirs st in
  st ← for_each (fun st filename =>
                   check_patterns E source_dir root_path filename patterns st)
                files st;
  mret (st, dirs).

Definition find_git_ignored_files (E : env) (source_dir gitignore_path : path)
  : M (list path * gset string) :=
  gitignore_exists ← path_exists E gitignore_path;
  if negb gitignore_exists then mret ([], ∅)
  else
    print_info ScanningIgnored;;
    read ← try_except
             (lines ← lift (read_lines E gitignore_path);
              mret (Some (parse_gitignore lines)))
             (fun e => if is_Exception e
                       then Some (print_warn (CouldNotReadGitignore e);; mret None)
                       else None);
    match read with
    | None => mret ([], ∅)
    | Some patterns =>
        st ← match tree_lookup (tree E) source_dir with
             | Some t => os_walk (scan_directory E source_dir patterns)
                                 source_dir t scan_start
             | None => mret scan_start
             end;
        mret (files_to_copy st, skipped_dirs st)
    end.

(** ** [find_common_config_files]

    The caller's [seen_files] set is updated in place; the model returns it
    next to the list. *)
Definition find_common_config_files (E : env) (source_dir : path)
    (seen_files : gset path) : M (list path * gset path) :=
  for_each
    (fun '(config_files, seen_files) config =>
       let config_path := source_dir ++ parts config in
       ex ← path_exists E config_path;
       isf ← path_is_file E config_path;
       if ex && isf then
         if bool_decide (config_path ∈ seen_files) then mret (config_files, seen_files)
         else mret (config_files ++ [config_path], {[config_path]} ∪ seen_files)
       else mret (config_files, seen_files))
    COMMON_CONFIGS ([], seen_files).

(** ** [copy_file_with_metadata] *)

Definition do_mkdir (E : env) (p : path) : M unit :=
  emit (Mkdir p);;
  match mkdir E p with Some e => raise e | None => mret tt end.

Definition do_copy2 (E : env) (src dst : path) : M unit :=
  emit (Copy2 src dst);;
  match copy2 E src dst with Some e => raise e | None => mret tt end.

Definition copy_file_with_metadata (E : env) (src dst : path) : M bool :=
  try_except
    (do_mkdir E (parent dst);;
     do_copy2 E src dst;;
     mret true)
    (fun e => if is_Exception e
              then Some (print_warn (FailedToCopy src e);; mret false)
              else None).

(** ** [cleanup_on_failure] *)

Definition do_rmtree (E : env) (p : path) : M unit :=
  emit (Rmtree p);;
  match rmtree E p with
  | Some e => raise e
  | None => fun w => (Ret tt, set_existing (fun ex => ex ∖ {[str_of_path p]}) w)
  end.

Definition cleanup_on_failure (E : env) (worktree_path : path) : M unit :=
  ex ← path_exists E worktree_path;
  if ex : bool then
    (print_warn (CleaningUp worktree_path);;
     try_except
       (subprocess_run_git E
          ["worktree"; "remove"; "--force"; str_of_path worktree_path];;
        mret tt)
       (fun _ => Some (mret tt));;
     still ← path_exists E worktree_path;
     if still : bool then
       try_except (do_rmtree E worktree_path) (fun _ => Some (mret tt))
     else mret tt)
  else mret tt.

(** ** [main] *)

(** The two optional positional arguments. *)
Record cli := {
  arg_worktree_path : option string;
  arg_branch : option string;
}.

(** [if not s]: an absent argument and the empty string are both falsy. *)
Definition given (a : option string) : option string :=
  match a with
  | Some s => if Str.is_empty s then None else Some s
  | None => None
  end.

Record run := {
  source_dir : path;
  worktree_path : path;
  branch : string;
}.

(** Steps 1 to 3: the repository check, then the source directory, the
    worktree path and the branch name of this run. *)
Definition step1_to_3 (E : env) (args : cli) : M run :=
  try_except
    (run_git_command E ["rev-parse"; "--git-dir"] true;; mret tt)
    (fun e => if is_CalledProcessError e
              then Some (print_error NotAGitRepository;; sys_exit 1)
              else None);;
  '(_, source_dir_str) ← run_git_command E ["rev-parse"; "--show-toplevel"] true;
  let source_dir := resolve (cwd E) source_dir_str in
  let repo_name := name source_dir in
  let timestamp := now E in
  print_info (SourceRepository source_dir);;
  worktree_path ←
    match given (arg_worktree_path args) with
    | None =>
        let worktrees_dir := parent source_dir ++ ["worktrees"] in
        let worktree_path := worktrees_dir ++ [repo_name +:+ "-" +:+ pretty timestamp] in
        print_warn (UsingDefaultPath worktree_path);;
        mret worktree_path
    | Some worktree_path_str => mret (resolve (cwd E) worktree_path_str)
    end;
  branch ←
    match given (arg_branch args) with
    | None =>
        let car_brand := get_random_car E in
        let branch := "ai-worktree/" +:+ car_brand +:+ "-" +:+ pretty timestamp in
        print_warn (UsingGeneratedBranch branch);;
        mret branch
    | Some branch => mret branch
    end;
  mret {| source_dir := source_dir; worktree_path := worktree_path;
          branch := branch |}.

(** Step 3.1: validate the branch name. *)
Definition step3_1_validate_branch (E : env) (r : run) : M unit :=
  valid ← validate_branch_name E (branch r);
  if negb valid then
    print_error (InvalidBranchName (branch r));;
    print_warn BranchNameRules;;
    sys_exit 1
  else
    print_info (BranchIs (branch r));;
    print_info (WorktreePathIs (worktree_path r)).

(** Step 4: check if the path exists. *)
Definition step4_check_path (E : env) (r : run) : M unit :=
  ex ← path_exists E (worktree_path r);
  if ex : bool then
    print_error (PathAlreadyExists (worktree_path r));;
    print_warn (SuggestDifferentPath (worktree_path r));;
    sys_exit 1
  else mret tt.

(** Step 5: check if the branch exists, locally or on [origin]. *)
Definition step5_branch_exists (E : env) (r : run) : M bool :=
  try_except
    (run_git_command E
       ["show-ref"; "--verify"; "--quiet"; "refs/heads/" +:+ branch r] true;;
     mret true)
    (fun e =>
       if is_CalledProcessError e then
         Some (try_except
                 (run_git_command E
                    ["show-ref"; "--verify"; "--quiet";
                     "refs/remotes/origin/" +:+ branch r] true;;
                  mret true)
                 (fun e => if is_CalledProcessError e then Some (mret false)
                           else None))
       else None).

(** Step 6: create the worktree. *)
Definition step6_create_worktree (E : env) (r : run) (branch_exists : bool)
  : M unit :=
  print_info CreatingWorktree;;
  (if branch_exists then
     run_git_command E
       ["worktree"; "add"; str_of_path (worktree_path r); branch r] true;;
     mret tt
   else
     print_warn (CreatingNewBranch (branch r));;
     run_git_command E
       ["worktree"; "add"; "-b"; branch r; str_of_path (worktree_path r)] true;;
     mret tt);;
  print_success WorktreeCreated.

(** [try: total_size += f.stat().st_size  except: pass] *)
Definition add_size (E : env) (total_size : Z) (f : path) : M Z :=
  try_except (size ← lift (stat E f); mret (total_size + size))
             (fun _ => Some (mret total_size)).

(** Steps 7 and 8: the files to copy, the skipped directories and the
    total size. *)
Definition step7_8_find_files (E : env) (r : run)
  : M (list path * gset string * Z) :=
  let gitignore_path := source_dir r ++ [".gitignore"] in
  gitignore_exists ← path_exists E gitignore_path;
  '(files_to_copy, skipped_dirs, seen_files, total_size) ←
    (if gitignore_exists : bool then
       '(gitignore_files, skipped_dirs) ←
         find_git_ignored_files E (source_dir r) gitignore_path;
       '(seen_files, total_size) ←
         for_each (fun '(seen_files, total_size) f =>
                     total_size ← add_size E total_size f;
                     mret ({[f]} ∪ seen_files, total_size))
                  gitignore_files (∅, 0);
       mret (gitignore_files, skipped_dirs, seen_files, total_size)
     else mret ([], ∅, ∅, 0));
  '(config_files, _) ← find_common_config_files E (source_dir r) seen_files;
  total_size ← for_each (add_size E) config_files total_size;
  mret (files_to_copy ++ config_files, skipped_dirs, total_size).

(** Where a file lands in the worktree. *)
Definition dest_path (r : run) (file_path : path) : path :=
  worktree_path r ++ relative_to (source_dir r) file_path.

(** One iteration of the copy loop of step 9. *)
Definition copy_one (E : env) (r : run) (copied_count : nat) (file_path : path)
  : M nat :=
  let rel_path := relative_to (source_dir r) file_path in
  let dest_path := worktree_path r ++ rel_path in
  ok ← copy_file_with_metadata E file_path dest_path;
  if ok : bool then
    try_except
      (size ← lift (stat E file_path);
       print (Copied rel_path (Some size));;
       mret (S copied_count))
      (fun _ => Some (print (Copied rel_path None);; mret (S copied_count)))
  else mret copied_count.

(** Step 9: copy files. *)
Definition step9_copy_files (E : env) (r : run) (files_to_copy : list path)
  : M nat :=
  match files_to_copy with
  | [] => mret O
  | _ :: _ =>
      print_info CopyingFiles;;
      for_each (copy_one E r) files_to_copy O
  end.

(** Step 10: generate the report. *)
Definition step10_report (r : run) (copied_count : nat) (total_size : Z)
    (skipped_dirs : gset string) : M unit :=
  print_success ReportBanner;;
  print_info (ReportDetails (worktree_path r) (branch r) (source_dir r));;
  (if (0 <? copied_count)%nat then print_info (ReportCopied copied_count total_size)
   else print_warn ReportNothingCopied);;
  (if bool_decide (skipped_dirs = ∅) then mret tt
   else print_info (ReportExcluded skipped_dirs));;
  print_info (ReportNextSteps (worktree_path r)).

(** Steps 7 to 9, the file sync. *)
Definition sync_files (E : env) (r : run) : M (nat * Z * gset string) :=
  '(files_to_copy, skipped_dirs, total_size) ← step7_8_find_files E r;
  copied_count ← step9_copy_files E r files_to_copy;
  mret (copied_count, total_size, skipped_dirs).

(** The three [except] clauses that close [main]. *)
Definition on_failure (E : env) (r : run) (e : exn) : option (M unit) :=
  match e with
  | CalledProcessError _ _ =>
      Some (print_error (ErrorText e);;
            cleanup_on_failure E (worktree_path r);;
            sys_exit 1)
  | KeyboardInterrupt =>
      Some (print_warn Cancelled;;
            cleanup_on_failure E (worktree_path r);;
            sys_exit 1)
  | SystemExit _ => None
  | _ =>
      Some (print_error (UnexpectedError e);;
            cleanup_on_failure E (worktree_path r);;
            sys_exit 1)
  end.

(** Steps 5 to 10, the body of the [try]. *)
Definition guarded_steps (E : env) (r : run) : M unit :=
  branch_exists ← step5_branch_exists E r;
  step6_create_worktree E r branch_exists;;
  '(copied_count, total_size, skipped_dirs) ← sync_files E r;
  step10_report r copied_count total_size skipped_dirs.

Definition main (E : env) (args : cli) : M unit :=
  r ← step1_to_3 E args;
  step3_1_validate_branch E r;;
  step4_check_path E r;;
  try_except (guarded_steps E r) (on_failure E r).

(** The exit status of the process, where the run ends in a return or in
    [sys.exit]. *)
Definition exit_code (r : result unit) : option Z :=
  match r with
  | Ret _ => Some 0
  | Raise (SystemExit c) => Some c
  | Raise _ => None
  end.

(** * Vocabulary of the statements *)

(** The world after more events. *)
Definition emits (w : world) (evs : list event) : world :=
  {| existing := existing w; trace := trace w ++ evs |}.

(** What one iteration of the copy loop leaves in the trace, what it
    raises, and whether the file was copied. *)
Definition copy_events (E : env) (r : run) (f : path) : list event :=
  let dst := dest_path r f in
  Mkdir (parent dst) ::
  match mkdir E (parent dst) with
  | Some e => if is_Exception e then [Out LWarn (FailedToCopy f e)] else []
  | None =>
      Copy2 f dst ::
      match copy2 E f dst with
      | Some e => if is_Exception e then [Out LWarn (FailedToCopy f e)] else []
      | None =>
          [Out LPlain (Copied (relative_to (source_dir r) f)
                              (match stat E f with
                               | Ret size => Some size
                               | Raise _ => None
                               end))]
      end
  end.

Definition copy_escapes (E : env) (r : run) (f : path) : option exn :=
  match mkdir E (parent (dest_path r f)) with
  | Some e => if is_Exception e then None else Some e
  | None =>
      match copy2 E f (dest_path r f) with
      | Some e => if is_Exception e then None else Some e
      | None => None
      end
  end.

Definition copy_succeeds (E : env) (r : run) (f : path) : bool :=
  match mkdir E (parent (dest_path r f)), copy2 E f (dest_path r f) with
  | None, None => true
  | _, _ => false
  end.

(** What step 10 prints. *)
Definition report_events (r : run) (copied_count : nat) (total_size : Z)
    (skipped_dirs : gset string) : list event :=
  [Out LSuccess ReportBanner;
   Out LInfo (ReportDetails (worktree_path r) (branch r) (source_dir r))]
  ++ (if (0 <? copied_count)%nat
      then [Out LInfo (ReportCopied copied_count total_size)]
      else [Out LWarn ReportNothingCopied])
  ++ (if bool_decide (skipped_dirs = ∅) then []
      else [Out LInfo (ReportExcluded skipped_dirs)])
  ++ [Out LInfo (ReportNextSteps (worktree_path r))].

(** Steps 1 to 4, up to the [try]. *)
Definition validating (E : env) (args : cli) : M run :=
  r ← step1_to_3 E args;
  step3_1_validate_branch E r;;
  step4_check_path E r;;
  mret r.

(** Steps 5 and 6, after which the worktree exists. *)
Definition creating (E : env) (r : run) : M unit :=
  branch_exists ← step5_branch_exists E r;
  step6_create_worktree E r branch_exists.

(** The forced removal [cleanup_on_failure] asks git for. *)
Definition removal_args (worktree_path : path) : list string :=
  ["worktree"; "remove"; "--force"; str_of_path worktree_path].

(** A [git worktree add], with or without a new branch. *)
Definition is_worktree_add (ev : event) : bool :=
  match ev with
  | Git (a :: b :: _) => bool_decide (a = "worktree") && bool_decide (b = "add")
  | _ => false
  end.

(** The sources handed to [shutil.copy2], in order. *)
Definition copy_sources (evs : list event) : list path :=
  omap (fun ev => match ev with Copy2 src _ => Some src | _ => None end) evs.

(** ** The vocabulary of the scanner's properties *)

Section ScanVocabulary.
Context (E : env) (sd : path) (patterns : list string) (w0 : world).

(** No component of the relative path is blacklisted. *)
Definition clean (rel : path) : Prop :=
  Forall (fun d => is_blacklisted d = false) rel.

(** A file the scan may keep: it sits in a directory reached without
    crossing a blacklisted name, its name matches a pattern, and its
    size is known and within the ceiling. *)
Inductive kept : path -> Prop :=
| kept_intro rel es fn pat size :
    clean rel ->
    tree_lookup (tree E) (sd ++ rel) = Some (Dir es) ->
    fn ∈ file_names es ->
    pat ∈ patterns -> fnmatch fn pat = true ->
    stat E (sd ++ rel ++ [fn]) = Ret size -> size <= MAX_FILE_SIZE_BYTES ->
    kept (sd ++ rel ++ [fn]).

(** What the walk itself leaves in the trace. *)
Inductive scan_event : event -> Prop :=
| scan_scandir rel :
    clean rel -> scan_event (Scandir (sd ++ rel))
| scan_skip_large rel fn size :
    clean rel ->
    stat E (sd ++ rel ++ [fn]) = Ret size -> MAX_FILE_SIZE_BYTES < size ->
    scan_event (Out LWarn (SkippingLargeFile (rel ++ [fn]) size)).

(** The world during the walk: nothing on disk changes, and the trace
    grows by scan events only. *)
Definition world_inv (w : world) : Prop :=
  existing w = existing w0 ∧
  ∃ evs, trace w = trace w0 ++ evs ∧ Forall scan_event evs.

(** The one way the walk raises: a [stat] failure that is not an
    [OSError]. *)
Definition scan_raised (e : exn) (w : world) : Prop :=
  world_inv w ∧ ∃ p, stat E p = Raise e ∧ is_OSError e = false.

Definition size_ok (p : path) : Prop :=
  ∃ size, stat E p = Ret size ∧ size <= MAX_FILE_SIZE_BYTES.

Record scan_inv (st : scan_state) (w : world) : Prop := {
  inv_world : world_inv w;
  inv_kept : Forall kept (files_to_copy st);
  inv_nodup : NoDup (files_to_copy st);
  inv_seen : ∀ p, p ∈ files_to_copy st -> p ∈ seen_files st;
  inv_seen_ok : ∀ p, p ∈ seen_files st -> size_ok p -> p ∈ files_to_copy st;
  inv_skipped : ∀ d, d ∈ skipped_dirs st -> is_blacklisted d = true;
}.

Definition grows (st st' : scan_state) : Prop :=
  files_to_copy st ⊆ files_to_copy st' ∧ skipped_dirs st ⊆ skipped_dirs st'.

(** A directory has been dealt with: its blacklisted sub-directories are
    recorded, and each of its files that matches a pattern and has a size
    within the ceiling is a candidate. *)
Definition dir_done (rel : path) (es : list (string * node)) (st : scan_state)
  : Prop :=
  (∀ d, d ∈ dir_names es -> is_blacklisted d = true -> d ∈ skipped_dirs st) ∧
  (∀ fn pat, fn ∈ file_names es -> pat ∈ patterns -> fnmatch fn pat = true ->
     size_ok (sd ++ rel ++ [fn]) -> sd ++ rel ++ [fn] ∈ files_to_copy st).

Definition walk_done (rel : path) (t : node) (st : scan_state) : Prop :=
  ∀ rel' es, clean rel' -> tree_lookup t rel' = Some (Dir es) ->
    dir_done (rel ++ rel') es st.
End ScanVocabulary.

Section FindVocabulary.
Context (E : env) (sd gp : path) (w0 : world).

(** The patterns of this run: those of the ignore file, none if it
    cannot be read. *)
Definition patterns_read : list string :=
  match read_lines E gp with
  | Ret lines => parse_gitignore lines
  | Raise _ => []
  end.

Inductive find_event : event -> Prop :=
| find_scanning : find_event (Out LInfo ScanningIgnored)
| find_unreadable e :
    read_lines E gp = Raise e -> is_Exception e = true ->
    find_event (Out LWarn (CouldNotReadGitignore e))
| find_scan ev : scan_event E sd ev -> find_event ev.

Definition find_world (w : world) : Prop :=
  existing w = existing w0 ∧
  ∃ evs, trace w = trace w0 ++ evs ∧ Forall find_event evs.
End FindVocabulary.

(** ** The ignore-file parser in the specification's words *)

Module IgnoreSpec.

Fixpoint drop_while (f : ascii -> bool) (l : list ascii) : list ascii :=
  match l with
  | [] => []
  | c :: l' => if f c then drop_while f l' else l
  end.

Definition is_slash (c : ascii) : bool := Ascii.eqb c "/".
Definition is_separator (c : ascii) : bool :=
  Ascii.eqb c "/" || Ascii.eqb c (ascii_of_nat 92).

(** "trim" *)
Definition trim (l : list ascii) : list ascii :=
  reverse (drop_while Str.is_space (reverse (drop_while Str.is_space l))).

(** "empty, a comment ([#]-prefixed), or a negation ([!]-prefixed)" *)
Definition skipped_line (l : list ascii) : bool :=
  match l with
  | [] => true
  | c :: _ => Ascii.eqb c "#" || Ascii.eqb c "!"
  end.

(** "strip one trailing path separator (directory-suffix convention)" *)
Definition strip_one_trailing_separator (l : list ascii) : list ascii :=
  match reverse l with
  | c :: r => if is_slash c then reverse r else l
  | [] => l
  end.

(** The amended wording: every trailing [/] goes. *)
Definition strip_trailing_slashes (l : list ascii) : list ascii :=
  reverse (drop_while is_slash (reverse l)).

(** "contains any path separator" *)
Definition has_separator (l : list ascii) : bool := existsb is_separator l.

(** "or a double-wildcard token" *)
Fixpoint has_double_wildcard (l : list ascii) : bool :=
  match l with
  | c :: (d :: _) as l' =>
      Ascii.eqb c "*" && Ascii.eqb d "*" || has_double_wildcard l'
  | _ => false
  end.

(** One physical line, with the stripping step as a parameter. *)
Definition pattern_of_line (strip_dir : list ascii -> list ascii)
    (line : string) : option string :=
  let t := trim (list_ascii_of_string line) in
  if skipped_line t then None
  else
    let t := strip_dir t in
    if has_separator t || has_double_wildcard t then None
    else Some (string_of_list_ascii t).

(** The pattern list as the specification words it, and as amended. *)
Definition patterns_stated (lines : list string) : list string :=
  omap (pattern_of_line strip_one_trailing_separator) lines.
Definition patterns_amended (lines : list string) : list string :=
  omap (pattern_of_line strip_trailing_slashes) lines.

End IgnoreSpec.

(** ** A sample repository *)

Module Sample.

Definition repo : list (string * node) :=
  [ (".gitignore", File);
    ("readme.md", File);
    ("app.local.json", File);
    (".env", File);
    ("src", Dir [("main.py", File); ("debug.log", File)]);
    ("node_modules", Dir [("pkg", Dir [("index.js", File); ("x.log", File)]);
                          ("dist", Dir [("y.log", File)])]);
    ("config", Dir [("local.yaml", File)]) ].

Definition root : node := Dir [("home", Dir [("repo", Dir repo)])].

(** The same repository without an ignore file. *)
Definition root_plain : node :=
  Dir [("home", Dir [("repo", Dir (tail repo))])].

Definition gitignore : list string :=
  ["# secrets"; "*.local.json"; "*.log"; ".env"; "node_modules/"; ""].

(** A git that knows the repository at [/home/repo], finds no branch of the
    given name, rejects branch names with a space, and succeeds
    otherwise. *)
Definition git_ok (args : list string) : proc :=
  match args with
  | [a; b] =>
      if bool_decide (b = "--show-toplevel") then Completed 0 "/home/repo" ""
      else Completed 0 ".git" ""
  | [a; _; c] =>
      if bool_decide (a = "check-ref-format") && Str.contains " " c
      then Completed 128 "" "fatal: not a valid branch name"
      else Completed 0 "" ""
  | [a; _; _; _] =>
      if bool_decide (a = "show-ref") then Completed 1 "" "" else Completed 0 "" ""
  | _ => Completed 0 "" ""
  end.

Definition make (t : node) (st : path -> result Z)
    (cp : path -> path -> option exn) : env :=
  {| tree := t; cwd := ["home"; "repo"];
     read_lines := fun _ => Ret gitignore;
     stat := st;
     git := git_ok; add_leaves_dir := false;
     mkdir := fun _ => None; copy2 := cp; rmtree := fun _ => None;
     now := 1700000000; choice := 3 |}.

Definition sd : path := ["home"; "repo"].
Definition gp : path := sd ++ [".gitignore"].

(** [stat] with one file answered differently. *)
Definition stat_but (p : path) (r : result Z) (q : path) : result Z :=
  if bool_decide (q = p) then r else Ret 200.

Definition E0 : env := make root (fun _ => Ret 200) (fun _ _ => None).

(** [.env] is one byte over the ceiling. *)
Definition E_big : env :=
  make root (stat_but (sd ++ [".env"]) (Ret (MAX_FILE_SIZE_BYTES + 1)))
       (fun _ _ => None).

(** [stat] fails on [src/debug.log]: with an [OSError], and with an
    exception that is no [OSError]. *)
Definition E_stat_oserror : env :=
  make root (stat_but (sd ++ ["src"; "debug.log"]) (Raise OSError))
       (fun _ _ => None).

(** Copying [.env] is refused. *)
Definition E_copy_fails : env :=
  make root (fun _ => Ret 200)
       (fun src _ => if bool_decide (src = sd ++ [".env"]) then Some OSError else None).

Definition E_plain : env := make root_plain (fun _ => Ret 200) (fun _ _ => None).

Definition w0 : world := {| existing := ∅; trace := [] |}.

(** The destination is taken already. *)
Definition w_taken : world := {| existing := {["/home/wt"]}; trace := [] |}.

Definition args0 : cli :=
  {| arg_worktree_path := Some "/home/wt"; arg_branch := Some "feature" |}.

Definition args_bad_branch : cli :=
  {| arg_worktree_path := Some "/home/wt"; arg_branch := Some "feature test" |}.

Definition run0 : run :=
  {| source_dir := sd; worktree_path := ["home"; "wt"]; branch := "feature" |}.

End Sample.

(** ** Further sample environments *)

Module Cases.

(** An environment whose git answers through [g]. *)
Definition with_git (g : list string -> proc) (E : env) : env :=
  {| tree := tree E; cwd := cwd E; read_lines := read_lines E; stat := stat E;
     git := g; add_leaves_dir := add_leaves_dir E;
     mkdir := mkdir E; copy2 := copy2 E; rmtree := rmtree E;
     now := now E; choice := choice E |}.

(** Outside a repository. *)
Definition E_no_repo : env :=
  with_git (fun _ => Completed 128 "" "fatal: not a git repository") Sample.E0.

(** No git binary on the machine. *)
Definition E_no_git : env := with_git (fun _ => Failed FileNotFoundError) Sample.E0.

End Cases.

(** ** [format_size] *)

Definition format_size (size : Z) : string :=
  if size <? 1024 then pretty size +:+ " B"
  else if size <? 1024 * 1024 then pretty (size / 1024) +:+ " KB"
  else pretty (size / (1024 * 1024)) +:+ " MB".

(** ** Further vocabulary *)

(** What steps 1 to 4 may do: print, and ask git about the repository and
    about the format of a branch name. *)
Definition validation_event (ev : event) : Prop :=
  match ev with
  | Out _ _ => True
  | Git args =>
      args = ["rev-parse"; "--git-dir"] ∨ args = ["rev-parse"; "--show-toplevel"]
      ∨ ∃ branch, args = ["check-ref-format"; "--branch"; branch]
  | _ => False
  end.


(** ** Existence tests that fail

    [Path.exists] and [Path.is_file] answer [False] for a missing path, but
    re-raise any other [OSError] of the [stat] call behind them: no search
    permission on a directory of the path, a name that is too long.  The
    script calls them outside any [try] in [find_git_ignored_files],
    [find_common_config_files] and [cleanup_on_failure].  This module
    takes these three functions from the source once more, with tests that
    may raise; everything else is as above.

    [exists_error n p] is what [p.exists()] raises, if anything, when it is
    called after [n] events of the run, and [is_file_error n p] is the same
    for [p.is_file()]. *)

Module Probe.

Record probes := {
  exists_error : nat -> path -> option exn;
  is_file_error : nat -> path -> option exn;
}.

(** [p.exists()] *)
Definition path_exists (P : probes) (E : env) (p : path) : M bool := fun w =>
  match exists_error P (length (trace w)) p with
  | Some e => (Raise e, w)
  | None => (Ret (exists_now E w p), w)
  end.

(** [p.is_file()] *)
Definition path_is_file (P : probes) (E : env) (p : path) : M bool := fun w =>
  match is_file_error P (length (trace w)) p with
  | Some e => (Raise e, w)
  | None =>
      (Ret (match tree_lookup (tree E) p with Some File => true | _ => false end), w)
  end.

Definition find_git_ignored_files (P : probes) (E : env)
    (source_dir gitignore_path : path) : M (list path * gset string) :=
  gitignore_exists ← path_exists P E gitignore_path;
  if negb gitignore_exists then mret ([], ∅)
  else
    print_info ScanningIgnored;;
    read ← try_except
             (lines ← lift (read_lines E gitignore_path);
              mret (Some (parse_gitignore lines)))
             (fun e => if is_Exception e
                       then Some (print_warn (CouldNotReadGitignore e);; mret None)
                       else None);
    match read with
    | None => mret ([], ∅)
    | Some patterns =>
        st ← match tree_lookup (tree E) source_dir with
             | Some t => os_walk (scan_directory E source_dir patterns)
                                 source_dir t scan_start
             | None => mret scan_start
             end;
        mret (files_to_copy st, skipped_dirs st)
    end.

(** One iteration of [for config in COMMON_CONFIGS]; [is_file] is asked
    only when [exists] has answered [True]. *)
Definition check_config (P : probes) (E : env) (source_dir : path)
    (acc : list path * gset path) (config : string) : M (list path * gset path) :=
  let '(config_files, seen_files) := acc in
  let config_path := source_dir ++ parts config in
  ex ← path_exists P E config_path;
  isf ← (if ex : bool then path_is_file P E config_path else mret false);
  if isf : bool then
    if bool_decide (config_path ∈ seen_files) then mret (config_files, seen_files)
    else mret (config_files ++ [config_path], {[config_path]} ∪ seen_files)
  else mret (config_files, seen_files).

Definition find_common_config_files (P : probes) (E : env) (source_dir : path)
    (seen_files : gset path) : M (list path * gset path) :=
  for_each (check_config P E source_dir) COMMON_CONFIGS ([], seen_files).

Definition cleanup_on_failure (P : probes) (E : env) (worktree_path : path)
  : M unit :=
  ex ← path_exists P E worktree_path;
  if ex : bool then
    (print_warn (CleaningUp worktree_path);;
     try_except
       (subprocess_run_git E
          ["worktree"; "remove"; "--force"; str_of_path worktree_path];;
        mret tt)
       (fun _ => Some (mret tt));;
     still ← path_exists P E worktree_path;
     if still : bool then
       try_except (do_rmtree E worktree_path) (fun _ => Some (mret tt))
     else mret tt)
  else mret tt.

(** Tests that always answer. *)
Definition answering : probes :=
  {| exists_error := fun _ _ => None; is_file_error := fun _ _ => None |}.

(** From the [n0]-th event on, [exists()] on [p] fails with an [OSError]:
    a directory above [p] can no longer be searched. *)
Definition denied_from (n0 : nat) (p : path) : probes :=
  {| exists_error := fun n q =>
       if bool_decide (q = p) && (n0 <=? n)%nat then Some OSError else None;
     is_file_error := fun _ _ => None |}.

Definition denied (p : path) : probes := denied_from 0 p.

End Probe.


(** * Reasoning about effectful code *)

(** ** Induction on directory trees *)

Fixpoint node_ind (P : node -> Prop) (HFile : P File)
    (HDir : ∀ entries, Forall (fun e => P e.2) entries -> P (Dir entries))
    (t : node) : P t :=
  match t with
  | File => HFile
  | Dir entries =>
      HDir entries
        ((fix all (es : list (string * node)) : Forall (fun e => P e.2) es :=
            match es with
            | [] => Forall_nil_2 _
            | (n, c) :: es' =>
                Forall_cons_2 (fun e => P e.2) (n, c) es' (node_ind P HFile HDir c) (all es')
            end) entries)
  end.

Lemma child_elem entries nm c :
  child entries nm = Some c -> (nm, c) ∈ entries.
Proof.
  induction entries as [|[n c'] rest IH]; simpl; [done|].
  destruct (String.eqb_spec n nm) as [->|Hne].
  - intros [= ->]. left.
  - intros H. right. auto.
Qed.

Lemma child_dir_name entries nm es :
  child entries nm = Some (Dir es) -> nm ∈ dir_names entries.
Proof.
  intros H%child_elem. unfold dir_names.
  apply list_elem_of_fmap. exists (nm, Dir es). split; [done|].
  apply list_elem_of_filter. done.
Qed.

(** ** Postconditions

    [post m w Q R]: run from [w], [m] either returns a value and a world
    that satisfy [Q], or raises an exception in a world that satisfy [R]. *)

Definition post {A} (m : M A) (w : world)
    (Q : A -> world -> Prop) (R : exn -> world -> Prop) : Prop :=
  match m w with
  | (Ret a, w') => Q a w'
  | (Raise e, w') => R e w'
  end.

Section Post.
Context {A : Type}.
Implicit Types (Q : A -> world -> Prop) (R : exn -> world -> Prop).

Lemma post_ret a w Q R : Q a w -> post (mret a) w Q R.
Proof. done. Qed.

Lemma post_raise e w Q R : R e w -> post (raise e) w Q R.
Proof. done. Qed.

Lemma post_lift (r : result A) w Q R :
  match r with Ret a => Q a w | Raise e => R e w end -> post (lift r) w Q R.
Proof. unfold post, lift. by destruct r. Qed.

Lemma post_bind {B} (m : M B) (f : B -> M A) w Q R :
  post m w (fun b w' => post (f b) w' Q R) R -> post (m ≫= f) w Q R.
Proof.
  unfold post. change ((m ≫= f) w) with
    (match m w with (Ret b, w') => f b w' | (Raise e, w') => (Raise e, w') end).
  destruct (m w) as [[b|e] w']; done.
Qed.

Lemma post_try (body : M A) handler w Q R :
  post body w Q (fun e w' => match handler e with
                             | Some h => post h w' Q R
                             | None => R e w'
                             end) ->
  post (try_except body handler) w Q R.
Proof.
  unfold post, try_except. destruct (body w) as [[a|e] w']; [done|].
  destruct (handler e); done.
Qed.

Lemma post_mono (m : M A) w Q Q' R R' :
  post m w Q R ->
  (∀ a w', Q a w' -> Q' a w') -> (∀ e w', R e w' -> R' e w') ->
  post m w Q' R'.
Proof.
  unfold post. destruct (m w) as [[a|e] w']; auto.
Qed.

Lemma post_returned (m : M A) w Q R a w' :
  post m w Q R -> m w = (Ret a, w') -> Q a w'.
Proof. unfold post. intros H Heq. by rewrite Heq in H. Qed.

Lemma post_raised (m : M A) w Q R e w' :
  post m w Q R -> m w = (Raise e, w') -> R e w'.
Proof. unfold post. intros H Heq. by rewrite Heq in H. Qed.
End Post.

Lemma post_emit ev w (Q : unit -> world -> Prop) R :
  Q tt (log ev w) -> post (emit ev) w Q R.
Proof. done. Qed.

Lemma post_path_exists E p w (Q : bool -> world -> Prop) R :
  Q (exists_now E w p) w -> post (path_exists E p) w Q R.
Proof. done. Qed.

Lemma post_path_is_file E p w (Q : bool -> world -> Prop) R :
  Q (match tree_lookup (tree E) p with Some File => true | _ => false end) w ->
  post (path_is_file E p) w Q R.
Proof. done. Qed.

(** A loop preserves an invariant that may mention the items done so far. *)
Lemma post_for_each {A S} (f : S -> A -> M S) (I : list A -> S -> world -> Prop)
    R l :
  ∀ done s w,
    (∀ pre x s w, pre ++ [x] `prefix_of` done ++ l -> done `prefix_of` pre ->
       I pre s w -> post (f s x) w (I (pre ++ [x])) R) ->
    I done s w -> post (for_each f l s) w (I (done ++ l)) R.
Proof.
  induction l as [|x l IH]; intros done s w Hf HI; simpl.
  - rewrite app_nil_r. by apply post_ret.
  - apply post_bind. eapply post_mono; [apply (Hf done x); [|done|done]| |done].
    + exists l. by rewrite <- app_assoc.
    + intros s' w' HI'. simpl.
      replace (done ++ x :: l) with ((done ++ [x]) ++ l) by by rewrite <- app_assoc.
      apply IH; [|done].
      intros pre y s0 w0 Hpre Hdone. apply Hf.
      * by rewrite <- app_assoc in Hpre.
      * etrans; [|done]. by exists [x].
Qed.

Lemma bind_run {A B} (m : M A) (f : A -> M B) w :
  (m ≫= f) w = match m w with
               | (Ret a, w') => f a w'
               | (Raise e, w') => (Raise e, w')
               end.
Proof. done. Qed.

Lemma for_each_ext {A S} (f g : S -> A -> M S) l :
  (∀ s x w, f s x w = g s x w) ->
  ∀ s w, for_each f l s w = for_each g l s w.
Proof.
  intros Hfg. induction l as [|x l IH]; intros s w; simpl; [done|].
  rewrite !bind_run, Hfg. destruct (g s x w) as [[s'|e] w']; auto.
Qed.

(** [os_walk], one level unfolded, descends into the child of each name. *)
Lemma os_walk_dir {S} (body : path -> list string -> list string -> S -> M (S * list string))
    top entries s w :
  os_walk body top (Dir entries) s w =
  (emit (Scandir top);;
   '(s1, dirs) ← body top (dir_names entries) (file_names entries) s;
   for_each (fun s d => match child entries d with
                        | Some c => os_walk body (top ++ [d]) c s
                        | None => mret s
                        end) dirs s1) w.
Proof.
  simpl. rewrite !bind_run. simpl. rewrite !bind_run.
  destruct (body top (dir_names entries) (file_names entries) s (log (Scandir top) w))
    as [[[s1 dirs]|e] w1]; [|done].
  apply for_each_ext. intros s0 d w0. generalize entries. intros es.
  induction es as [|[n c] rest IHes]; simpl; [done|].
  destruct (String.eqb n d); done.
Qed.

(** * The directory scanner *)

Lemma tree_lookup_app t p q :
  tree_lookup t (p ++ q) = tree_lookup t p ≫= fun t' => tree_lookup t' q.
Proof.
  revert t. induction p as [|nm p IH]; intros t; simpl; [done|].
  destruct t as [|entries]; [done|]. destruct (child entries nm); [apply IH|done].
Qed.

Lemma tree_lookup_cons_dir entries d rel es :
  tree_lookup (Dir entries) (d :: rel) = Some (Dir es) ->
  ∃ es', child entries d = Some (Dir es') ∧ tree_lookup (Dir es') rel = Some (Dir es).
Proof.
  simpl. destruct (child entries d) as [[|es']|]; [|eauto|done].
  destruct rel; done.
Qed.

Lemma relative_to_app base rel : relative_to base (base ++ rel) = rel.
Proof. unfold relative_to. by rewrite drop_app_length. Qed.

(** ** Pruning *)

Lemma list_remove_pruned (P : string -> bool) l :
  ∀ pre, (∀ x, x ∈ pre -> P x = false) ->
    fold_left (fun dirs d => list_remove d dirs) (filter (fun d => P d = true) l) (pre ++ l)
    = pre ++ filter (fun d => P d = false) l.
Proof.
  induction l as [|x l IH]; intros pre Hpre; [done|].
  destruct (P x) eqn:HP.
  - rewrite filter_cons_True by done. rewrite filter_cons_False by congruence.
    simpl. replace (list_remove x (pre ++ x :: l)) with (pre ++ l); [by apply IH|].
    clear IH. induction pre as [|y pre IHpre]; simpl.
    + by rewrite String.eqb_refl.
    + destruct (String.eqb_spec y x) as [->|_].
      * specialize (Hpre x). rewrite HP in Hpre. discriminate Hpre. left.
      * f_equal. apply IHpre. intros z Hz. apply Hpre. by right.
  - rewrite filter_cons_False by congruence. rewrite filter_cons_True by done.
    replace (pre ++ x :: l) with ((pre ++ [x]) ++ l) by by rewrite <- app_assoc.
    rewrite IH; [by rewrite <- app_assoc|].
    intros z [Hz| ->%list_elem_of_singleton]%elem_of_app; auto.
Qed.

Lemma prune_blacklisted_spec dirs st :
  prune_blacklisted dirs st =
  ({| files_to_copy := files_to_copy st;
      skipped_dirs := list_to_set (filter (fun d => is_blacklisted d = true) dirs)
                      ∪ skipped_dirs st;
      seen_files := seen_files st |},
   filter (fun d => is_blacklisted d = false) dirs).
Proof.
  unfold prune_blacklisted.
  assert (∀ l st rm,
    fold_left (fun '(st, rm) d =>
                 if is_blacklisted d then (add_skipped d st, rm ++ [d]) else (st, rm))
              l (st, rm) =
    ({| files_to_copy := files_to_copy st;
        skipped_dirs := list_to_set (filter (fun d => is_blacklisted d = true) l)
                        ∪ skipped_dirs st;
        seen_files := seen_files st |},
     rm ++ filter (fun d => is_blacklisted d = true) l)) as ->.
  { induction l as [|d l IH]; intros st0 rm; simpl.
    - rewrite app_nil_r. destruct st0; simpl. f_equal. f_equal. set_solver.
    - destruct (is_blacklisted d) eqn:Hd.
      + rewrite IH, filter_cons_True by done. simpl. rewrite <- app_assoc.
        f_equal. f_equal. clear. set_solver.
      + rewrite IH, filter_cons_False by congruence. done. }
  simpl. f_equal. apply (list_remove_pruned is_blacklisted dirs []). set_solver.
Qed.

Section Scan.
Context (E : env) (sd : path) (patterns : list string) (w0 : world).

Local Abbreviation kept := (kept E sd patterns).
Local Abbreviation scan_event := (scan_event E sd).
Local Abbreviation world_inv := (world_inv E sd w0).
Local Abbreviation scan_raised := (scan_raised E sd w0).
Local Abbreviation size_ok := (size_ok E).
Local Abbreviation scan_inv := (scan_inv E sd patterns w0).
Local Abbreviation dir_done := (dir_done E sd patterns).
Local Abbreviation walk_done := (walk_done E sd patterns).

#[local] Instance grows_refl : Reflexive grows.
Proof. by split. Qed.

#[local] Instance grows_trans : Transitive grows.
Proof. intros a b c [??] [??]. split; set_solver. Qed.

Lemma dir_done_grows rel es st st' :
  grows st st' -> dir_done rel es st -> dir_done rel es st'.
Proof.
  intros [Hf Hs] [Hd Hk]. split.
  - intros d ??. apply Hs. auto.
  - intros fn pat ????. apply Hf. eauto.
Qed.

Lemma walk_done_grows rel t st st' :
  grows st st' -> walk_done rel t st -> walk_done rel t st'.
Proof. intros Hg Hw rel' es ??. eapply dir_done_grows; eauto. Qed.

Lemma world_inv_log ev w : world_inv w -> scan_event ev -> world_inv (log ev w).
Proof.
  intros [Hex (evs & Htr & Hevs)] Hev. split; [done|].
  exists (evs ++ [ev]). simpl. rewrite Htr, <- app_assoc. split; [done|].
  apply Forall_app. split; [done|]. by apply Forall_singleton.
Qed.

(** ** The pattern loop for one file *)

Lemma check_patterns_spec rel es fn pats st w :
  clean rel ->
  tree_lookup (tree E) (sd ++ rel) = Some (Dir es) ->
  fn ∈ file_names es ->
  pats ⊆ patterns ->
  scan_inv st w ->
  post (check_patterns E sd (sd ++ rel) fn pats st) w
    (fun st' w' =>
       scan_inv st' w' ∧ grows st st' ∧
       (∀ pat, pat ∈ pats -> fnmatch fn pat = true ->
          size_ok (sd ++ rel ++ [fn]) -> sd ++ rel ++ [fn] ∈ files_to_copy st'))
    scan_raised.
Proof.
  intros Hrel Hdir Hfn Hpats Hinv.
  induction pats as [|pat pats IH]; simpl.
  { apply post_ret. split_and!; [done|done|]. intros ? []%elem_of_nil. }
  destruct (fnmatch fn pat) eqn:Hm; cycle 1.
  { eapply post_mono; [apply IH; set_solver| |done].
    intros st' w' (? & ? & Hk). split_and!; [done..|].
    intros p [->|?]%elem_of_cons ? ?; [congruence|eauto]. }
  rewrite <- (app_assoc sd rel [fn]).
  set (file_path := sd ++ rel ++ [fn]).
  destruct Hinv as [Hw Hkept Hnd Hseen Hok Hskip].
  case_bool_decide as Hin.
  { apply post_ret. split_and!; [by constructor|done|]. intros. by apply Hok. }
  assert (Hnew : file_path ∉ files_to_copy st) by (intros ?; by apply Hin, Hseen).
  apply post_try, post_bind, post_lift.
  destruct (stat E file_path) as [size|e] eqn:Hstat.
  - destruct (MAX_FILE_SIZE_BYTES <? size) eqn:Hsize.
    + apply Z.ltb_lt in Hsize. apply post_bind, post_emit, post_ret.
      replace (relative_to sd file_path) with (rel ++ [fn])
        by (unfold file_path; by rewrite relative_to_app).
      split_and!; [|done|].
      * constructor; simpl; try done.
        -- apply world_inv_log; [done|]. by econstructor.
        -- set_solver.
        -- intros p [->%elem_of_singleton|?]%elem_of_union Hsz; [|by apply Hok].
           destruct Hsz as [sz [Hsz ?]].
           fold file_path in Hsz. rewrite Hstat in Hsz. injection Hsz as <-. lia.
      * intros ??? [sz [Hsz ?]]. fold file_path in Hsz.
        rewrite Hstat in Hsz. injection Hsz as <-. lia.
    + apply Z.ltb_ge in Hsize. apply post_ret. split_and!.
      * constructor; simpl; try done.
        -- apply Forall_app. split; [done|]. apply Forall_singleton.
           eapply kept_intro; eauto. apply Hpats. left.
        -- apply NoDup_app. split_and!; [done| |apply NoDup_singleton].
           intros p Hp Hp'%list_elem_of_singleton. by subst p.
        -- intros p [?| ->%list_elem_of_singleton]%elem_of_app; set_solver.
        -- intros p [->%elem_of_singleton|?]%elem_of_union ?.
           ++ apply elem_of_app. right. left.
           ++ apply elem_of_app. left. auto.
      * split; simpl; [|done]. intros p ?. apply elem_of_app. by left.
      * intros. simpl. apply elem_of_app. right. left.
  - destruct (is_OSError e) eqn:He; [|split; eauto].
    apply post_ret. split_and!; [|done|].
    + constructor; simpl; try done; [set_solver|].
      intros p [->%elem_of_singleton|?]%elem_of_union Hsz; [|by apply Hok].
      destruct Hsz as [sz [Hsz ?]]. fold file_path in Hsz. congruence.
    + intros ??? [sz [Hsz ?]]. fold file_path in Hsz. congruence.
Qed.

(** ** One directory *)

Lemma prefix_last_elem {A} (pre : list A) x l :
  pre ++ [x] `prefix_of` l -> x ∈ l.
Proof. intros [k ->]. apply elem_of_app. left. apply elem_of_app. right. left. Qed.

Lemma scan_directory_spec rel es st w :
  clean rel ->
  tree_lookup (tree E) (sd ++ rel) = Some (Dir es) ->
  scan_inv st w ->
  post (scan_directory E sd patterns (sd ++ rel) (dir_names es) (file_names es) st) w
    (fun '(st', dirs') w' =>
       scan_inv st' w' ∧ grows st st' ∧ dir_done rel es st' ∧
       dirs' = filter (fun d => is_blacklisted d = false) (dir_names es))
    scan_raised.
Proof.
  intros Hrel Hdir Hinv. unfold scan_directory.
  rewrite prune_blacklisted_spec.
  set (st1 := {| files_to_copy := files_to_copy st;
                 skipped_dirs := _; seen_files := seen_files st |}).
  assert (Hinv1 : scan_inv st1 w).
  { destruct Hinv. constructor; simpl; try done.
    intros d [Hd|?]%elem_of_union; [|auto].
    apply elem_of_list_to_set, list_elem_of_filter in Hd. tauto. }
  assert (Hg1 : grows st st1) by (split; simpl; set_solver).
  assert (Hdirs : ∀ d, d ∈ dir_names es -> is_blacklisted d = true ->
                       d ∈ skipped_dirs st1).
  { intros d ??. simpl. apply elem_of_union. left.
    apply elem_of_list_to_set, list_elem_of_filter. done. }
  apply post_bind.
  pose (I := fun (pre : list string) (s : scan_state) (w : world) =>
    scan_inv s w ∧ grows st1 s ∧
    ∀ fn pat, fn ∈ pre -> pat ∈ patterns -> fnmatch fn pat = true ->
      size_ok (sd ++ rel ++ [fn]) -> sd ++ rel ++ [fn] ∈ files_to_copy s).
  eapply post_mono;
    [apply (post_for_each _ I scan_raised (file_names es) [])| |done].
  - simpl. intros pre fn s w1 Hpre _ (Hs & Hgs & Hdone).
    eapply post_mono;
      [apply (check_patterns_spec rel es fn patterns); try done| |done].
    { by eapply prefix_last_elem. }
    intros s' w' (Hs' & Hgs' & Hfn). split_and!; [done|by etrans|].
    intros fn' pat [?| ->%list_elem_of_singleton]%elem_of_app ???.
    + apply Hgs'. eauto.
    + eauto.
  - split_and!; [done|done|]. intros ?? []%elem_of_nil.
  - simpl. intros s' w' (Hs' & Hgs' & Hfiles). apply post_ret.
    split_and!; [done|by etrans| |done].
    split; [|eauto]. intros d ??. apply Hgs'. auto.
Qed.

(** ** The whole walk *)

Lemma clean_snoc rel d :
  clean rel -> is_blacklisted d = false -> clean (rel ++ [d]).
Proof. intros. apply Forall_app. split; [done|]. by apply Forall_singleton. Qed.

Lemma os_walk_spec t :
  ∀ rel st w,
    clean rel ->
    tree_lookup (tree E) (sd ++ rel) = Some t ->
    scan_inv st w ->
    post (os_walk (scan_directory E sd patterns) (sd ++ rel) t st) w
      (fun st' w' => scan_inv st' w' ∧ grows st st' ∧ walk_done rel t st')
      scan_raised.
Proof.
  induction t as [|entries IH] using node_ind; intros rel st w Hrel Hlook Hinv.
  { apply post_ret. split_and!; [done|done|].
    intros [|??] es _; simpl; discriminate. }
  unfold post. rewrite os_walk_dir. fold (post (A:=scan_state)).
  apply post_bind, post_emit, post_bind.
  assert (Hinv0 : scan_inv st (log (Scandir (sd ++ rel)) w)).
  { destruct Hinv. constructor; try done.
    apply world_inv_log; [done|]. by constructor. }
  eapply post_mono; [by apply scan_directory_spec| |done].
  intros [st1 dirs] w1 (Hinv1 & Hg1 & Hdone1 & ->).
  pose (I := fun (pre : list string) (s : scan_state) (w : world) =>
    scan_inv s w ∧ grows st1 s ∧
    ∀ d c, d ∈ pre -> child entries d = Some c -> walk_done (rel ++ [d]) c s).
  eapply post_mono;
    [apply (post_for_each _ I scan_raised _ [])| |done].
  - simpl. intros pre d s w2 Hpre _ (Hs & Hgs & Hwalked).
    apply prefix_last_elem, list_elem_of_filter in Hpre as [Hd Hdin].
    destruct (child entries d) as [c|] eqn:Hc.
    + assert (Hc' : (d, c) ∈ entries) by by apply child_elem.
      rewrite Forall_forall in IH. specialize (IH _ Hc'). simpl in IH.
      rewrite <- (app_assoc sd rel [d]).
      eapply post_mono; [apply IH; [by apply clean_snoc| |done]| |done].
      { rewrite app_assoc, tree_lookup_app, Hlook. simpl.
        by rewrite Hc. }
      intros s' w' (Hs' & Hgs' & Hw'). split_and!; [done|by etrans|].
      intros d' c' [?| ->%list_elem_of_singleton]%elem_of_app Hc''.
      * eapply walk_done_grows; eauto.
      * rewrite Hc in Hc''. by injection Hc'' as <-.
    + apply post_ret. split_and!; [done|done|].
      intros d' c' [?| ->%list_elem_of_singleton]%elem_of_app Hc''; [eauto|congruence].
  - split_and!; [done|done|]. intros ?? []%elem_of_nil.
  - simpl. intros s' w' (Hs' & Hgs' & Hwalked).
    split_and!; [done|by etrans|].
    intros [|d rel'] es Hclean Hes.
    + simpl in Hes. injection Hes as <-. rewrite app_nil_r.
      by eapply dir_done_grows.
    + apply tree_lookup_cons_dir in Hes as (es' & Hchild & Hes').
      apply Forall_cons in Hclean as [Hd Hclean].
      replace (rel ++ d :: rel') with ((rel ++ [d]) ++ rel') by by rewrite <- app_assoc.
      eapply Hwalked; [|done|done|done].
      apply list_elem_of_filter. split; [done|]. by eapply child_dir_name.
Qed.
End Scan.

(** ** [find_git_ignored_files] as a whole *)

Section Find.
Context (E : env) (sd gp : path) (w0 : world).

Local Abbreviation patterns_read := (patterns_read E gp).
Local Abbreviation find_event := (find_event E sd gp).
Local Abbreviation find_world := (find_world E sd gp w0).

Lemma find_world_log ev w : find_world w -> find_event ev -> find_world (log ev w).
Proof.
  intros [Hex (evs & Htr & Hevs)] Hev. split; [done|].
  exists (evs ++ [ev]). simpl. rewrite Htr, <- app_assoc. split; [done|].
  apply Forall_app. split; [done|]. by apply Forall_singleton.
Qed.

Lemma find_world_scan w1 w :
  find_world w1 -> world_inv E sd w1 w -> find_world w.
Proof.
  intros [Hex1 (evs1 & Htr1 & Hevs1)] [Hex (evs & Htr & Hevs)].
  split; [congruence|]. exists (evs1 ++ evs).
  rewrite Htr, Htr1, <- app_assoc. split; [done|].
  apply Forall_app. split; [done|].
  eapply Forall_impl; [done|]. intros ev ?. by apply find_scan.
Qed.

Lemma find_git_ignored_files_spec :
  post (find_git_ignored_files E sd gp) w0
    (fun '(files, skipped) w' =>
       find_world w' ∧
       Forall (kept E sd patterns_read) files ∧
       NoDup files ∧
       (∀ d, d ∈ skipped -> is_blacklisted d = true) ∧
       (exists_now E w0 gp = false -> files = [] ∧ skipped = ∅ ∧ w' = w0) ∧
       (exists_now E w0 gp = true -> (∃ lines, read_lines E gp = Ret lines) ->
        ∃ st, files = files_to_copy st ∧ skipped = skipped_dirs st ∧
              ∀ rel es, clean rel ->
                tree_lookup (tree E) (sd ++ rel) = Some (Dir es) ->
                dir_done E sd patterns_read rel es st))
    (fun e w' =>
       find_world w' ∧
       ((read_lines E gp = Raise e ∧ is_Exception e = false)
        ∨ ∃ p, stat E p = Raise e ∧ is_OSError e = false)).
Proof.
  assert (Hw0 : find_world w0).
  { split; [done|]. exists []. by rewrite app_nil_r. }
  unfold find_git_ignored_files.
  apply post_bind, post_path_exists.
  destruct (exists_now E w0 gp) eqn:Hex; simpl; cycle 1.
  { apply post_ret. split_and!; try done; constructor. }
  apply post_bind, post_emit.
  assert (Hw1 : find_world (log (Out LInfo ScanningIgnored) w0)).
  { apply find_world_log; [done|constructor]. }
  apply post_bind, post_try, post_bind, post_lift.
  unfold patterns_read.
  destruct (read_lines E gp) as [lines|e] eqn:Hread.
  - apply post_ret.
    destruct (tree_lookup (tree E) sd) as [t|] eqn:Ht.
    + apply post_bind.
      pose proof (os_walk_spec E sd (parse_gitignore lines)
                    (log (Out LInfo ScanningIgnored) w0) t [] scan_start
                    (log (Out LInfo ScanningIgnored) w0)) as Hwalk.
      rewrite !app_nil_r in Hwalk.
      eapply post_mono; [apply Hwalk| |].
      * constructor.
      * done.
      * constructor; simpl; try done.
        -- split; [done|]. exists []. by rewrite app_nil_r.
        -- constructor.
        -- intros ? []%elem_of_nil.
      * intros st' w' ([Hw ? ? ? ? ?] & _ & Hdone). apply post_ret.
        split_and!; try done; [by eapply find_world_scan|].
        intros _ _. exists st'. split_and!; [done|done|].
        intros rel es Hrel Hes. apply (Hdone rel es Hrel).
        rewrite tree_lookup_app, Ht in Hes. done.
      * intros e w' [Hw Hesc]. split; [by eapply find_world_scan|by right].
    + apply post_bind, post_ret, post_ret. simpl.
      split_and!; try done; try constructor.
      intros _ _. exists scan_start. split_and!; [done|done|].
      intros rel es _ Hes. rewrite tree_lookup_app, Ht in Hes. done.
  - destruct (is_Exception e) eqn:He; [|split; [done|by left]].
    apply post_bind, post_emit, post_ret, post_ret.
    split_and!; try done.
    + apply find_world_log; [done|]. by constructor.
    + constructor.
    + intros _ [lines ?]. done.
Qed.
End Find.

(** * Claims about the scanner *)

Lemma below_blacklisted_not_clean (rel rest rel0 : path) d x :
  is_blacklisted d = true -> clean rel0 ->
  rel ++ d :: rest ++ [x] = rel0 ++ [x] -> False.
Proof.
  intros Hd Hclean Heq.
  replace (rel ++ d :: rest ++ [x]) with ((rel ++ d :: rest) ++ [x]) in Heq
    by by rewrite <- app_assoc.
  apply app_inj_tail in Heq as [<- _].
  apply Forall_app in Hclean as [_ [Hd' _]%Forall_cons]. congruence.
Qed.

Lemma find_events_split E sd gp w r w' :
  find_git_ignored_files E sd gp w = (r, w') ->
  ∃ evs, trace w' = trace w ++ evs ∧ Forall (find_event E sd gp) evs.
Proof.
  intros Hrun. pose proof (find_git_ignored_files_spec E sd gp w) as Hspec.
  unfold post in Hspec. rewrite Hrun in Hspec.
  destruct r as [[files skipped]|e]; [destruct Hspec as [[_ ?] _]|destruct Hspec as [[_ ?] _]]; done.
Qed.

(** C5, amended.  After a scan that returns, for every blacklisted
    directory name [d] at any place [rel] below the source directory:
    neither that directory nor anything below it was listed by the walk; no
    candidate lies below it at any depth; and its name is in the skipped
    set whenever the walk reaches it, that is, the ignore file exists and
    was read, and no directory on the way down to it is blacklisted. *)
Theorem blacklisted_directories_pruned E sd gp w files skipped w' :
  find_git_ignored_files E sd gp w = (Ret (files, skipped), w') ->
  ∃ evs, trace w' = trace w ++ evs ∧
    ∀ rel d, is_blacklisted d = true ->
      (∀ rest, Scandir (sd ++ rel ++ d :: rest) ∉ evs) ∧
      (∀ rest, rest ≠ [] -> sd ++ rel ++ d :: rest ∉ files) ∧
      (exists_now E w gp = true ->
       (∃ lines, read_lines E gp = Ret lines) ->
       clean rel ->
       (∃ es, tree_lookup (tree E) (sd ++ rel ++ [d]) = Some (Dir es)) ->
       d ∈ skipped).
Proof.
  intros Hrun. pose proof (find_git_ignored_files_spec E sd gp w) as Hspec.
  unfold post in Hspec. rewrite Hrun in Hspec.
  destruct Hspec as ([_ (evs & Htr & Hevs)] & Hkept & _ & _ & _ & Hdone).
  exists evs. split; [done|]. intros rel d Hd. split_and!.
  - intros rest Hin. rewrite Forall_forall in Hevs.
    specialize (Hevs _ Hin). inversion Hevs as [| |ev Hscan]; subst.
    inversion Hscan as [rel0 Hclean Heq|]; subst.
    apply app_inv_head in Heq. subst rel0.
    apply Forall_app in Hclean as [_ [Hd' _]%Forall_cons]. congruence.
  - intros rest Hrest Hin. rewrite Forall_forall in Hkept.
    specialize (Hkept _ Hin).
    inversion Hkept as [rel0 es fn pat size Hclean _ _ _ _ _ _ Heq].
    apply app_inv_head in Heq.
    destruct (exists_last Hrest) as (rest' & x & ->).
    assert (x = fn) as ->.
    { replace (rel ++ d :: rest' ++ [x]) with ((rel ++ d :: rest') ++ [x]) in Heq
        by by rewrite <- app_assoc.
      by apply app_inj_tail in Heq as [_ ?]. }
    by eapply below_blacklisted_not_clean.
  - intros Hex Hread Hclean [es Hes].
    destruct (Hdone Hex Hread) as (st & -> & -> & Hdirs).
    rewrite app_assoc, tree_lookup_app in Hes.
    destruct (tree_lookup (tree E) (sd ++ rel)) as [[|es0]|] eqn:Hparent;
      simpl in Hes; try done.
    destruct (child es0 d) as [c|] eqn:Hc; [|done].
    injection Hes as ->.
    destruct (Hdirs rel es0 Hclean Hparent) as [Hsk _].
    apply Hsk; [|done]. by eapply child_dir_name.
Qed.

(** C5 as stated fails: [node_modules/dist] is a directory with a
    blacklisted name, and the scan of the sample repository does not record
    it, because the walk never gets below [node_modules]. *)
Lemma nested_blacklisted_directory_not_recorded :
  ∃ files w',
    find_git_ignored_files Sample.E0 Sample.sd Sample.gp Sample.w0
    = (Ret (files, {["node_modules"]}), w') ∧
    is_blacklisted "dist" = true ∧
    tree_lookup (tree Sample.E0) (Sample.sd ++ ["node_modules"; "dist"])
    = Some (Dir [("y.log", File)]) ∧
    "dist" ∉ ({["node_modules"]} : gset string).
Proof.
  eexists _, _. split_and!; [vm_compute; reflexivity|reflexivity|reflexivity|].
  apply (bool_decide_unpack _). vm_compute. exact I.
Qed.

Lemma blacklisted_directories_pruned_witness :
  ∃ files w',
    find_git_ignored_files Sample.E0 Sample.sd Sample.gp Sample.w0
    = (Ret (files, {["node_modules"]}), w') ∧
    ∃ evs, trace w' = trace Sample.w0 ++ evs ∧
      ∀ rel d, is_blacklisted d = true ->
        (∀ rest, Scandir (Sample.sd ++ rel ++ d :: rest) ∉ evs) ∧
        (∀ rest, rest ≠ [] -> Sample.sd ++ rel ++ d :: rest ∉ files) ∧
        (exists_now Sample.E0 Sample.w0 Sample.gp = true ->
         (∃ lines, read_lines Sample.E0 Sample.gp = Ret lines) ->
         clean rel ->
         (∃ es, tree_lookup (tree Sample.E0) (Sample.sd ++ rel ++ [d]) = Some (Dir es)) ->
         d ∈ ({["node_modules"]} : gset string)).
Proof.
  eexists _, _.
  assert (H : find_git_ignored_files Sample.E0 Sample.sd Sample.gp Sample.w0
              = (Ret (_, {["node_modules"]}), _)) by (vm_compute; reflexivity).
  split; [exact H|].
  exact (blacklisted_directories_pruned _ _ _ _ _ _ _ H).
Defined.

(** A [stat] failure with an [OSError] ends the pattern loop for that file
    with nothing kept and nothing printed. *)
Lemma check_patterns_stat_oserror E sd root fn pats st w e :
  stat E (root ++ [fn]) = Raise e -> is_OSError e = true ->
  ∃ st', check_patterns E sd root fn pats st w = (Ret st', w) ∧
         files_to_copy st' = files_to_copy st ∧
         skipped_dirs st' = skipped_dirs st.
Proof.
  intros Hstat He. induction pats as [|pat pats IH]; simpl; [by eexists|].
  destruct (fnmatch fn pat); [|done].
  case_bool_decide; [by eexists|].
  unfold try_except. rewrite bind_run. unfold lift. rewrite Hstat, He.
  by eexists.
Qed.

(** C10.  Let [stat] fail with an [OSError] on the file at [sd ++ rel].
    Then the pattern loop for that file returns with nothing kept and
    nothing printed; the scan as a whole returns whenever every [stat]
    failure is an [OSError] and the ignore file is readable; and in every
    scan that returns, the file is no candidate, no skip warning names it,
    and every file in a reached directory that matches a pattern and has a
    size within the ceiling is a candidate. *)
Theorem unreadable_size_silently_excluded E sd gp w rel e :
  stat E (sd ++ rel) = Raise e -> is_OSError e = true ->
  (∀ root fn pats st w1, root ++ [fn] = sd ++ rel ->
     ∃ st', check_patterns E sd root fn pats st w1 = (Ret st', w1) ∧
            files_to_copy st' = files_to_copy st) ∧
  ((∀ q e', stat E q = Raise e' -> is_OSError e' = true) ->
   (∀ e', read_lines E gp = Raise e' -> is_Exception e' = true) ->
   ∃ res w', find_git_ignored_files E sd gp w = (Ret res, w')) ∧
  (∀ files skipped w',
     find_git_ignored_files E sd gp w = (Ret (files, skipped), w') ->
     (sd ++ rel ∉ files) ∧
     ∃ evs, trace w' = trace w ++ evs ∧
       (∀ size, Out LWarn (SkippingLargeFile rel size) ∉ evs) ∧
       (exists_now E w gp = true ->
        ∀ lines, read_lines E gp = Ret lines ->
        ∀ rel' es fn pat size,
          clean rel' ->
          tree_lookup (tree E) (sd ++ rel') = Some (Dir es) ->
          fn ∈ file_names es ->
          pat ∈ parse_gitignore lines -> fnmatch fn pat = true ->
          stat E (sd ++ rel' ++ [fn]) = Ret size -> size <= MAX_FILE_SIZE_BYTES ->
          sd ++ rel' ++ [fn] ∈ files)).
Proof.
  intros Hstat He. split_and!.
  - intros root fn pats st w1 Heq. rewrite <- Heq in Hstat.
    destruct (check_patterns_stat_oserror E sd root fn pats st w1 e Hstat He)
      as (st' & ? & ? & _). eauto.
  - intros Hstats Hreads.
    pose proof (find_git_ignored_files_spec E sd gp w) as Hspec.
    unfold post in Hspec.
    destruct (find_git_ignored_files E sd gp w) as [[res|e'] w']; [eauto|].
    destruct Hspec as [_ [[Hr Hne]|(q & Hq & Hne)]].
    + apply Hreads in Hr. congruence.
    + apply Hstats in Hq. congruence.
  - intros files skipped w' Hrun.
    pose proof (find_git_ignored_files_spec E sd gp w) as Hspec.
    unfold post in Hspec. rewrite Hrun in Hspec.
    destruct Hspec as ([_ (evs & Htr & Hevs)] & Hkept & _ & _ & _ & Hdone).
    split.
    + intros Hin. rewrite Forall_forall in Hkept. specialize (Hkept _ Hin).
      inversion Hkept as [rel0 es fn pat size _ _ _ _ _ Hsz _ Heq].
      rewrite Heq in Hsz. congruence.
    + exists evs. split_and!; [done| |].
      * intros size Hin. rewrite Forall_forall in Hevs. specialize (Hevs _ Hin).
        inversion Hevs as [| |ev Hscan]; subst.
        inversion Hscan as [|rel0 fn size0 _ Hsz _]; subst. congruence.
      * intros Hex lines Hread rel' es fn pat size Hrel Hes Hfn Hpat Hm Hsz Hle.
        destruct (Hdone Hex) as (st & -> & _ & Hdirs); [by eexists|].
        destruct (Hdirs rel' es Hrel Hes) as [_ Hfiles].
        unfold patterns_read in Hfiles. rewrite Hread in Hfiles.
        eapply Hfiles; eauto. by exists size.
Qed.

(** * The cleanup routine *)

Lemma post_total {A} (m : M A) w (Q : A -> world -> Prop) (R : exn -> world -> Prop) :
  (∀ a w', Q a w') -> (∀ e w', R e w') -> post m w Q R.
Proof. intros HQ HR. unfold post. destruct (m w) as [[a|e] w']; auto. Qed.

Lemma post_no_raise {A} (m : M A) w Q :
  post m w Q (fun _ _ => False) -> ∃ a w', m w = (Ret a, w') ∧ Q a w'.
Proof. unfold post. destruct (m w) as [[a|e] w']; [eauto|done]. Qed.


(** * The file sync *)

Lemma add_size_run E total f w :
  ∃ total', add_size E total f w = (Ret total', w).
Proof.
  unfold add_size, try_except. rewrite bind_run. unfold lift.
  destruct (stat E f); by eexists.
Qed.

Lemma for_each_add_size E files total w :
  ∃ total', for_each (add_size E) files total w = (Ret total', w).
Proof.
  revert total. induction files as [|f files IH]; intros total; simpl; [by eexists|].
  rewrite bind_run. destruct (add_size_run E total f w) as [t' ->]. apply IH.
Qed.

Lemma seen_and_size_run (E : env) (files : list path) (seen : gset path)
    (total : Z) (w : world) :
  ∃ total',
    for_each (fun '(seen_files, total_size) (f : path) =>
                total_size ← add_size E total_size f;
                mret ({[f]} ∪ seen_files, total_size))
             files (seen, total) w
    = (Ret (list_to_set files ∪ seen, total'), w).
Proof.
  revert seen total. induction files as [|f files IH]; intros seen total; simpl.
  - exists total. by replace (∅ ∪ seen) with seen by set_solver.
  - rewrite !bind_run. destruct (add_size_run E total f w) as [t' ->]. simpl.
    destruct (IH ({[f]} ∪ seen) t') as [t'' ->]. exists t''.
    by replace ({[f]} ∪ list_to_set files ∪ seen)
      with (list_to_set files ∪ ({[f]} ∪ seen)) by set_solver.
Qed.

(** The loop of [find_common_config_files] over any list of relative
    paths: the world is left alone; the files found are those of the list
    that are regular files and were not seen before, each once. *)
Lemma config_loop_run (E : env) (sd : path) (configs : list string)
    (seen : gset path) (w : world) :
  ∃ config_files seen',
    for_each
      (fun '(config_files, seen_files) config =>
         let config_path := sd ++ parts config in
         ex ← path_exists E config_path;
         isf ← path_is_file E config_path;
         if ex && isf then
           if bool_decide (config_path ∈ seen_files) then mret (config_files, seen_files)
           else mret (config_files ++ [config_path], {[config_path]} ∪ seen_files)
         else mret (config_files, seen_files))
      configs ([], seen) w
    = (Ret (config_files, seen'), w) ∧
    NoDup config_files ∧
    (∀ p, p ∈ config_files ->
       (p ∉ seen) ∧ ∃ config, config ∈ configs ∧ p = sd ++ parts config ∧
                              tree_lookup (tree E) p = Some File) ∧
    (∀ config, config ∈ configs ->
       tree_lookup (tree E) (sd ++ parts config) = Some File ->
       sd ++ parts config ∈ seen ∨ sd ++ parts config ∈ config_files).
Proof.
  pose (I := fun (pre : list string) (s : list path * gset path) (w' : world) =>
    w' = w ∧ NoDup s.1 ∧ s.2 = list_to_set s.1 ∪ seen ∧
    (∀ p, p ∈ s.1 ->
       (p ∉ seen) ∧ ∃ config, config ∈ pre ∧ p = sd ++ parts config ∧
                              tree_lookup (tree E) p = Some File) ∧
    (∀ config, config ∈ pre ->
       tree_lookup (tree E) (sd ++ parts config) = Some File ->
       sd ++ parts config ∈ seen ∨ sd ++ parts config ∈ s.1)).
  match goal with |- context [for_each ?f _ _ _] =>
    pose proof (post_for_each f I (fun _ _ => False) configs [] ([], seen) w) as H
  end.
  assert (Hkeep : ∀ pre config (cf : list path),
    (∀ p, p ∈ cf ->
       (p ∉ seen) ∧ ∃ c, c ∈ pre ∧ p = sd ++ parts c ∧
                         tree_lookup (tree E) p = Some File) ->
    ∀ p, p ∈ cf ->
       (p ∉ seen) ∧ ∃ c, c ∈ pre ++ [config] ∧ p = sd ++ parts c ∧
                         tree_lookup (tree E) p = Some File).
  { intros pre config cf Hin q Hq. destruct (Hin q Hq) as (? & c & ? & ? & ?).
    split; [done|]. exists c. split_and!; try done. apply elem_of_app. by left. }
  apply post_no_raise in H.
  - destruct H as ([cf seen'] & w' & Hrun & -> & Hnd & _ & Hin & Hall).
    exists cf, seen'. done.
  - intros pre config [cf sn] w1 _ _ (-> & Hnd & Hsn & Hin & Hall).
    cbn [fst snd] in Hnd, Hsn, Hin, Hall.
    apply post_bind, post_path_exists, post_bind, post_path_is_file.
    set (p := sd ++ parts config).
    destruct (tree_lookup (tree E) p) as [[|es]|] eqn:Hp.
    + assert (exists_now E w p = true) as ->.
      { unfold exists_now. rewrite Hp. by rewrite bool_decide_eq_true_2. }
      cbn [andb]. case_bool_decide as Hseen; apply post_ret; unfold I; cbn [fst snd].
      * split_and!; try done; [by apply Hkeep|].
        intros c [?| ->%list_elem_of_singleton]%elem_of_app ?; [auto|].
        fold p. rewrite Hsn in Hseen. set_solver.
      * assert ((p ∉ cf) ∧ (p ∉ seen)) as [??] by (rewrite Hsn in Hseen; set_solver).
        split_and!; try done.
        -- apply NoDup_app. split_and!; [done| |apply NoDup_singleton].
           intros q ? ?%list_elem_of_singleton. by subst q.
        -- rewrite Hsn, list_to_set_app_L. set_solver.
        -- intros q [Hq| ->%list_elem_of_singleton]%elem_of_app.
           ++ by apply (Hkeep pre config cf).
           ++ split; [done|]. exists config. split_and!; try done.
              apply elem_of_app. right. left.
        -- intros c [Hc| ->%list_elem_of_singleton]%elem_of_app ?.
           ++ destruct (Hall c Hc) as [?|?]; [done|by left|].
              right. apply elem_of_app. by left.
           ++ right. apply elem_of_app. right. left.
    + rewrite andb_false_r. apply post_ret. unfold I; cbn [fst snd].
      split_and!; try done; [by apply Hkeep|].
      intros c [?| ->%list_elem_of_singleton]%elem_of_app Hc; [auto|].
      fold p in Hc. congruence.
    + rewrite andb_false_r. apply post_ret. unfold I; cbn [fst snd].
      split_and!; try done; [by apply Hkeep|].
      intros c [?| ->%list_elem_of_singleton]%elem_of_app Hc; [auto|].
      fold p in Hc. congruence.
  - unfold I. cbn [fst snd]. split_and!; try done; [constructor|set_solver| |];
      intros ? []%elem_of_nil.
Qed.

Lemma find_common_config_files_run (E : env) (sd : path) (seen : gset path)
    (w : world) :
  ∃ config_files seen',
    find_common_config_files E sd seen w = (Ret (config_files, seen'), w) ∧
    NoDup config_files ∧
    (∀ p, p ∈ config_files ->
       (p ∉ seen) ∧ ∃ config, config ∈ COMMON_CONFIGS ∧ p = sd ++ parts config ∧
                              tree_lookup (tree E) p = Some File) ∧
    (∀ config, config ∈ COMMON_CONFIGS ->
       tree_lookup (tree E) (sd ++ parts config) = Some File ->
       sd ++ parts config ∈ seen ∨ sd ++ parts config ∈ config_files).
Proof. apply config_loop_run. Qed.

Lemma post_run {A} (m : M A) w a w' Q R :
  m w = (Ret a, w') -> Q a w' -> post m w Q R.
Proof. unfold post. by intros ->. Qed.

Lemma emits_nil w : emits w [] = w.
Proof. destruct w. unfold emits. simpl. by rewrite app_nil_r. Qed.

Lemma emits_emits w a b : emits (emits w a) b = emits w (a ++ b).
Proof. unfold emits. simpl. by rewrite app_assoc. Qed.

Lemma log_emits ev w : log ev w = emits w [ev].
Proof. done. Qed.

(** ** Steps 7 and 8 *)

Lemma step7_8_spec (E : env) (r : run) (w : world) :
  let sd := source_dir r in
  let gp := source_dir r ++ [".gitignore"] in
  post (step7_8_find_files E r) w
    (fun '(files, skipped, total) w' =>
       find_world E sd gp w w' ∧
       NoDup files ∧
       (∀ p, p ∈ files ->
          kept E sd (patterns_read E gp) p ∨
          ∃ config, config ∈ COMMON_CONFIGS ∧ p = sd ++ parts config ∧
                    tree_lookup (tree E) p = Some File) ∧
       (∀ config, config ∈ COMMON_CONFIGS ->
          tree_lookup (tree E) (sd ++ parts config) = Some File ->
          sd ++ parts config ∈ files) ∧
       (exists_now E w gp = false ->
          w' = w ∧ skipped = ∅ ∧
          ∀ p, p ∈ files ->
            ∃ config, config ∈ COMMON_CONFIGS ∧ p = sd ++ parts config ∧
                      tree_lookup (tree E) p = Some File))
    (fun e w' =>
       find_world E sd gp w w' ∧
       ((read_lines E gp = Raise e ∧ is_Exception e = false)
        ∨ ∃ p, stat E p = Raise e ∧ is_OSError e = false)).
Proof.
  intros sd gp. unfold step7_8_find_files. fold sd.
  change (sd ++ [".gitignore"]) with gp.
  apply post_bind, post_path_exists.
  destruct (exists_now E w gp) eqn:Hex.
  - apply post_bind, post_bind.
    eapply post_mono; [apply find_git_ignored_files_spec| |done].
    intros [gfiles skipped] w1 (Hw1 & Hkept & Hnd & _ & _ & _).
    apply post_bind.
    destruct (seen_and_size_run E gfiles ∅ 0 w1) as [total Hseen].
    eapply post_run; [exact Hseen|]. apply post_ret.
    destruct (find_common_config_files_run E sd (list_to_set gfiles ∪ ∅) w1)
      as (cfiles & seen' & Hcf & Hcnd & Hcin & Hcall).
    apply post_bind. eapply post_run; [exact Hcf|].
    destruct (for_each_add_size E cfiles total w1) as [total' Htot].
    apply post_bind. eapply post_run; [exact Htot|]. apply post_ret.
    split_and!; [done| | | |done].
    + apply NoDup_app. split_and!; [done| |done].
      intros p Hp Hp'. destruct (Hcin p Hp') as [Hns _]. set_solver.
    + intros p [Hp|Hp]%elem_of_app.
      * left. rewrite Forall_forall in Hkept. auto.
      * right. destruct (Hcin p Hp) as (_ & c & ? & ? & ?). eauto.
    + intros c Hc Hfile. apply elem_of_app.
      destruct (Hcall c Hc Hfile) as [Hs|?]; [left; set_solver|by right].
  - apply post_bind, post_ret.
    destruct (find_common_config_files_run E sd ∅ w)
      as (cfiles & seen' & Hcf & Hcnd & Hcin & Hcall).
    apply post_bind. eapply post_run; [exact Hcf|].
    destruct (for_each_add_size E cfiles 0 w) as [total' Htot].
    apply post_bind. eapply post_run; [exact Htot|]. apply post_ret.
    split_and!.
    + split; [done|]. exists []. by rewrite app_nil_r.
    + done.
    + intros p Hp. right. destruct (Hcin p Hp) as (_ & c & ? & ? & ?). eauto.
    + intros c Hc Hfile. destruct (Hcall c Hc Hfile) as [Hs|?]; [set_solver|done].
    + intros _. split_and!; [done|done|].
      intros p Hp. destruct (Hcin p Hp) as (_ & c & ? & ? & ?). eauto.
Qed.

(** ** The copier *)

Ltac mstep :=
  cbv beta iota delta
    [mbind M_bind mret M_ret try_except emit raise lift sys_exit
     print_warn print_error print_info print_success print
     log emits set_existing existing trace path_exists path_is_file].

Ltac mdone := mstep; cbn [negb andb orb]; rewrite <- ?app_assoc; reflexivity.

Lemma copy_file_with_metadata_run E src dst w :
  copy_file_with_metadata E src dst w =
  match mkdir E (parent dst) with
  | Some e =>
      if is_Exception e
      then (Ret false, emits w [Mkdir (parent dst); Out LWarn (FailedToCopy src e)])
      else (Raise e, emits w [Mkdir (parent dst)])
  | None =>
      match copy2 E src dst with
      | Some e =>
          if is_Exception e
          then (Ret false, emits w [Mkdir (parent dst); Copy2 src dst;
                                    Out LWarn (FailedToCopy src e)])
          else (Raise e, emits w [Mkdir (parent dst); Copy2 src dst])
      | None => (Ret true, emits w [Mkdir (parent dst); Copy2 src dst])
      end
  end.
Proof.
  unfold copy_file_with_metadata, do_mkdir, do_copy2.
  destruct (mkdir E (parent dst)) as [e|].
  { destruct (is_Exception e) eqn:He; mstep; rewrite He; mdone. }
  destruct (copy2 E src dst) as [e|]; [|mdone].
  destruct (is_Exception e) eqn:He; mstep; rewrite He; mdone.
Qed.

Lemma copy_one_run E r n f w :
  copy_one E r n f w =
  (match copy_escapes E r f with
   | Some e => Raise e
   | None => Ret (if copy_succeeds E r f then S n else n)
   end, emits w (copy_events E r f)).
Proof.
  unfold copy_one, copy_escapes, copy_succeeds, copy_events.
  rewrite bind_run, copy_file_with_metadata_run. fold (dest_path r f).
  destruct (mkdir E (parent (dest_path r f))) as [e|].
  { by destruct (is_Exception e). }
  destruct (copy2 E f (dest_path r f)) as [e|].
  { by destruct (is_Exception e). }
  destruct (stat E f) as [size|e]; mdone.
Qed.

(** The copy loop handles the files in order; it stops at the first file
    whose copy raises something that is not an [Exception]. *)
Lemma copy_loop_run E r files :
  ∀ n w, ∃ res handled,
    for_each (copy_one E r) files n w
    = (res, emits w (concat (copy_events E r <$> handled))) ∧
    ((∃ n', res = Ret n' ∧ handled = files ∧
            ∀ f, f ∈ files -> copy_escapes E r f = None) ∨
     (∃ e pre f rest, res = Raise e ∧ files = pre ++ f :: rest ∧
                      handled = pre ++ [f] ∧ copy_escapes E r f = Some e)).
Proof.
  induction files as [|f files IH]; intros n w; simpl.
  - exists (Ret n), []. simpl. rewrite emits_nil. split; [done|].
    left. exists n. split_and!; [done|done|]. intros ? []%elem_of_nil.
  - rewrite bind_run, copy_one_run.
    destruct (copy_escapes E r f) as [e|] eqn:Hesc.
    + exists (Raise e), [f]. simpl. rewrite app_nil_r. split; [done|].
      right. by exists e, [], f, files.
    + destruct (IH (if copy_succeeds E r f then S n else n)
                   (emits w (copy_events E r f)))
        as (res & handled & -> & Hcases).
      exists res, (f :: handled). simpl. rewrite emits_emits. split; [done|].
      destruct Hcases as [(n' & -> & -> & Hall)|(e & pre & g & rest & -> & -> & -> & He)].
      * left. exists n'. split_and!; [done|done|].
        intros g [->|?]%elem_of_cons; auto.
      * right. by exists e, (f :: pre), g, rest.
Qed.

Lemma step9_run E r files w :
  ∃ res handled,
    step9_copy_files E r files w
    = (res, emits w ((if bool_decide (files = []) then [] else [Out LInfo CopyingFiles])
                     ++ concat (copy_events E r <$> handled))) ∧
    ((∃ n', res = Ret n' ∧ handled = files ∧
            ∀ f, f ∈ files -> copy_escapes E r f = None) ∨
     (∃ e pre f rest, res = Raise e ∧ files = pre ++ f :: rest ∧
                      handled = pre ++ [f] ∧ copy_escapes E r f = Some e)).
Proof.
  destruct files as [|f0 files].
  - exists (Ret O), []. simpl. rewrite emits_nil. split; [done|].
    left. exists O. split_and!; [done|done|]. intros ? []%elem_of_nil.
  - unfold step9_copy_files. rewrite bind_run. unfold print_info, emit.
    rewrite log_emits.
    destruct (copy_loop_run E r (f0 :: files) O (emits w [Out LInfo CopyingFiles]))
      as (res & handled & -> & Hcases).
    exists res, handled. rewrite emits_emits. by rewrite bool_decide_eq_false_2.
Qed.

(** ** What the trace says about copies *)

Lemma copy_sources_app evs1 evs2 :
  copy_sources (evs1 ++ evs2) = copy_sources evs1 ++ copy_sources evs2.
Proof. apply omap_app. Qed.

Lemma copy_sources_copy_events E r f :
  copy_sources (copy_events E r f) `sublist_of` [f].
Proof.
  unfold copy_events.
  destruct (mkdir E _) as [e|]; [by destruct (is_Exception e); repeat constructor|].
  destruct (copy2 E _ _) as [e|]; [by destruct (is_Exception e); repeat constructor|].
  repeat constructor.
Qed.

Lemma copy_sources_handled E r handled :
  copy_sources (concat (copy_events E r <$> handled)) `sublist_of` handled.
Proof.
  induction handled as [|f handled IH]; [constructor|].
  rewrite fmap_cons. cbn [concat]. rewrite copy_sources_app.
  change (f :: handled) with ([f] ++ handled).
  apply sublist_app; [apply copy_sources_copy_events|apply IH].
Qed.

Lemma copy_events_copy2 E r f src dst :
  Copy2 src dst ∈ copy_events E r f -> src = f ∧ dst = dest_path r f.
Proof.
  unfold copy_events. intros [[=]|Hin]%elem_of_cons.
  destruct (mkdir E _) as [e|].
  { destruct (is_Exception e); [|by apply elem_of_nil in Hin].
    apply list_elem_of_singleton in Hin. discriminate. }
  apply elem_of_cons in Hin as [[= -> ->]|Hin]; [done|].
  destruct (copy2 E _ _) as [e|].
  - destruct (is_Exception e); [|by apply elem_of_nil in Hin].
    apply list_elem_of_singleton in Hin. discriminate.
  - apply list_elem_of_singleton in Hin. discriminate.
Qed.

Lemma elem_of_concat {A} (x : A) (ls : list (list A)) :
  x ∈ concat ls ↔ ∃ l, x ∈ l ∧ l ∈ ls.
Proof.
  induction ls as [|l ls IH]; simpl.
  - split; [intros []%elem_of_nil|intros (? & _ & []%elem_of_nil)].
  - rewrite elem_of_app, IH. split.
    + intros [?|(l' & ? & ?)]; [exists l; split; [done|left]|exists l'; split; [done|by right]].
    + intros (l' & ? & [->|?]%elem_of_cons); [by left|right; eauto].
Qed.

Lemma copy2_in_handled E r handled src dst :
  Copy2 src dst ∈ concat (copy_events E r <$> handled) ->
  src ∈ handled ∧ dst = dest_path r src.
Proof.
  intros (evs & Hin & (f & -> & Hf)%list_elem_of_fmap)%elem_of_concat.
  apply copy_events_copy2 in Hin as [-> ->]. done.
Qed.

Lemma copy2_after_mkdir E r f :
  mkdir E (parent (dest_path r f)) = None ->
  Copy2 f (dest_path r f) ∈ copy_events E r f.
Proof. unfold copy_events. intros ->. right. left. Qed.

Lemma find_event_no_copy E sd gp evs :
  Forall (find_event E sd gp) evs ->
  copy_sources evs = [] ∧ ∀ src dst, Copy2 src dst ∉ evs.
Proof.
  induction 1 as [|ev evs Hev _ [IH1 IH2]]; [split; [done|intros ?? []%elem_of_nil]|].
  assert (∀ src dst, ev ≠ Copy2 src dst) as Hne.
  { intros src dst ->. inversion Hev as [| |? Hscan]. inversion Hscan. }
  split.
  - destruct ev; try done. by destruct (Hne src dst).
  - intros src dst [Heq|?]%elem_of_cons; [by destruct (Hne src dst)|by eapply IH2].
Qed.

Lemma prefix_nodup {A} (l1 l2 : list A) :
  l1 `prefix_of` l2 -> NoDup l2 -> NoDup l1.
Proof. intros [k ->] Hnd. by apply NoDup_app in Hnd as [? _]. Qed.

Lemma step7_8_without_gitignore E r w :
  exists_now E w (source_dir r ++ [".gitignore"]) = false ->
  ∃ res, step7_8_find_files E r w = (Ret res, w).
Proof.
  intros Hno.
  enough (post (step7_8_find_files E r) w (fun _ w' => w' = w) (fun _ _ => False)) as H.
  { apply post_no_raise in H as (res & w' & H & ->). eauto. }
  unfold step7_8_find_files.
  apply post_bind, post_path_exists. rewrite Hno.
  apply post_bind, post_ret.
  destruct (find_common_config_files_run E (source_dir r) ∅ w)
    as (cfiles & seen' & Hcf & _).
  apply post_bind. eapply post_run; [exact Hcf|].
  destruct (for_each_add_size E cfiles 0 w) as [total' Htot].
  apply post_bind. eapply post_run; [exact Htot|]. by apply post_ret.
Qed.

(** The trace of the file sync: the events of steps 7 and 8, then those of
    the copy loop over an initial part of the copy set. *)
Lemma sync_files_trace E r w res w' :
  sync_files E r w = (res, w') ->
  ∃ evs78 evs9,
    trace w' = trace w ++ evs78 ++ evs9 ∧
    Forall (find_event E (source_dir r) (source_dir r ++ [".gitignore"])) evs78 ∧
    (exists_now E w (source_dir r ++ [".gitignore"]) = false -> evs78 = []) ∧
    ((evs9 = [] ∧ ∃ e, res = Raise e) ∨
     ∃ files skipped total w1 hdr handled,
       step7_8_find_files E r w = (Ret (files, skipped, total), w1) ∧
       evs9 = hdr ++ concat (copy_events E r <$> handled) ∧
       Forall (fun ev => ev = Out LInfo CopyingFiles) hdr ∧
       handled `prefix_of` files ∧
       (∀ n t s, res = Ret (n, t, s) -> handled = files)).
Proof.
  unfold sync_files. rewrite bind_run.
  pose proof (step7_8_spec E r w) as Hspec. cbv zeta in Hspec. unfold post in Hspec.
  destruct (step7_8_find_files E r w) as [[[[files skipped] total]|e] w1] eqn:H78.
  - destruct Hspec as ([Hex (evs78 & Htr & Hevs)] & _ & _ & _ & Hnone).
    rewrite bind_run.
    destruct (step9_run E r files w1) as (res9 & handled & -> & Hcases).
    intros Hrun. exists evs78.
    exists ((if bool_decide (files = []) then [] else [Out LInfo CopyingFiles])
            ++ concat (copy_events E r <$> handled)).
    assert (Hhandled : handled `prefix_of` files ∧
                       ∀ n', res9 = Ret n' -> handled = files).
    { destruct Hcases as [(n' & -> & -> & _)|(e & pre & f & rest & -> & -> & -> & _)].
      - done.
      - split; [|done]. exists rest. by rewrite <- app_assoc. }
    destruct Hhandled as [Hpre Hall].
    assert (trace w' = trace w ++ evs78 ++
              (if bool_decide (files = []) then [] else [Out LInfo CopyingFiles])
              ++ concat (copy_events E r <$> handled)) as Htrace.
    { destruct res9; injection Hrun as <- <-; simpl; by rewrite Htr, <- app_assoc. }
    split_and!; [done|done| |].
    + intros Hno. destruct (Hnone Hno) as (-> & _).
      apply (app_inv_head (trace w)). by rewrite <- Htr, app_nil_r.
    + right.
      exists files, skipped, total, w1,
        (if bool_decide (files = []) then [] else [Out LInfo CopyingFiles]), handled.
      split_and!; [done|done| |done|].
      * case_bool_decide; by repeat constructor.
      * intros n t s ->. destruct res9 as [n'|]; [|done]. by apply (Hall n').
  - destruct Hspec as ([Hex (evs78 & Htr & Hevs)] & _).
    intros [= <- <-]. exists evs78, []. rewrite app_nil_r.
    split_and!; [done|done| |left; eauto].
    intros Hno. exfalso.
    destruct (step7_8_without_gitignore E r w Hno) as [res' Hres]. congruence.
Qed.

Lemma copy_sources_elem src dst evs :
  Copy2 src dst ∈ evs -> src ∈ copy_sources evs.
Proof.
  intros Hin. apply list_elem_of_omap. by exists (Copy2 src dst).
Qed.

Lemma copy_sources_header hdr :
  Forall (fun ev => ev = Out LInfo CopyingFiles) hdr -> copy_sources hdr = [].
Proof. induction 1 as [|ev hdr -> _ IH]; [done|exact IH]. Qed.

Lemma step7_8_copy_set E r w files skipped total w1 :
  step7_8_find_files E r w = (Ret (files, skipped, total), w1) ->
  NoDup files ∧
  ∀ config, config ∈ COMMON_CONFIGS ->
    tree_lookup (tree E) (source_dir r ++ parts config) = Some File ->
    source_dir r ++ parts config ∈ files.
Proof.
  intros H78. pose proof (step7_8_spec E r w) as Hspec.
  cbv zeta in Hspec. unfold post in Hspec. rewrite H78 in Hspec.
  by destruct Hspec as (_ & ? & _ & ? & _).
Qed.

(** * Claims about the file sync *)

(** C6.  The copy set computed by steps 7 and 8 has no duplicates and
    holds every path of the explicit list that is a regular file, matched
    by a pattern or not; and in every run of the file sync no source path
    is handed to [copy2] twice, while each such common-config file is
    handed to it once the sync returns, if its destination directory could
    be made. *)
Theorem each_source_copied_once E r w :
  (∀ files skipped total w1,
     step7_8_find_files E r w = (Ret (files, skipped, total), w1) ->
     NoDup files ∧
     ∀ config, config ∈ COMMON_CONFIGS ->
       tree_lookup (tree E) (source_dir r ++ parts config) = Some File ->
       source_dir r ++ parts config ∈ files) ∧
  (∀ res w',
     sync_files E r w = (res, w') ->
     ∃ evs, trace w' = trace w ++ evs ∧
       NoDup (copy_sources evs) ∧
       ∀ n t s config,
         res = Ret (n, t, s) ->
         config ∈ COMMON_CONFIGS ->
         tree_lookup (tree E) (source_dir r ++ parts config) = Some File ->
         mkdir E (parent (dest_path r (source_dir r ++ parts config))) = None ->
         source_dir r ++ parts config ∈ copy_sources evs).
Proof.
  split; [apply step7_8_copy_set|].
  intros res w' Hrun.
  destruct (sync_files_trace E r w res w' Hrun)
    as (evs78 & evs9 & Htr & Hevs & _ & Hcases).
  exists (evs78 ++ evs9). split; [done|].
  apply find_event_no_copy in Hevs as [H78nil _].
  rewrite copy_sources_app, H78nil. simpl.
  destruct Hcases as [[-> [e ->]]|
    (files & skipped & total & w1 & hdr & handled & H78 & -> & Hhdr & Hpre & Hall)].
  { split; [constructor|]. intros; discriminate. }
  apply step7_8_copy_set in H78 as [Hnd Hcfg].
  rewrite copy_sources_app, (copy_sources_header hdr Hhdr). simpl. split.
  - eapply sublist_NoDup; [|apply copy_sources_handled]. by eapply prefix_nodup.
  - intros n t s config -> Hc Hfile Hmk.
    rewrite (Hall n t s eq_refl).
    eapply copy_sources_elem, elem_of_concat.
    exists (copy_events E r (source_dir r ++ parts config)).
    split; [by apply copy2_after_mkdir|].
    apply list_elem_of_fmap. eexists. split; [done|]. by apply Hcfg.
Qed.


Lemma sync_files_existing E r w res w' :
  sync_files E r w = (res, w') -> existing w' = existing w.
Proof.
  unfold sync_files. rewrite bind_run.
  pose proof (step7_8_spec E r w) as Hspec. cbv zeta in Hspec. unfold post in Hspec.
  destruct (step7_8_find_files E r w) as [[[[files skipped] total]|e] w1].
  - destruct Hspec as ([Hex _] & _). rewrite bind_run.
    destruct (step9_run E r files w1) as (res9 & handled & -> & _).
    destruct res9; intros [= <- <-]; done.
  - destruct Hspec as ([Hex _] & _). by intros [= <- <-].
Qed.

(** * The orchestrator *)

Lemma step10_report_run r n total skipped w :
  step10_report r n total skipped w
  = (Ret tt, emits w (report_events r n total skipped)).
Proof.
  unfold step10_report, report_events.
  destruct (0 <? n)%nat; case_bool_decide; mdone.
Qed.

Lemma main_validating E args w :
  main E args w =
  (r ← validating E args; try_except (guarded_steps E r) (on_failure E r)) w.
Proof.
  unfold main, validating. rewrite !bind_run.
  destruct (step1_to_3 E args w) as [[r|e] w1]; [|done].
  rewrite !bind_run.
  destruct (step3_1_validate_branch E r w1) as [[[]|e] w2]; [|done].
  rewrite !bind_run.
  destruct (step4_check_path E r w2) as [[[]|e] w3]; done.
Qed.

Lemma guarded_steps_creating E r w :
  guarded_steps E r w =
  (creating E r;;
   '(copied_count, total_size, skipped_dirs) ← sync_files E r;
   step10_report r copied_count total_size skipped_dirs) w.
Proof.
  unfold guarded_steps, creating. rewrite !bind_run.
  destruct (step5_branch_exists E r w) as [[b|e] w1]; [|done].
  rewrite !bind_run. destruct (step6_create_worktree E r b w1) as [[[]|e] w2]; done.
Qed.

(** ** What git commands do to the worktree path *)

Lemma run_git_command_checked E args w res w' :
  run_git_command E args true w = (Ret res, w') ->
  ∃ out err, git E args = Completed 0 out err ∧
             w' = set_existing (git_effect E args 0) (log (Git args) w).
Proof.
  unfold run_git_command, subprocess_run_git. mstep.
  destruct (git E args) as [rc out err|e].
  - destruct (Z.eqb_spec rc 0) as [->|?]; simpl; [|done].
    intros [= <- <-]. eauto.
  - by destruct e.
Qed.

Lemma creating_makes_worktree E r w w' :
  creating E r w = (Ret tt, w') ->
  str_of_path (worktree_path r) ∈ existing w'.
Proof.
  unfold creating. rewrite bind_run.
  destruct (step5_branch_exists E r w) as [[b|e] w1]; [|done].
  unfold step6_create_worktree. rewrite !bind_run. unfold print_info, emit.
  destruct b.
  - rewrite !bind_run.
    destruct (run_git_command E _ true (log (Out LInfo CreatingWorktree) w1))
      as [[res|e] w2] eqn:Hgit; [|done].
    apply run_git_command_checked in Hgit as (out & err & _ & ->).
    intros [= <-]. simpl. set_solver.
  - rewrite !bind_run. unfold print_warn, emit. rewrite !bind_run.
    destruct (run_git_command E _ true _) as [[res|e] w2] eqn:Hgit; [|done].
    apply run_git_command_checked in Hgit as (out & err & _ & ->).
    intros [= <-]. simpl. set_solver.
Qed.

Lemma git_effect_removal E p rc (ex : gset string) :
  git_effect E (removal_args p) rc ex
  = if rc =? 0 then ex ∖ {[str_of_path p]} else ex.
Proof. done. Qed.

Lemma exists_now_false E w p :
  exists_now E w p = false -> str_of_path p ∉ existing w.
Proof.
  unfold exists_now. intros [_ H]%orb_false_iff. by apply bool_decide_eq_false in H.
Qed.

(** What [cleanup_on_failure] does: it returns; it asks git for the
    forced removal when the path exists; it never adds a worktree; and the
    path is gone afterwards if the removal command succeeded or the
    recursive deletion did. *)
Lemma cleanup_on_failure_run E p w :
  ∃ w' evs,
    cleanup_on_failure E p w = (Ret tt, w') ∧
    trace w' = trace w ++ evs ∧
    Forall (fun ev => is_worktree_add ev = false) evs ∧
    (exists_now E w p = true -> Git (removal_args p) ∈ evs) ∧
    existing w' ⊆ existing w ∧
    ((∃ out err, git E (removal_args p) = Completed 0 out err) ∨ rmtree E p = None ->
     str_of_path p ∉ existing w').
Proof.
  unfold cleanup_on_failure. rewrite bind_run. unfold path_exists.
  destruct (exists_now E w p) eqn:Hex; cycle 1.
  { exists w, []. rewrite app_nil_r. split_and!; try done.
    intros _. by apply (exists_now_false E). }
  rewrite !bind_run. unfold print_warn, emit. rewrite !bind_run.
  fold (removal_args p). unfold try_except at 1. rewrite bind_run.
  unfold subprocess_run_git.
  set (w1 := log (Git (removal_args p)) (log (Out LWarn (CleaningUp p)) w)).
  assert (Hfinish : ∀ (w2 : world) (G : Prop),
    trace w2 = trace w1 -> existing w2 ⊆ existing w ->
    (G -> str_of_path p ∉ existing w2) ->
    ∃ w' evs,
      (if exists_now E w2 p
       then try_except (do_rmtree E p) (fun _ => Some (mret tt))
       else mret tt) w2 = (Ret tt, w') ∧
      trace w' = trace w ++ evs ∧
      Forall (fun ev => is_worktree_add ev = false) evs ∧
      (true = true -> Git (removal_args p) ∈ evs) ∧
      existing w' ⊆ existing w ∧
      (G ∨ rmtree E p = None -> str_of_path p ∉ existing w')).
  { intros w2 G Htr Hsub Hgone.
    destruct (exists_now E w2 p) eqn:Hstill; cycle 1.
    { exists w2, [Out LWarn (CleaningUp p); Git (removal_args p)].
      split_and!.
      - done.
      - rewrite Htr. simpl. by rewrite <- app_assoc.
      - by repeat constructor.
      - intros _. right. left.
      - done.
      - intros _. by apply (exists_now_false E). }
    unfold do_rmtree. destruct (rmtree E p) as [e|] eqn:Hrm.
    - exists (log (Rmtree p) w2),
        [Out LWarn (CleaningUp p); Git (removal_args p); Rmtree p].
      split_and!.
      + by mstep.
      + simpl. rewrite Htr. simpl. by rewrite <- !app_assoc.
      + by repeat constructor.
      + intros _. right. left.
      + done.
      + intros [?|?]; [auto|done].
    - exists (set_existing (fun ex => ex ∖ {[str_of_path p]}) (log (Rmtree p) w2)),
        [Out LWarn (CleaningUp p); Git (removal_args p); Rmtree p].
      split_and!.
      + by mstep.
      + simpl. rewrite Htr. simpl. by rewrite <- !app_assoc.
      + by repeat constructor.
      + intros _. right. left.
      + simpl. set_solver.
      + intros _. simpl. set_solver. }
  destruct (git E (removal_args p)) as [rc out err|e] eqn:Hgit.
  - cbv beta iota delta [mret M_ret]. rewrite bind_run. cbv beta iota.
    apply Hfinish.
    + done.
    + unfold set_existing. cbn [existing]. rewrite git_effect_removal.
      destruct (rc =? 0); set_solver.
    + intros (out' & err' & [= -> _ _]).
      unfold set_existing. cbn [existing]. rewrite git_effect_removal.
      simpl. set_solver.
  - cbv beta iota delta [mret M_ret]. rewrite bind_run. cbv beta iota.
    apply Hfinish; [done|done|]. intros (? & ? & ?). done.
Qed.



(** * Claims about the orchestrator *)


Lemma copy_escapes_none E r f :
  (∀ p e, mkdir E p = Some e -> is_Exception e = true) ->
  (∀ s d e, copy2 E s d = Some e -> is_Exception e = true) ->
  copy_escapes E r f = None.
Proof.
  intros Hmk Hcp. unfold copy_escapes.
  destruct (mkdir E _) as [e|] eqn:H1; [by rewrite (Hmk _ _ H1)|].
  destruct (copy2 E _ _) as [e|] eqn:H2; [by rewrite (Hcp _ _ _ H2)|done].
Qed.

(** C7.  A copy that fails with an [Exception], in [mkdir] or in [copy2],
    makes [copy_file_with_metadata] return [False] after a warning.  And
    when such failures are the only ones, a run that has created the
    worktree and found its copy set goes through every candidate in order,
    prints the report and returns, which is exit status 0, with the
    worktree in place. *)
Theorem copy_failure_not_fatal :
  (∀ E src dst w e,
     is_Exception e = true ->
     mkdir E (parent dst) = Some e
     ∨ (mkdir E (parent dst) = None ∧ copy2 E src dst = Some e) ->
     ∃ evs, copy_file_with_metadata E src dst w
            = (Ret false, emits w (evs ++ [Out LWarn (FailedToCopy src e)]))) ∧
  (∀ E args w r w1 w2 files skipped total w3,
     validating E args w = (Ret r, w1) ->
     creating E r w1 = (Ret tt, w2) ->
     step7_8_find_files E r w2 = (Ret (files, skipped, total), w3) ->
     (∀ p e, mkdir E p = Some e -> is_Exception e = true) ->
     (∀ s d e, copy2 E s d = Some e -> is_Exception e = true) ->
     ∃ w' n,
       main E args w = (Ret tt, w') ∧
       exit_code (Ret tt) = Some 0 ∧
       trace w' = trace w3
                  ++ (if bool_decide (files = []) then [] else [Out LInfo CopyingFiles])
                  ++ concat (copy_events E r <$> files)
                  ++ report_events r n total skipped ∧
       str_of_path (worktree_path r) ∈ existing w').
Proof.
  split.
  - intros E src dst w e He Hfail. rewrite copy_file_with_metadata_run.
    destruct Hfail as [->|[-> ->]]; rewrite He.
    + by exists [Mkdir (parent dst)].
    + by exists [Mkdir (parent dst); Copy2 src dst].
  - intros E args w r w1 w2 files skipped total w3 Hval Hcreate H78 Hmk Hcp.
    destruct (step9_run E r files w3) as (res9 & handled & H9 & Hcases).
    destruct Hcases as [(n & -> & -> & _)|(e & pre & f & rest & _ & _ & _ & Hesc)];
      cycle 1.
    { by rewrite (copy_escapes_none E r f Hmk Hcp) in Hesc. }
    eexists _, n. split_and!; [|done| |].
    + rewrite main_validating, bind_run, Hval. unfold try_except.
      rewrite guarded_steps_creating, bind_run, Hcreate.
      unfold sync_files. rewrite !bind_run, H78, bind_run, H9.
      cbv beta iota delta [mret M_ret]. rewrite step10_report_run. reflexivity.
    + simpl. by rewrite <- !app_assoc.
    + simpl. pose proof (step7_8_spec E r w2) as Hspec.
      cbv zeta in Hspec. unfold post in Hspec. rewrite H78 in Hspec.
      destruct Hspec as ([-> _] & _). by eapply creating_makes_worktree.
Qed.

Lemma step1_to_3_trace E args w res w1 :
  step1_to_3 E args w = (res, w1) ->
  existing w1 = existing w ∧
  ∃ evs, trace w1 = trace w ++ Git ["rev-parse"; "--git-dir"] :: evs ∧
         Forall (fun ev => is_worktree_add ev = false) evs.
Proof.
  unfold step1_to_3, run_git_command, subprocess_run_git. mstep.
  destruct (git E ["rev-parse"; "--git-dir"]) as [rc1 o1 e1|x1]; cycle 1.
  { destruct x1; intros [= <- <-]; (split; [done|]); eexists; cbn [trace];
      rewrite <- ?app_assoc; (split; [reflexivity|]); by repeat constructor. }
  destruct (rc1 =? 0); cbn [negb andb]; cycle 1.
  { intros [= <- <-]. split; [done|]. eexists. cbn [trace].
    rewrite <- !app_assoc. split; [reflexivity|]. by repeat constructor. }
  destruct (git E ["rev-parse"; "--show-toplevel"]) as [rc2 o2 e2|x2]; cycle 1.
  { destruct x2; intros [= <- <-]; (split; [done|]); eexists; cbn [trace];
      rewrite <- !app_assoc; (split; [reflexivity|]); by repeat constructor. }
  destruct (rc2 =? 0); cbn [negb andb]; cycle 1.
  { intros [= <- <-]. split; [done|]. eexists. cbn [trace].
    rewrite <- !app_assoc. split; [reflexivity|]. by repeat constructor. }
  destruct (given (arg_worktree_path args)), (given (arg_branch args));
    intros [= <- <-]; (split; [done|]); eexists; cbn [trace];
    rewrite <- !app_assoc; (split; [reflexivity|]); by repeat constructor.
Qed.

Lemma step3_1_validate_branch_run E r w rc out err :
  git E ["check-ref-format"; "--branch"; branch r] = Completed rc out err ->
  step3_1_validate_branch E r w =
  (if rc =? 0 then Ret tt else Raise (SystemExit 1),
   emits w (Git ["check-ref-format"; "--branch"; branch r]
            :: (if rc =? 0
                then [Out LInfo (BranchIs (branch r));
                      Out LInfo (WorktreePathIs (worktree_path r))]
                else [Out LError (InvalidBranchName (branch r));
                      Out LWarn BranchNameRules]))).
Proof.
  intros Hgit.
  unfold step3_1_validate_branch, validate_branch_name, run_git_command,
    subprocess_run_git.
  mstep. rewrite Hgit.
  destruct (rc =? 0); cbn [negb andb is_CalledProcessError git_effect];
    by rewrite <- !app_assoc.
Qed.

Lemma step4_check_path_run E r w :
  step4_check_path E r w =
  if exists_now E w (worktree_path r)
  then (Raise (SystemExit 1),
        emits w [Out LError (PathAlreadyExists (worktree_path r));
                 Out LWarn (SuggestDifferentPath (worktree_path r))])
  else (Ret tt, w).
Proof.
  unfold step4_check_path. rewrite bind_run. unfold path_exists.
  destruct (exists_now E w (worktree_path r)); [mdone|done].
Qed.

(** C4, amended.  The repository check comes first, but the branch name is
    validated before the destination path is looked at.  So in a run whose
    destination path already exists, once steps 1 to 3 are through and git
    has answered the format check: the run ends with exit status 1 and no
    [worktree add] is ever issued; the format check has been issued; and
    the path collision with its suggested alternate path is reported only
    if the branch name is valid, an invalid name being reported instead. *)
Theorem path_collision_checked_after_branch E args w r w1 rc out err :
  step1_to_3 E args w = (Ret r, w1) ->
  exists_now E w1 (worktree_path r) = true ->
  git E ["check-ref-format"; "--branch"; branch r] = Completed rc out err ->
  ∃ w' evs,
    main E args w = (Raise (SystemExit 1), w') ∧
    exit_code (Raise (SystemExit 1)) = Some 1 ∧
    trace w1 = trace w ++ Git ["rev-parse"; "--git-dir"] :: evs ∧
    trace w' = trace w1
               ++ Git ["check-ref-format"; "--branch"; branch r]
               :: (if rc =? 0
                   then [Out LInfo (BranchIs (branch r));
                         Out LInfo (WorktreePathIs (worktree_path r));
                         Out LError (PathAlreadyExists (worktree_path r));
                         Out LWarn (SuggestDifferentPath (worktree_path r))]
                   else [Out LError (InvalidBranchName (branch r));
                         Out LWarn BranchNameRules]) ∧
    Forall (fun ev => is_worktree_add ev = false) evs.
Proof.
  intros H13 Hex Hgit.
  destruct (step1_to_3_trace E args w _ _ H13) as (Hex1 & evs & Htr & Hadd).
  exists (emits w1 (Git ["check-ref-format"; "--branch"; branch r]
                    :: (if rc =? 0
                        then [Out LInfo (BranchIs (branch r));
                              Out LInfo (WorktreePathIs (worktree_path r));
                              Out LError (PathAlreadyExists (worktree_path r));
                              Out LWarn (SuggestDifferentPath (worktree_path r))]
                        else [Out LError (InvalidBranchName (branch r));
                              Out LWarn BranchNameRules]))), evs.
  split_and!; [|done|exact Htr| |exact Hadd].
  - unfold main. rewrite bind_run, H13, bind_run.
    rewrite (step3_1_validate_branch_run E r w1 rc out err Hgit).
    destruct (rc =? 0); [|reflexivity].
    rewrite bind_run, step4_check_path_run.
    change (exists_now E (emits w1 _) (worktree_path r))
      with (exists_now E w1 (worktree_path r)).
    rewrite Hex, emits_emits. reflexivity.
  - destruct (rc =? 0); reflexivity.
Qed.

(** * The ignore-file parser against the specification's wording *)

Section IgnoreParser.
Import IgnoreSpec.
Local Abbreviation chars := list_ascii_of_string.

Lemma lstrip_with_chars f s :
  chars (Str.lstrip_with f s) = drop_while f (chars s).
Proof. induction s as [|c s IH]; simpl; [done|]. by destruct (f c). Qed.

Lemma drop_while_snoc f l c :
  drop_while f (l ++ [c]) =
  match drop_while f l with
  | [] => if f c then [] else [c]
  | r => r ++ [c]
  end.
Proof.
  induction l as [|d l IH]; simpl; [done|].
  destruct (f d); [apply IH|done].
Qed.

Lemma is_empty_chars s : Str.is_empty s = true ↔ chars s = [].
Proof. by destruct s. Qed.

Lemma rstrip_with_chars f s :
  chars (Str.rstrip_with f s) = reverse (drop_while f (reverse (chars s))).
Proof.
  induction s as [|c s IH]; simpl; [done|].
  rewrite reverse_cons, drop_while_snoc.
  destruct (Str.is_empty (Str.rstrip_with f s)) eqn:Hemp.
  - apply is_empty_chars in Hemp.
    assert (Hnil : drop_while f (reverse (chars s)) = []).
    { apply (f_equal reverse) in IH.
      rewrite reverse_involutive, Hemp in IH. by rewrite <- IH. }
    rewrite Hnil. cbn [andb]. destruct (f c); cbn; [done|]. by rewrite Hemp.
  - assert (drop_while f (reverse (chars s)) ≠ []) as Hne.
    { intros Hnil. rewrite Hnil in IH. apply is_empty_chars in IH. congruence. }
    simpl. rewrite IH.
    destruct (drop_while f (reverse (chars s))) as [|d r]; [done|].
    change (d :: r ++ [c]) with ((d :: r) ++ [c]).
    by rewrite reverse_app, reverse_singleton.
Qed.

Lemma strip_chars s : chars (Str.strip s) = trim (chars s).
Proof. unfold Str.strip, trim. by rewrite rstrip_with_chars, lstrip_with_chars. Qed.

Lemma rstrip_slash_chars s :
  chars (Str.rstrip "/" s) = strip_trailing_slashes (chars s).
Proof.
  unfold Str.rstrip, strip_trailing_slashes. rewrite rstrip_with_chars.
  assert (∀ l, drop_while (Ascii.eqb "/") l = drop_while is_slash l) as ->; [|done].
  intros l. induction l as [|c l IH]; cbn [drop_while]; [done|].
  unfold is_slash. rewrite (Ascii.eqb_sym "/" c).
  destruct (Ascii.eqb c "/"); [apply IH|done].
Qed.

Lemma prefix_one c s :
  String.prefix (String c EmptyString) s =
  match chars s with d :: _ => Ascii.eqb c d | [] => false end.
Proof.
  destruct s as [|d s]; simpl; [done|].
  destruct (ascii_dec c d) as [->|Hne].
  - rewrite Ascii.eqb_refl. by destruct s.
  - by apply Ascii.eqb_neq in Hne as ->.
Qed.

Lemma contains_one c s :
  Str.contains (String c EmptyString) s = existsb (Ascii.eqb c) (chars s).
Proof.
  induction s as [|d s IH].
  - done.
  - change (Str.contains (String c EmptyString) (String d s))
      with (String.prefix (String c EmptyString) (String d s)
            || Str.contains (String c EmptyString) s).
    rewrite prefix_one, IH. done.
Qed.

Lemma eqb_star c : Ascii.eqb c "*" = if ascii_dec "*" c then true else false.
Proof.
  destruct (ascii_dec "*" c) as [<-|Hne]; [apply Ascii.eqb_refl|].
  apply Ascii.eqb_neq. congruence.
Qed.

Lemma contains_double_star s :
  Str.contains "**" s = has_double_wildcard (chars s).
Proof.
  induction s as [|c s IH]; [done|].
  change (Str.contains "**" (String c s))
    with (String.prefix "**" (String c s) || Str.contains "**" s).
  rewrite IH. destruct s as [|d s].
  - cbn [String.prefix list_ascii_of_string has_double_wildcard].
    by destruct (ascii_dec "*" c).
  - cbn [list_ascii_of_string has_double_wildcard]. f_equal. rewrite !eqb_star.
    cbn [String.prefix].
    destruct (ascii_dec "*" c); [|done].
    destruct (ascii_dec "*" d); [|done]. by destruct s.
Qed.

Lemma has_separator_chars s :
  Str.contains "/" s || Str.contains Str.backslash s = has_separator (chars s).
Proof.
  unfold Str.backslash, has_separator. rewrite !contains_one.
  induction (chars s) as [|c l IH]; [done|]. cbn [existsb].
  rewrite <- IH. unfold is_separator.
  rewrite (Ascii.eqb_sym c "/"), (Ascii.eqb_sym c (ascii_of_nat 92)).
  destruct (Ascii.eqb "/" c), (Ascii.eqb (ascii_of_nat 92) c),
    (existsb (Ascii.eqb "/") l); done.
Qed.

Lemma skipped_line_chars s :
  Str.is_empty s || Str.startswith "#" s || Str.startswith "!" s
  = skipped_line (chars s).
Proof.
  unfold Str.startswith. rewrite !prefix_one.
  destruct s as [|c s]; [done|].
  cbn [Str.is_empty list_ascii_of_string skipped_line orb].
  by rewrite (Ascii.eqb_sym c "#"), (Ascii.eqb_sym c "!").
Qed.

(** One iteration of the loop appends what the amended wording gives for
    the line. *)
Lemma parse_line_amended patterns line :
  parse_line patterns line =
  patterns ++ option_list (pattern_of_line strip_trailing_slashes line).
Proof.
  unfold parse_line, pattern_of_line.
  rewrite skipped_line_chars, strip_chars.
  destruct (skipped_line (trim (chars line))); [by rewrite app_nil_r|].
  rewrite <- orb_assoc, (orb_assoc (Str.contains "/" _)).
  rewrite has_separator_chars, contains_double_star, rstrip_slash_chars, strip_chars.
  destruct (has_separator _ || has_double_wildcard _) eqn:Hbad.
  - by rewrite app_nil_r.
  - simpl. do 2 f_equal. rewrite <- strip_chars, <- rstrip_slash_chars.
    by rewrite string_of_list_ascii_of_string.
Qed.

Lemma parse_gitignore_from patterns lines :
  fold_left parse_line lines patterns = patterns ++ patterns_amended lines.
Proof.
  revert patterns. induction lines as [|line lines IH]; intros patterns; simpl.
  - by rewrite app_nil_r.
  - rewrite IH, parse_line_amended. unfold patterns_amended. simpl.
    destruct (pattern_of_line strip_trailing_slashes line); simpl;
      by rewrite <- app_assoc.
Qed.

(** C3, amended.  The patterns parsed from the lines of the ignore file
    are, in file order, what is obtained per physical line by trimming;
    skipping empty, [#]-prefixed and [!]-prefixed lines; stripping every
    trailing [/] (not one separator); and skipping the line if a [/], a
    backslash or a double wildcard is left.  No pattern in the result
    contains a separator or a double wildcard. *)
Theorem parse_gitignore_amended lines :
  parse_gitignore lines = patterns_amended lines ∧
  ∀ p, p ∈ parse_gitignore lines ->
    has_separator (chars p) = false ∧ has_double_wildcard (chars p) = false.
Proof.
  assert (Heq : parse_gitignore lines = patterns_amended lines).
  { unfold parse_gitignore. by rewrite parse_gitignore_from. }
  split; [done|]. rewrite Heq. intros p Hp.
  apply list_elem_of_omap in Hp as (line & _ & Hline).
  unfold pattern_of_line in Hline.
  destruct (skipped_line _); [done|].
  destruct (has_separator _ || has_double_wildcard _) eqn:Hbad; [done|].
  injection Hline as <-. rewrite list_ascii_of_string_of_list_ascii.
  by apply orb_false_iff in Hbad.
Qed.

(** C3 as stated fails: a line ending in two slashes loses both to
    [rstrip] and becomes a pattern, where stripping one separator leaves
    a separator and the line is skipped. *)
Lemma two_trailing_slashes_accepted :
  parse_gitignore ["build//"] = ["build"] ∧ patterns_stated ["build//"] = [].
Proof. split; reflexivity. Qed.
End IgnoreParser.

(** * The claims on the sample repository *)

(** C1 fails on the code.  [.env] is in the ignore file and one byte over
    the ceiling: the scanner leaves it out and prints the skip warning,
    yet [find_common_config_files] adds it again without a size check, and
    the run copies it into the worktree. *)
Theorem oversized_common_config_is_copied :
  stat Sample.E_big (Sample.sd ++ [".env"]) = Ret (MAX_FILE_SIZE_BYTES + 1) ∧
  (∃ w1, find_git_ignored_files Sample.E_big Sample.sd Sample.gp Sample.w0
         = (Ret ([Sample.sd ++ ["app.local.json"];
                  Sample.sd ++ ["src"; "debug.log"]], {["node_modules"]}), w1)) ∧
  ∃ w', main Sample.E_big Sample.args0 Sample.w0 = (Ret tt, w') ∧
        Out LWarn (SkippingLargeFile [".env"] (MAX_FILE_SIZE_BYTES + 1)) ∈ trace w' ∧
        Copy2 (Sample.sd ++ [".env"]) ["home"; "wt"; ".env"] ∈ trace w'.
Proof.
  split; [reflexivity|].
  split; [eexists; vm_compute; reflexivity|].
  eexists. split; [vm_compute; reflexivity|].
  split; apply list_elem_of_In; cbn [trace];
    repeat (first [left; reflexivity|right]).
Qed.



(** C4 as stated fails: the destination exists and the branch name is
    invalid; the branch name is checked and reported, the path is never
    looked at, and no alternate path is suggested. *)
Lemma branch_validated_before_path_check :
  exists_now Sample.E0 Sample.w_taken ["home"; "wt"] = true ∧
  main Sample.E0 Sample.args_bad_branch Sample.w_taken
  = (Raise (SystemExit 1),
     {| existing := {["/home/wt"]};
        trace :=
          [Git ["rev-parse"; "--git-dir"];
           Git ["rev-parse"; "--show-toplevel"];
           Out LInfo (SourceRepository ["home"; "repo"]);
           Git ["check-ref-format"; "--branch"; "feature test"];
           Out LError (InvalidBranchName "feature test");
           Out LWarn BranchNameRules] |}).
Proof. split; vm_compute; reflexivity. Qed.

Lemma path_collision_checked_after_branch_witness :
  ∃ w', main Sample.E0 Sample.args0 Sample.w_taken = (Raise (SystemExit 1), w') ∧
        Out LWarn (SuggestDifferentPath ["home"; "wt"]) ∈ trace w'.
Proof.
  destruct (path_collision_checked_after_branch
              Sample.E0 Sample.args0 Sample.w_taken Sample.run0
              (snd (step1_to_3 Sample.E0 Sample.args0 Sample.w_taken)) 0 "" "")
    as (w' & evs & Hmain & _ & _ & Htr & _).
  - vm_compute. reflexivity.
  - vm_compute. reflexivity.
  - reflexivity.
  - exists w'. split; [exact Hmain|]. rewrite Htr.
    apply elem_of_app. right. cbn. repeat (first [left|right]).
Defined.

Lemma copy_failure_not_fatal_witness :
  ∃ w', main Sample.E_copy_fails Sample.args0 Sample.w0 = (Ret tt, w') ∧
        str_of_path ["home"; "wt"] ∈ existing w'.
Proof.
  destruct (proj2 copy_failure_not_fatal
              Sample.E_copy_fails Sample.args0 Sample.w0 Sample.run0
              (snd (validating Sample.E_copy_fails Sample.args0 Sample.w0))
              (snd (creating Sample.E_copy_fails Sample.run0
                      (snd (validating Sample.E_copy_fails Sample.args0 Sample.w0))))
              [Sample.sd ++ ["app.local.json"]; Sample.sd ++ [".env"];
               Sample.sd ++ ["src"; "debug.log"];
               Sample.sd ++ ["config"; "local.yaml"]]
              {["node_modules"]} 800
              (snd (step7_8_find_files Sample.E_copy_fails Sample.run0
                      (snd (creating Sample.E_copy_fails Sample.run0
                              (snd (validating Sample.E_copy_fails Sample.args0
                                      Sample.w0)))))))
    as (w' & n & Hmain & Hexit & _ & Hwt).
  - vm_compute. reflexivity.
  - vm_compute. reflexivity.
  - vm_compute. reflexivity.
  - intros p e. discriminate.
  - intros s d e. cbn. case_bool_decide; [|discriminate]. by intros [= <-].
  - exists w'. split; [exact Hmain|exact Hwt].
Defined.


Lemma unreadable_size_silently_excluded_witness :
  stat Sample.E_stat_oserror (Sample.sd ++ ["src"; "debug.log"]) = Raise OSError ∧
  ∃ res w',
    find_git_ignored_files Sample.E_stat_oserror Sample.sd Sample.gp Sample.w0
    = (Ret res, w').
Proof.
  split; [reflexivity|].
  destruct (unreadable_size_silently_excluded
              Sample.E_stat_oserror Sample.sd Sample.gp Sample.w0
              ["src"; "debug.log"] OSError eq_refl eq_refl) as (_ & Hret & _).
  apply Hret.
  - intros q e'. cbn. unfold Sample.stat_but.
    case_bool_decide; [|discriminate]. by intros [= <-].
  - intros e'. discriminate.
Defined.

(** * Further properties of the script *)

(** ** The command runner *)

(** X1.  Whatever git does, [run_git_command] logs exactly one invocation;
    a missing binary never surfaces as [FileNotFoundError]; with
    [check=True] it returns only an exit status of 0; and a
    [CalledProcessError] comes either from the call itself or from a
    non-zero exit status under [check=True]. *)
Theorem run_git_command_contract E args check w res w' :
  run_git_command E args check w = (res, w') ->
  trace w' = trace w ++ [Git args] ∧
  res ≠ Raise FileNotFoundError ∧
  (∀ rc output, check = true -> res = Ret (rc, output) -> rc = 0) ∧
  (∀ rc output, res = Raise (CalledProcessError rc output) ->
     git E args = Failed (CalledProcessError rc output)
     ∨ (check = true ∧ rc ≠ 0 ∧ ∃ out err, git E args = Completed rc out err)).
Proof.
  unfold run_git_command, subprocess_run_git. mstep.
  destruct (git E args) as [rc out err|e].
  - destruct check; cbn [andb].
    + destruct (Z.eqb_spec rc 0) as [->|Hne]; cbn [negb];
        intros [= <- <-]; (split; [done|]); (split; [done|]); split.
      * by intros ?? _ [= <- _].
      * done.
      * done.
      * intros ?? [= <- <-]. right. eauto.
    + intros [= <- <-]. split; [done|]. split; [done|]. split; done.
  - destruct e; intros [= <- <-]; (split; [done|]); (split; [done|]);
      (split; [done|]); intros ?? [=]; subst; by left.
Qed.

Lemma run_git_command_contract_witness :
  run_git_command Sample.E0 ["rev-parse"; "--show-toplevel"] true Sample.w0
  = (Ret (0, "/home/repo"), emits Sample.w0 [Git ["rev-parse"; "--show-toplevel"]]) ∧
  trace (emits Sample.w0 [Git ["rev-parse"; "--show-toplevel"]])
  = trace Sample.w0 ++ [Git ["rev-parse"; "--show-toplevel"]].
Proof.
  assert (H : run_git_command Sample.E0 ["rev-parse"; "--show-toplevel"] true Sample.w0
              = (Ret (0, "/home/repo"),
                 emits Sample.w0 [Git ["rev-parse"; "--show-toplevel"]]))
    by (vm_compute; reflexivity).
  split; [exact H|].
  exact (proj1 (run_git_command_contract _ _ _ _ _ _ H)).
Defined.

(** X2.  [validate_branch_name] asks git once, with
    [check-ref-format --branch], and changes nothing on disk; when git
    completes, the answer is whether the exit status is 0; when the binary
    is missing, the call raises [RuntimeError] instead of answering. *)
Theorem validate_branch_name_contract E branch w res w' :
  validate_branch_name E branch w = (res, w') ->
  trace w' = trace w ++ [Git ["check-ref-format"; "--branch"; branch]] ∧
  existing w' = existing w ∧
  (∀ rc out err,
     git E ["check-ref-format"; "--branch"; branch] = Completed rc out err ->
     res = Ret (rc =? 0)) ∧
  (git E ["check-ref-format"; "--branch"; branch] = Failed FileNotFoundError ->
   ∃ message, res = Raise (RuntimeError message)).
Proof.
  unfold validate_branch_name, run_git_command, subprocess_run_git. mstep.
  destruct (git E ["check-ref-format"; "--branch"; branch]) as [rc out err|e].
  - destruct (rc =? 0) eqn:Hrc; cbn [negb andb is_CalledProcessError git_effect];
      intros [= <- <-]; (split; [done|]); (split; [done|]); (split; [|done]);
      intros ??? [= <- _ _]; by rewrite Hrc.
  - destruct e; cbn [is_CalledProcessError]; intros [= <- <-];
      (split; [done|]); (split; [done|]); (split; [done|]); try done.
    intros _. by eexists.
Qed.

Lemma validate_branch_name_contract_witness :
  validate_branch_name Sample.E0 "feature test" Sample.w0
  = (Ret false, emits Sample.w0 [Git ["check-ref-format"; "--branch"; "feature test"]]) ∧
  existing (emits Sample.w0 [Git ["check-ref-format"; "--branch"; "feature test"]])
  = existing Sample.w0.
Proof.
  assert (H : validate_branch_name Sample.E0 "feature test" Sample.w0
              = (Ret false,
                 emits Sample.w0 [Git ["check-ref-format"; "--branch"; "feature test"]]))
    by (vm_compute; reflexivity).
  split; [exact H|].
  exact (proj1 (proj2 (validate_branch_name_contract _ _ _ _ _ H))).
Defined.

(** ** The scanner *)

(** X3.  Every candidate the scanner returns is a file of a directory
    reached from the source directory without crossing a blacklisted
    name, its name matches a pattern parsed from the ignore file, and its
    size is known and within the ceiling; every name in the skipped set is
    blacklisted. *)
Theorem scan_candidates_sound E sd gp w files skipped w' :
  find_git_ignored_files E sd gp w = (Ret (files, skipped), w') ->
  (∀ d, d ∈ skipped -> is_blacklisted d = true) ∧
  ∀ p, p ∈ files ->
    ∃ lines rel es fn pat size,
      read_lines E gp = Ret lines ∧
      p = sd ++ rel ++ [fn] ∧ clean rel ∧
      tree_lookup (tree E) (sd ++ rel) = Some (Dir es) ∧ fn ∈ file_names es ∧
      pat ∈ parse_gitignore lines ∧ fnmatch fn pat = true ∧
      stat E p = Ret size ∧ size <= MAX_FILE_SIZE_BYTES.
Proof.
  intros Hrun. pose proof (find_git_ignored_files_spec E sd gp w) as Hspec.
  unfold post in Hspec. rewrite Hrun in Hspec.
  destruct Hspec as (_ & Hkept & _ & Hskipped & _).
  split; [exact Hskipped|]. intros p Hp.
  rewrite Forall_forall in Hkept. specialize (Hkept p Hp).
  destruct Hkept as [rel es fn pat size Hclean Hes Hfn Hpat Hm Hsz Hle].
  unfold patterns_read in Hpat.
  destruct (read_lines E gp) as [lines|e]; [|by apply elem_of_nil in Hpat].
  exists lines, rel, es, fn, pat, size. done.
Qed.

Lemma scan_candidates_sound_witness :
  ∃ files w',
    find_git_ignored_files Sample.E0 Sample.sd Sample.gp Sample.w0
    = (Ret (files, {["node_modules"]}), w') ∧
    ∀ d, d ∈ ({["node_modules"]} : gset string) -> is_blacklisted d = true.
Proof.
  eexists _, _.
  assert (H : find_git_ignored_files Sample.E0 Sample.sd Sample.gp Sample.w0
              = (Ret (_, {["node_modules"]}), _)) by (vm_compute; reflexivity).
  split; [exact H|].
  exact (proj1 (scan_candidates_sound _ _ _ _ _ _ _ H)).
Defined.

(** X4.  The scanner only looks: whatever its outcome, nothing on disk
    changes, and all it adds to the trace is its two messages, directory
    listings, and skip warnings; each skip warning names a file below the
    source directory whose size is known and over the ceiling. *)
Theorem scan_only_looks E sd gp w res w' :
  find_git_ignored_files E sd gp w = (res, w') ->
  existing w' = existing w ∧
  ∃ evs, trace w' = trace w ++ evs ∧
    ∀ ev, ev ∈ evs ->
      ev = Out LInfo ScanningIgnored
      ∨ (∃ e, ev = Out LWarn (CouldNotReadGitignore e) ∧ read_lines E gp = Raise e)
      ∨ (∃ top, ev = Scandir top)
      ∨ (∃ rel size, ev = Out LWarn (SkippingLargeFile rel size) ∧
                     stat E (sd ++ rel) = Ret size ∧ MAX_FILE_SIZE_BYTES < size).
Proof.
  intros Hrun. pose proof (find_git_ignored_files_spec E sd gp w) as Hspec.
  unfold post in Hspec. rewrite Hrun in Hspec.
  assert (find_world E sd gp w w') as [Hex (evs & Htr & Hevs)].
  { destruct res as [[files skipped]|e]; by destruct Hspec as [? _]. }
  split; [done|]. exists evs. split; [done|]. intros ev Hev.
  rewrite Forall_forall in Hevs. specialize (Hevs ev Hev).
  destruct Hevs as [|e He _|ev Hscan].
  - by left.
  - right. left. eauto.
  - destruct Hscan as [rel _|rel fn size _ Hsz Hlt].
    + right. right. left. eauto.
    + right. right. right. exists (rel ++ [fn]), size. done.
Qed.

Lemma scan_only_looks_witness :
  ∃ res w',
    find_git_ignored_files Sample.E_big Sample.sd Sample.gp Sample.w0 = (res, w') ∧
    existing w' = existing Sample.w0.
Proof.
  eexists _, _.
  assert (H : find_git_ignored_files Sample.E_big Sample.sd Sample.gp Sample.w0
              = (_, _)) by (vm_compute; reflexivity).
  split; [exact H|].
  exact (proj1 (scan_only_looks _ _ _ _ _ _ H)).
Defined.


(** ** The copier *)

Ltac in_list :=
  rewrite ?elem_of_cons, ?elem_of_nil;
  repeat match goal with
         | |- _ ↔ _ => split
         | |- _ -> _ => intros ?
         | H : _ ∨ _ |- _ => destruct H
         | H : _ ∧ _ |- _ => destruct H
         | H : ∃ _, _ |- _ => destruct H
         | H : False |- _ => destruct H
         | H : _ ∈ _ :: _ |- _ => rewrite elem_of_cons in H
         | H : _ ∈ [] |- _ => apply elem_of_nil in H
         | H : Some _ = None |- _ => discriminate H
         | H : None = Some _ |- _ => discriminate H
         end;
  try discriminate; try congruence; eauto 6.

(** X7.  [copy_file_with_metadata] changes the trace only; it returns
    [True] exactly when both the directory creation and the copy succeed;
    [copy2] is called exactly when the directory could be made; it returns
    [False] exactly when it has printed the failure warning; and what it
    raises is never an [Exception]. *)
Theorem copy_file_with_metadata_contract E src dst w res w' :
  copy_file_with_metadata E src dst w = (res, w') ->
  existing w' = existing w ∧
  (res = Ret true ↔ mkdir E (parent dst) = None ∧ copy2 E src dst = None) ∧
  (∀ e, res = Raise e -> is_Exception e = false) ∧
  ∃ evs, trace w' = trace w ++ evs ∧
    (Copy2 src dst ∈ evs ↔ mkdir E (parent dst) = None) ∧
    (res = Ret false ↔ ∃ e, Out LWarn (FailedToCopy src e) ∈ evs).
Proof.
  rewrite copy_file_with_metadata_run.
  destruct (mkdir E (parent dst)) as [e|].
  { destruct (is_Exception e) eqn:He; intros [= <- <-].
    - split; [done|]. split; [in_list|]. split; [in_list|].
      eexists. split; [reflexivity|]. split; [in_list|].
      split; [intros _; exists e; rewrite !elem_of_cons; auto|done].
    - split; [done|]. split; [in_list|]. split; [in_list|].
      eexists. split; [reflexivity|]. split; in_list. }
  destruct (copy2 E src dst) as [e|].
  { destruct (is_Exception e) eqn:He; intros [= <- <-].
    - split; [done|]. split; [in_list|]. split; [in_list|].
      eexists. split; [reflexivity|]. split; [in_list|].
      split; [intros _; exists e; rewrite !elem_of_cons; auto|done].
    - split; [done|]. split; [in_list|]. split; [in_list|].
      eexists. split; [reflexivity|]. split; in_list. }
  intros [= <- <-]. split; [done|]. split; [in_list|]. split; [in_list|].
  eexists. split; [reflexivity|]. split; in_list.
Qed.

Lemma copy_file_with_metadata_contract_witness :
  copy_file_with_metadata Sample.E_copy_fails (Sample.sd ++ [".env"])
    ["home"; "wt"; ".env"] Sample.w0
  = (Ret false,
     emits Sample.w0
       [Mkdir ["home"; "wt"];
        Copy2 (Sample.sd ++ [".env"]) ["home"; "wt"; ".env"];
        Out LWarn (FailedToCopy (Sample.sd ++ [".env"]) OSError)]) ∧
  existing (emits Sample.w0
       [Mkdir ["home"; "wt"];
        Copy2 (Sample.sd ++ [".env"]) ["home"; "wt"; ".env"];
        Out LWarn (FailedToCopy (Sample.sd ++ [".env"]) OSError)])
  = existing Sample.w0.
Proof.
  assert (H : copy_file_with_metadata Sample.E_copy_fails (Sample.sd ++ [".env"])
                ["home"; "wt"; ".env"] Sample.w0
              = (Ret false,
                 emits Sample.w0
                   [Mkdir ["home"; "wt"];
                    Copy2 (Sample.sd ++ [".env"]) ["home"; "wt"; ".env"];
                    Out LWarn (FailedToCopy (Sample.sd ++ [".env"]) OSError)]))
    by (vm_compute; reflexivity).
  split; [exact H|].
  exact (proj1 (copy_file_with_metadata_contract _ _ _ _ _ _ H)).
Defined.

(** ** The cleanup *)

(** The world after the forced removal was asked of git. *)
Lemma cleanup_on_failure_run_eq E p w :
  cleanup_on_failure E p w =
  if exists_now E w p then
    let w1 := emits w [Out LWarn (CleaningUp p); Git (removal_args p)] in
    let w2 := match git E (removal_args p) with
              | Completed rc _ _ => set_existing (git_effect E (removal_args p) rc) w1
              | Failed _ => w1
              end in
    if exists_now E w2 p then
      (Ret tt, match rmtree E p with
               | Some _ => emits w2 [Rmtree p]
               | None => set_existing (fun ex => ex ∖ {[str_of_path p]})
                                      (emits w2 [Rmtree p])
               end)
    else (Ret tt, w2)
  else (Ret tt, w).
Proof.
  unfold cleanup_on_failure. rewrite bind_run. unfold path_exists.
  destruct (exists_now E w p); [|done].
  rewrite !bind_run. unfold print_warn, emit. rewrite !bind_run.
  fold (removal_args p). unfold try_except at 1. rewrite bind_run.
  unfold subprocess_run_git.
  change (log (Git (removal_args p)) (log (Out LWarn (CleaningUp p)) w))
    with (emits (emits w [Out LWarn (CleaningUp p)]) [Git (removal_args p)]).
  rewrite emits_emits. cbn [app].
  cbv zeta.
  destruct (git E (removal_args p)) as [rc out err|e];
    cbv beta iota delta [mret M_ret]; rewrite bind_run; cbv beta iota.
  - destruct (exists_now E _ p); [|done].
    unfold do_rmtree. destruct (rmtree E p); mdone.
  - destruct (exists_now E _ p); [|done].
    unfold do_rmtree. destruct (rmtree E p); mdone.
Qed.




(** ** The orchestrator *)

Lemma run_git_command_run E args check w :
  run_git_command E args check w =
  match git E args with
  | Completed rc out err =>
      (if check && negb (rc =? 0)
       then Raise (CalledProcessError rc
                     (if Str.is_empty out then Str.strip err else Str.strip out))
       else Ret (rc, if Str.is_empty out then Str.strip err else Str.strip out),
       set_existing (git_effect E args rc) (emits w [Git args]))
  | Failed FileNotFoundError =>
      (Raise (RuntimeError "git command not found. Please install git."),
       emits w [Git args])
  | Failed e => (Raise e, emits w [Git args])
  end.
Proof.
  unfold run_git_command, subprocess_run_git. mstep.
  destruct (git E args) as [rc out err|e].
  - by destruct (check && negb (rc =? 0)).
  - by destruct e.
Qed.

(** X9.  Outside a repository: when [git rev-parse --git-dir] completes
    with a non-zero exit status, [main] prints the error and exits with
    status 1 after that one command; nothing else is run and nothing is
    created. *)
Theorem not_a_repository_exits E args w rc out err :
  git E ["rev-parse"; "--git-dir"] = Completed rc out err ->
  rc ≠ 0 ->
  main E args w
  = (Raise (SystemExit 1),
     emits w [Git ["rev-parse"; "--git-dir"]; Out LError NotAGitRepository]) ∧
  exit_code (main E args w).1 = Some 1.
Proof.
  intros Hgit Hrc.
  assert (Hmain : main E args w
    = (Raise (SystemExit 1),
       emits w [Git ["rev-parse"; "--git-dir"]; Out LError NotAGitRepository])).
  { unfold main, step1_to_3. rewrite !bind_run. unfold try_except at 1.
    rewrite bind_run, run_git_command_run, Hgit.
    apply Z.eqb_neq in Hrc. rewrite Hrc. cbn [andb negb is_CalledProcessError].
    mdone. }
  by rewrite Hmain.
Qed.

Lemma not_a_repository_exits_witness :
  exit_code (main Cases.E_no_repo Sample.args0 Sample.w0).1 = Some 1.
Proof.
  refine (proj2 (not_a_repository_exits Cases.E_no_repo Sample.args0 Sample.w0
                   128 "" "fatal: not a git repository" _ _)).
  - reflexivity.
  - lia.
Defined.

(** X10.  Without a git binary: the [RuntimeError] that
    [run_git_command] raises at step 1 is raised outside the [try] of
    [main], so it leaves [main] as it is: no error line is printed, and the
    run does not end in [sys.exit]. *)
Theorem missing_git_escapes_main E args w :
  git E ["rev-parse"; "--git-dir"] = Failed FileNotFoundError ->
  main E args w
  = (Raise (RuntimeError "git command not found. Please install git."),
     emits w [Git ["rev-parse"; "--git-dir"]]) ∧
  exit_code (main E args w).1 = None.
Proof.
  intros Hgit.
  assert (Hmain : main E args w
    = (Raise (RuntimeError "git command not found. Please install git."),
       emits w [Git ["rev-parse"; "--git-dir"]])).
  { unfold main, step1_to_3. rewrite !bind_run. unfold try_except at 1.
    rewrite bind_run, run_git_command_run, Hgit. reflexivity. }
  by rewrite Hmain.
Qed.

Lemma missing_git_escapes_main_witness :
  exit_code (main Cases.E_no_git Sample.args0 Sample.w0).1 = None.
Proof.
  refine (proj2 (missing_git_escapes_main Cases.E_no_git Sample.args0 Sample.w0 _)).
  reflexivity.
Defined.

Ltac all_events :=
  repeat (apply Forall_cons_2; [cbn; eauto 6|]); apply Forall_nil_2.

Lemma step1_to_3_events E args w res w1 :
  step1_to_3 E args w = (res, w1) ->
  existing w1 = existing w ∧
  ∃ evs, trace w1 = trace w ++ evs ∧ Forall validation_event evs.
Proof.
  unfold step1_to_3, run_git_command, subprocess_run_git. mstep.
  destruct (git E ["rev-parse"; "--git-dir"]) as [rc1 o1 e1|x1]; cycle 1.
  { destruct x1; intros [= <- <-]; (split; [done|]); eexists; cbn [trace];
      rewrite <- ?app_assoc; (split; [reflexivity|]); all_events. }
  destruct (rc1 =? 0); cbn [negb andb]; cycle 1.
  { intros [= <- <-]. split; [done|]. eexists. cbn [trace].
    rewrite <- !app_assoc. split; [reflexivity|]. all_events. }
  destruct (git E ["rev-parse"; "--show-toplevel"]) as [rc2 o2 e2|x2]; cycle 1.
  { destruct x2; intros [= <- <-]; (split; [done|]); eexists; cbn [trace];
      rewrite <- !app_assoc; (split; [reflexivity|]); all_events. }
  destruct (rc2 =? 0); cbn [negb andb]; cycle 1.
  { intros [= <- <-]. split; [done|]. eexists. cbn [trace].
    rewrite <- !app_assoc. split; [reflexivity|]. all_events. }
  destruct (given (arg_worktree_path args)), (given (arg_branch args));
    intros [= <- <-]; (split; [done|]); eexists; cbn [trace];
    rewrite <- !app_assoc; (split; [reflexivity|]); all_events.
Qed.

Lemma step3_1_validate_branch_events E r w res w1 :
  step3_1_validate_branch E r w = (res, w1) ->
  existing w1 = existing w ∧
  (∃ evs, trace w1 = trace w ++ evs ∧ Forall validation_event evs) ∧
  (res = Ret tt ->
   ∃ out err, git E ["check-ref-format"; "--branch"; branch r] = Completed 0 out err).
Proof.
  destruct (git E ["check-ref-format"; "--branch"; branch r])
    as [rc out err|e] eqn:Hgit.
  - rewrite (step3_1_validate_branch_run E r w rc out err Hgit).
    destruct (Z.eqb_spec rc 0) as [->|Hrc]; intros [= <- <-].
    + split; [done|]. split; [|eauto]. eexists. split; [reflexivity|]. all_events.
    + split; [done|]. split; [|done]. eexists. split; [reflexivity|]. all_events.
  - unfold step3_1_validate_branch, validate_branch_name.
    rewrite bind_run. unfold try_except at 1.
    rewrite bind_run, run_git_command_run, Hgit.
    destruct e; cbn [is_CalledProcessError]; mstep; cbn [negb];
      intros [= <- <-]; (split; [done|]);
      (split; [|done]); eexists; rewrite <- ?app_assoc;
      (split; [reflexivity|]); all_events.
Qed.

Lemma validating_run E args w res w1 :
  validating E args w = (res, w1) ->
  existing w1 = existing w ∧
  (∃ evs, trace w1 = trace w ++ evs ∧ Forall validation_event evs) ∧
  (∀ r, res = Ret r ->
     exists_now E w1 (worktree_path r) = false ∧
     ∃ out err, git E ["check-ref-format"; "--branch"; branch r] = Completed 0 out err).
Proof.
  unfold validating. rewrite bind_run.
  destruct (step1_to_3 E args w) as [[r|e] wa] eqn:H13;
    destruct (step1_to_3_events _ _ _ _ _ H13) as (Hexa & evsa & Htra & Hevsa);
    cycle 1.
  { intros [= <- <-]. split; [done|]. split; [eauto|done]. }
  rewrite bind_run.
  destruct (step3_1_validate_branch E r wa) as [[[]|e] wb] eqn:H31;
    destruct (step3_1_validate_branch_events _ _ _ _ _ H31)
      as (Hexb & (evsb & Htrb & Hevsb) & Hok);
    cycle 1.
  { intros [= <- <-]. split; [congruence|]. split; [|done].
    exists (evsa ++ evsb). rewrite Htrb, Htra, <- app_assoc.
    split; [done|]. by apply Forall_app. }
  rewrite bind_run, step4_check_path_run.
  destruct (exists_now E wb (worktree_path r)) eqn:Hex.
  - intros [= <- <-]. split; [cbn; congruence|]. split; [|done].
    eexists. cbn [trace emits]. rewrite Htrb, Htra, <- !app_assoc.
    split; [reflexivity|]. apply Forall_app; split; [done|].
    apply Forall_app; split; [done|]. all_events.
  - intros [= <- <-]. split; [congruence|]. split.
    + exists (evsa ++ evsb). rewrite Htrb, Htra, <- app_assoc.
      split; [done|]. by apply Forall_app.
    + intros ? [= <-]. split; [done|]. by apply Hok.
Qed.

(** X11.  Steps 1 to 4 of [main] only look: whatever git answers, they
    print and ask git about the repository and about the format of a
    branch name, and nothing else, and no path comes into existence; and
    when they are through, the destination path does not exist and git has
    accepted the branch name with exit status 0. *)
Theorem validation_only_looks E args w res w1 :
  validating E args w = (res, w1) ->
  existing w1 = existing w ∧
  (∃ evs, trace w1 = trace w ++ evs ∧ Forall validation_event evs) ∧
  (∀ r, res = Ret r ->
     exists_now E w (worktree_path r) = false ∧
     ∃ out err, git E ["check-ref-format"; "--branch"; branch r] = Completed 0 out err).
Proof.
  intros H. destruct (validating_run _ _ _ _ _ H) as (Hex & Hevs & Hok).
  split; [done|]. split; [done|]. intros r Hr.
  destruct (Hok r Hr) as [Hfree Hgit]. split; [|done].
  unfold exists_now in *. by rewrite <- Hex.
Qed.

Lemma validation_only_looks_witness :
  existing (validating Sample.E0 Sample.args0 Sample.w0).2 = existing Sample.w0 ∧
  exists_now Sample.E0 Sample.w0 (worktree_path Sample.run0) = false.
Proof.
  destruct (validation_only_looks Sample.E0 Sample.args0 Sample.w0
              (Ret Sample.run0) (validating Sample.E0 Sample.args0 Sample.w0).2)
    as (Hex & _ & Hok).
  - vm_compute. reflexivity.
  - split; [exact Hex|]. exact (proj1 (Hok Sample.run0 eq_refl)).
Defined.

Lemma run_git_command_trace E args check w res w' :
  run_git_command E args check w = (res, w') ->
  trace w' = trace w ++ [Git args] ∧
  (existing w' = existing w
   ∨ ∃ rc out err, git E args = Completed rc out err ∧
                   existing w' = git_effect E args rc (existing w)).
Proof.
  rewrite run_git_command_run.
  destruct (git E args) as [rc out err|e].
  - intros [= <- <-]. split; [done|]. right. by exists rc, out, err.
  - destruct e; intros [= <- <-]; split; auto.
Qed.

Lemma step5_branch_exists_run E r w rcl ol el rcr or er :
  git E ["show-ref"; "--verify"; "--quiet"; "refs/heads/" +:+ branch r]
  = Completed rcl ol el ->
  git E ["show-ref"; "--verify"; "--quiet"; "refs/remotes/origin/" +:+ branch r]
  = Completed rcr or er ->
  step5_branch_exists E r w
  = (Ret ((rcl =? 0) || (rcr =? 0)),
     emits w (Git ["show-ref"; "--verify"; "--quiet"; "refs/heads/" +:+ branch r]
              :: if rcl =? 0 then []
                 else [Git ["show-ref"; "--verify"; "--quiet";
                            "refs/remotes/origin/" +:+ branch r]])).
Proof.
  intros Hl Hr. unfold step5_branch_exists.
  unfold try_except at 1. rewrite bind_run, run_git_command_run, Hl.
  destruct (rcl =? 0); cbn [andb negb orb is_CalledProcessError]; [done|].
  unfold try_except at 1. rewrite bind_run, run_git_command_run, Hr.
  destruct (rcr =? 0); cbn [andb negb orb is_CalledProcessError];
    mstep; by rewrite <- app_assoc.
Qed.

Lemma step6_create_worktree_trace E r b w res w' :
  step6_create_worktree E r b w = (res, w') ->
  ∃ tail,
    trace w' = trace w
               ++ Out LInfo CreatingWorktree
               :: (if b then [] else [Out LWarn (CreatingNewBranch (branch r))])
               ++ Git (if b
                       then ["worktree"; "add"; str_of_path (worktree_path r); branch r]
                       else ["worktree"; "add"; "-b"; branch r;
                             str_of_path (worktree_path r)])
               :: tail ∧
    tail `prefix_of` [Out LSuccess WorktreeCreated].
Proof.
  unfold step6_create_worktree. rewrite !bind_run. unfold print_info at 1, emit.
  destruct b.
  - rewrite !bind_run.
    destruct (run_git_command E _ true (log _ w)) as [[v|e] w2] eqn:Hrun;
      destruct (run_git_command_trace _ _ _ _ _ _ Hrun) as [Htr _];
      cbv beta iota delta [mbind M_bind mret M_ret emit print_success];
      intros [= <- <-]; cbn [trace log] in *; rewrite ?Htr.
    + exists [Out LSuccess WorktreeCreated]. by rewrite <- !app_assoc.
    + exists []. rewrite <- !app_assoc. split; [done|]. apply prefix_nil.
  - rewrite !bind_run. unfold print_warn at 1, emit at 1. rewrite !bind_run.
    destruct (run_git_command E _ true (log _ (log _ w))) as [[v|e] w2] eqn:Hrun;
      destruct (run_git_command_trace _ _ _ _ _ _ Hrun) as [Htr _];
      cbv beta iota delta [mbind M_bind mret M_ret emit print_success];
      intros [= <- <-]; cbn [trace log] in *; rewrite ?Htr.
    + exists [Out LSuccess WorktreeCreated]. by rewrite <- !app_assoc.
    + exists []. rewrite <- !app_assoc. split; [done|]. apply prefix_nil.
Qed.

(** X12.  Steps 5 and 6.  When git answers both [show-ref] queries, the
    remote branch is looked up exactly when the local one is not found, and
    the worktree is added either on the existing branch, when one of the
    two is found, or with [-b] on a new branch, when neither is; never
    both. *)
Theorem new_branch_only_when_absent E r w res w' rcl ol el rcr or er :
  git E ["show-ref"; "--verify"; "--quiet"; "refs/heads/" +:+ branch r]
  = Completed rcl ol el ->
  git E ["show-ref"; "--verify"; "--quiet"; "refs/remotes/origin/" +:+ branch r]
  = Completed rcr or er ->
  creating E r w = (res, w') ->
  ∃ evs, trace w' = trace w ++ evs ∧
    (Git ["show-ref"; "--verify"; "--quiet"; "refs/remotes/origin/" +:+ branch r] ∈ evs
     ↔ rcl ≠ 0) ∧
    (Git ["worktree"; "add"; "-b"; branch r; str_of_path (worktree_path r)] ∈ evs
     ↔ rcl ≠ 0 ∧ rcr ≠ 0) ∧
    (Git ["worktree"; "add"; str_of_path (worktree_path r); branch r] ∈ evs
     ↔ rcl = 0 ∨ rcr = 0).
Proof.
  intros Hl Hr. unfold creating.
  rewrite bind_run, (step5_branch_exists_run E r w _ _ _ _ _ _ Hl Hr).
  intros H6. destruct (step6_create_worktree_trace _ _ _ _ _ _ H6) as (tail & Htr & Htail).
  cbn [trace emits] in Htr. rewrite <- app_assoc in Htr.
  eexists. split; [exact Htr|].
  assert (Ht : tail = [] ∨ tail = [Out LSuccess WorktreeCreated]).
  { destruct Htail as [k Hk]. destruct tail as [|x [|y t]]; [by left| |].
    - injection Hk as -> _. by right.
    - by destruct k. }
  clear Htr H6 Htail.
  destruct (Z.eqb_spec rcl 0) as [->|Hnl]; cbn [orb app].
  - destruct Ht as [-> | ->]; split_and!; cbn [String.append]; in_list.
  - destruct (Z.eqb_spec rcr 0) as [->|Hnr]; cbn [orb app];
      destruct Ht as [-> | ->]; split_and!; cbn [String.append]; in_list.
Qed.

Lemma new_branch_only_when_absent_witness :
  ∃ evs, trace (creating Sample.E0 Sample.run0 Sample.w0).2 = trace Sample.w0 ++ evs ∧
         Git ["worktree"; "add"; "-b"; "feature"; "/home/wt"] ∈ evs.
Proof.
  destruct (new_branch_only_when_absent Sample.E0 Sample.run0 Sample.w0
              (creating Sample.E0 Sample.run0 Sample.w0).1
              (creating Sample.E0 Sample.run0 Sample.w0).2 1 "" "" 1 "" "")
    as (evs & Htr & _ & Hnew & _).
  - reflexivity.
  - reflexivity.
  - vm_compute. reflexivity.
  - exists evs. split; [exact Htr|]. apply Hnew. split; lia.
Defined.

(** *** What the steps inside the [try] leave in the trace *)










Lemma exit_or_not (e : exn) : (∃ c, e = SystemExit c) ∨ (∀ c, e ≠ SystemExit c).
Proof. destruct e; eauto. Qed.

Lemma on_failure_prints E r e :
  (∀ c, e ≠ SystemExit c) ->
  ∃ l m, on_failure E r e
         = Some (emit (Out l m);; cleanup_on_failure E (worktree_path r);; sys_exit 1).
Proof.
  intros Hne. destruct e; try (by eexists _, _). by destruct (Hne code).
Qed.

Lemma handler_run E p ev w res w' :
  (emit ev;; cleanup_on_failure E p;; sys_exit 1) w = (res : result unit, w') ->
  res = Raise (SystemExit 1) ∧ cleanup_on_failure E p (log ev w) = (Ret tt, w').
Proof.
  rewrite bind_run. unfold emit at 1. cbv beta iota. rewrite bind_run.
  destruct (cleanup_on_failure_run E p (log ev w)) as (w2 & evs & Hrun & _).
  rewrite Hrun. by intros [= <- <-].
Qed.

Lemma main_after_validation E args w r w1 :
  validating E args w = (Ret r, w1) ->
  main E args w = try_except (guarded_steps E r) (on_failure E r) w1.
Proof. intros Hval. by rewrite main_validating, bind_run, Hval. Qed.


(** X14.  A run that returns has gone all the way: steps 1 to 4 passed
    with the destination path free, the worktree was created, the trace
    ends with the report, and the worktree is in place. *)
Theorem success_means_worktree_created E args w w' :
  main E args w = (Ret tt, w') ->
  ∃ r w1 w2 n total skipped pre,
    validating E args w = (Ret r, w1) ∧
    exists_now E w (worktree_path r) = false ∧
    creating E r w1 = (Ret tt, w2) ∧
    trace w' = pre ++ report_events r n total skipped ∧
    str_of_path (worktree_path r) ∈ existing w'.
Proof.
  intros Hmain.
  destruct (validating E args w) as [[r|e] w1] eqn:Hval; cycle 1.
  { by rewrite main_validating, bind_run, Hval in Hmain. }
  rewrite (main_after_validation _ _ _ _ _ Hval) in Hmain.
  unfold try_except in Hmain.
  destruct (guarded_steps E r w1) as [[[]|e] wg] eqn:Hg; cycle 1.
  { destruct (on_failure E r e) as [h|] eqn:Hh; [|done].
    destruct (exit_or_not e) as [[c ->]|Hne]; [done|].
    destruct (on_failure_prints E r e Hne) as (l & m & Hh').
    rewrite Hh' in Hh. injection Hh as <-.
    by destruct (handler_run _ _ _ _ _ _ Hmain) as [[=] _]. }
  injection Hmain as ->.
  rewrite guarded_steps_creating, bind_run in Hg.
  destruct (creating E r w1) as [[[]|e] w2] eqn:Hc; [|done].
  rewrite bind_run in Hg.
  destruct (sync_files E r w2) as [[[[n total] skipped]|e] w3] eqn:Hs; [|done].
  rewrite step10_report_run in Hg. injection Hg as <-.
  destruct (validating_run _ _ _ _ _ Hval) as (Hex & _ & Hok).
  destruct (Hok r eq_refl) as [Hfree _].
  exists r, w1, w2, n, total, skipped, (trace w3).
  split; [done|]. split; [by unfold exists_now in *; rewrite <- Hex|].
  split; [done|]. split; [done|].
  cbn [existing emits]. rewrite (sync_files_existing _ _ _ _ _ Hs).
  by eapply creating_makes_worktree.
Qed.



Lemma success_means_worktree_created_witness :
  ∃ r w1,
    validating Sample.E0 Sample.args0 Sample.w0 = (Ret r, w1) ∧
    str_of_path (worktree_path r)
    ∈ existing (main Sample.E0 Sample.args0 Sample.w0).2.
Proof.
  destruct (success_means_worktree_created Sample.E0 Sample.args0 Sample.w0
              (main Sample.E0 Sample.args0 Sample.w0).2)
    as (r & w1 & _ & _ & _ & _ & _ & Hval & _ & _ & _ & Hin).
  - vm_compute. reflexivity.
  - exists r, w1. split; [exact Hval|exact Hin].
Defined.


(** ** The blacklist *)

Lemma matches_lits cs s :
  Fnmatch.matches (Fnmatch.Lit <$> cs) s = true ↔ s = cs.
Proof.
  revert s. induction cs as [|c cs IH]; intros [|d s]; cbn [fmap list_fmap Fnmatch.matches];
    try done.
  rewrite andb_true_iff, IH. split.
  - intros [Hc ->]. apply Ascii.eqb_eq in Hc. by subst.
  - intros [= -> ->]. split; [apply Ascii.eqb_refl|done].
Qed.

Lemma matches_star ts s :
  Fnmatch.matches (Fnmatch.Star :: ts) s = true
  ↔ ∃ pre suf, s = pre ++ suf ∧ Fnmatch.matches ts suf = true.
Proof.
  induction s as [|d s IH].
  - cbn [Fnmatch.matches]. rewrite orb_false_r. split.
    + intros H. by exists [], [].
    + intros (pre & suf & Heq & H). symmetry in Heq.
      apply app_eq_nil in Heq as [-> ->]. done.
  - change (Fnmatch.matches (Fnmatch.Star :: ts) (d :: s))
      with (Fnmatch.matches ts (d :: s) || Fnmatch.matches (Fnmatch.Star :: ts) s).
    rewrite orb_true_iff, IH. split.
    + intros [H|(pre & suf & -> & H)].
      * by exists [], (d :: s).
      * by exists (d :: pre), suf.
    + intros (pre & suf & Heq & H). destruct pre as [|x pre].
      * left. cbn [app] in Heq. by subst.
      * right. injection Heq as -> ->. by exists pre, suf.
Qed.

Lemma chars_append s1 s2 :
  list_ascii_of_string (s1 +:+ s2)
  = list_ascii_of_string s1 ++ list_ascii_of_string s2.
Proof.
  induction s1 as [|c s1 IH]; [done|].
  change (c :: list_ascii_of_string (s1 +:+ s2)
          = c :: (list_ascii_of_string s1 ++ list_ascii_of_string s2)).
  by rewrite IH.
Qed.

Lemma string_of_chars_app a b :
  string_of_list_ascii (a ++ b) = string_of_list_ascii a +:+ string_of_list_ascii b.
Proof.
  induction a as [|c a IH]; [done|].
  change (String c (string_of_list_ascii (a ++ b))
          = String c (string_of_list_ascii a +:+ string_of_list_ascii b)).
  by rewrite IH.
Qed.

Lemma fnmatch_egg_info d :
  fnmatch d "*.egg-info" = true ↔ ∃ stem, d = stem +:+ ".egg-info".
Proof.
  unfold fnmatch.
  change (Fnmatch.translate _ _)
    with (Fnmatch.Star :: (Fnmatch.Lit <$> list_ascii_of_string ".egg-info")).
  rewrite matches_star. split.
  - intros (pre & suf & Heq & Hm). apply matches_lits in Hm. subst suf.
    exists (string_of_list_ascii pre).
    rewrite <- (string_of_list_ascii_of_string d), Heq.
    by rewrite string_of_chars_app.
  - intros [stem ->]. exists (list_ascii_of_string stem), (list_ascii_of_string ".egg-info").
    split; [apply chars_append|]. by apply matches_lits.
Qed.

(** X16.  [is_blacklisted] answers [True] for exactly two kinds of names:
    the entries of [BLACKLIST] taken literally, and the names that end in
    [.egg-info], the one entry with a wildcard. *)
Theorem is_blacklisted_iff d :
  is_blacklisted d = true ↔ d ∈ BLACKLIST ∨ ∃ stem, d = stem +:+ ".egg-info".
Proof.
  unfold is_blacklisted. case_bool_decide as Hin; [by split; auto|].
  rewrite <- fnmatch_egg_info. split.
  - intros (pat & Hpat & Hm)%existsb_exists. right.
    apply list_elem_of_In, elem_of_elements in Hpat.
    apply andb_true_iff in Hm as [Hstar Hm].
    unfold BLACKLIST in Hpat. rewrite elem_of_list_to_set in Hpat.
    rewrite !elem_of_cons, elem_of_nil in Hpat.
    repeat (destruct Hpat as [->|Hpat];
            [vm_compute in Hstar; first [discriminate Hstar | exact Hm]|]).
    destruct Hpat.
  - intros [?|Hm]; [done|]. apply existsb_exists. exists "*.egg-info". split.
    + assert (Hmem : "*.egg-info" ∈ BLACKLIST).
      { unfold BLACKLIST. rewrite elem_of_list_to_set, !elem_of_cons.
        do 19 right. by left. }
      apply elem_of_elements in Hmem. apply list_elem_of_In in Hmem. exact Hmem.
    + rewrite Hm. reflexivity.
Qed.

(** ** The ignore-file parser *)

Lemma drop_while_head f l c r :
  IgnoreSpec.drop_while f l = c :: r -> f c = false.
Proof.
  induction l as [|d l IH]; cbn [IgnoreSpec.drop_while]; [done|].
  destruct (f d) eqn:Hd; [done|]. by intros [= <- _].
Qed.

Lemma drop_while_suffix f l : ∃ k, l = k ++ IgnoreSpec.drop_while f l.
Proof.
  induction l as [|d l [k IH]]; cbn [IgnoreSpec.drop_while]; [by exists []|].
  destruct (f d); [|by exists []]. exists (d :: k). cbn [app]. by rewrite <- IH.
Qed.

Lemma rstripped_prefix f l :
  ∃ k, l = reverse (IgnoreSpec.drop_while f (reverse l)) ++ k.
Proof.
  destruct (drop_while_suffix f (reverse l)) as [k Hk]. exists (reverse k).
  rewrite <- reverse_app, <- Hk. by rewrite reverse_involutive.
Qed.

(** X17.  What the parser never keeps: a pattern it returns does not begin
    with white space, with [#] or with [!], and does not end with [/]. *)
Theorem parsed_patterns_wellformed lines p :
  p ∈ parse_gitignore lines ->
  (∀ c rest, p = String c rest ->
     Str.is_space c = false ∧ c ≠ "#"%char ∧ c ≠ "!"%char) ∧
  (∀ pre, p ≠ pre +:+ "/").
Proof.
  unfold parse_gitignore.
  rewrite (parse_gitignore_from [] lines), app_nil_l.
  intros (line & _ & Hline)%list_elem_of_omap.
  unfold IgnoreSpec.pattern_of_line in Hline.
  destruct (IgnoreSpec.skipped_line _) eqn:Hskip; [done|].
  destruct (_ || _); [done|]. injection Hline as <-.
  set (t := IgnoreSpec.trim (list_ascii_of_string line)) in *.
  split.
  - intros c rest Hp.
    apply (f_equal list_ascii_of_string) in Hp.
    rewrite list_ascii_of_string_of_list_ascii in Hp. cbn in Hp.
    unfold IgnoreSpec.strip_trailing_slashes in Hp.
    destruct (rstripped_prefix IgnoreSpec.is_slash t) as [k Hk].
    rewrite Hp in Hk. cbn [app] in Hk.
    split.
    + unfold t, IgnoreSpec.trim in Hk.
      destruct (rstripped_prefix Str.is_space
                  (IgnoreSpec.drop_while Str.is_space (list_ascii_of_string line)))
        as [k' Hk'].
      rewrite Hk in Hk'. cbn [app] in Hk'.
      by apply drop_while_head in Hk'.
    + rewrite Hk in Hskip. cbn [IgnoreSpec.skipped_line] in Hskip.
      apply orb_false_iff in Hskip as [H1 H2].
      apply Ascii.eqb_neq in H1, H2. done.
  - intros pre Hp.
    apply (f_equal list_ascii_of_string) in Hp.
    rewrite list_ascii_of_string_of_list_ascii, chars_append in Hp.
    unfold IgnoreSpec.strip_trailing_slashes in Hp.
    apply (f_equal reverse) in Hp.
    rewrite reverse_involutive, reverse_app in Hp.
    by apply drop_while_head in Hp.
Qed.

Lemma parsed_patterns_wellformed_witness :
  "node_modules" ∈ parse_gitignore Sample.gitignore ∧
  ∀ pre, "node_modules" ≠ pre +:+ "/".
Proof.
  assert (H : "node_modules" ∈ parse_gitignore Sample.gitignore).
  { vm_compute. repeat first [apply list_elem_of_here | apply list_elem_of_further]. }
  split; [exact H|].
  exact (proj2 (parsed_patterns_wellformed Sample.gitignore "node_modules" H)).
Defined.

(** ** [format_size] *)

(** X18.  [format_size] prints a whole number followed by [B], [KB] or
    [MB]; the number is the size in that unit rounded down, so it never
    overstates the size and understates it by less than one unit; and it
    is below 1024 unless the unit is [MB]. *)
Theorem format_size_rounds_down size :
  ∃ v unit scale,
    format_size size = pretty v +:+ unit ∧
    (unit, scale) ∈ [(" B", 1); (" KB", 1024); (" MB", 1024 * 1024)] ∧
    v * scale <= size < (v + 1) * scale ∧
    (v < 1024 ∨ unit = " MB").
Proof.
  unfold format_size.
  destruct (Z.ltb_spec size 1024) as [H1|H1].
  { exists size, " B", 1. split; [done|]. split; [by left|]. lia. }
  destruct (Z.ltb_spec size (1024 * 1024)) as [H2|H2].
  - exists (size / 1024), " KB", 1024. split; [done|].
    split; [by right; left|].
    pose proof (Z.div_mod size 1024 ltac:(lia)).
    pose proof (Z.mod_pos_bound size 1024 ltac:(lia)).
    split; [lia|]. left. apply Z.div_lt_upper_bound; lia.
  - exists (size / (1024 * 1024)), " MB", (1024 * 1024). split; [done|].
    split; [by right; right; left|].
    pose proof (Z.div_mod size (1024 * 1024) ltac:(lia)).
    pose proof (Z.mod_pos_bound size (1024 * 1024) ltac:(lia)).
    split; [lia|]. by right.
Qed.

(** ** Steps 1 to 3 *)

Lemma get_random_car_in E : get_random_car E ∈ CAR_BRANDS.
Proof.
  unfold get_random_car. apply list_elem_of_In, nth_In.
  apply Nat.mod_upper_bound. cbn. lia.
Qed.

(** X19.  The run that steps 1 to 3 set up: the source directory is what
    [git rev-parse --show-toplevel] printed, resolved; a worktree path or a
    branch name given on the command line and not empty is taken as it is;
    otherwise the path is [worktrees/<repo>-<timestamp>] beside the source
    directory, and the branch is [ai-worktree/<car>-<timestamp>] with a car
    of [CAR_BRANDS]. *)
Theorem defaults_are_generated E args w r w1 :
  step1_to_3 E args w = (Ret r, w1) ->
  (∃ out err,
     git E ["rev-parse"; "--show-toplevel"] = Completed 0 out err ∧
     source_dir r = resolve (cwd E)
                      (if Str.is_empty out then Str.strip err else Str.strip out)) ∧
  worktree_path r
  = match given (arg_worktree_path args) with
    | Some p => resolve (cwd E) p
    | None => parent (source_dir r)
              ++ ["worktrees"; name (source_dir r) +:+ "-" +:+ pretty (now E)]
    end ∧
  match given (arg_branch args) with
  | Some b => branch r = b
  | None => ∃ car, car ∈ CAR_BRANDS ∧
                   branch r = "ai-worktree/" +:+ car +:+ "-" +:+ pretty (now E)
  end.
Proof.
  unfold step1_to_3. rewrite bind_run. unfold try_except at 1.
  rewrite bind_run, run_git_command_run.
  destruct (git E ["rev-parse"; "--git-dir"]) as [rc1 o1 e1|x1]; cycle 1.
  { destruct x1; cbn [is_CalledProcessError]; mstep; done. }
  destruct (rc1 =? 0); cbn [andb negb is_CalledProcessError]; [|mstep; done].
  cbv beta iota delta [mret M_ret]. rewrite bind_run, run_git_command_run.
  destruct (git E ["rev-parse"; "--show-toplevel"]) as [rc2 o2 e2|x2]; cycle 1.
  { by destruct x2. }
  destruct (Z.eqb_spec rc2 0) as [->|Hrc2]; cbn [andb negb]; [|done].
  destruct (given (arg_worktree_path args)), (given (arg_branch args));
    mstep; intros [= <- <-]; cbn [source_dir worktree_path branch];
    (split; [by eexists _, _|]); rewrite <- ?app_assoc;
    (split; [done|]); first [done | eexists; split; [apply get_random_car_in|done]].
Qed.

Lemma defaults_are_generated_witness :
  worktree_path Sample.run0 = ["home"; "wt"] ∧ branch Sample.run0 = "feature".
Proof.
  destruct (defaults_are_generated Sample.E0 Sample.args0 Sample.w0 Sample.run0
              (step1_to_3 Sample.E0 Sample.args0 Sample.w0).2)
    as (_ & Hpath & Hbranch).
  - vm_compute. reflexivity.
  - split; [exact Hpath|exact Hbranch].
Defined.

(** ** The file sync *)

Lemma copy_events_copy2_made E r f src dst :
  Copy2 src dst ∈ copy_events E r f ->
  src = f ∧ dst = dest_path r f ∧ mkdir E (parent (dest_path r f)) = None.
Proof.
  unfold copy_events. cbv zeta.
  destruct (mkdir E (parent (dest_path r f))) as [e|].
  { destruct (is_Exception e); in_list. }
  destruct (copy2 E f (dest_path r f)) as [e|]; [destruct (is_Exception e)|];
    in_list; by simplify_eq.
Qed.

Lemma copy_events_mkdir E r f : Mkdir (parent (dest_path r f)) ∈ copy_events E r f.
Proof. unfold copy_events. cbv zeta. apply elem_of_cons. by left. Qed.

(** X20.  The file sync writes only below the worktree.  Every file handed
    to [copy2] is one of the candidates of steps 7 and 8, and it goes to
    the worktree path followed by its path relative to the source
    directory, after the directory it goes into has been made; and the sync
    runs no git command and deletes nothing. *)
Theorem copies_mirror_relative_paths E r w res w' :
  sync_files E r w = (res, w') ->
  ∃ evs, trace w' = trace w ++ evs ∧
    (∀ src dst, Copy2 src dst ∈ evs ->
       dst = worktree_path r ++ relative_to (source_dir r) src ∧
       Mkdir (parent dst) ∈ evs ∧
       mkdir E (parent dst) = None ∧
       ∃ files skipped total w1,
         step7_8_find_files E r w = (Ret (files, skipped, total), w1) ∧ src ∈ files) ∧
    (∀ args, Git args ∉ evs) ∧
    (∀ p, Rmtree p ∉ evs).
Proof.
  intros Hs.
  destruct (sync_files_trace _ _ _ _ _ Hs) as (evs78 & evs9 & Htr & H78 & _ & H9).
  exists (evs78 ++ evs9). split; [done|].
  rewrite Forall_forall in H78.
  assert (Hlook : ∀ ev, ev ∈ evs78 ->
            (∃ l m, ev = Out l m) ∨ ∃ top, ev = Scandir top).
  { intros ev Hev. destruct (H78 ev Hev) as [| |? []]; eauto. }
  assert (Hcopy : ∀ ev, ev ∈ evs9 ->
            ev = Out LInfo CopyingFiles
            ∨ ∃ files skipped total w1 f,
                step7_8_find_files E r w = (Ret (files, skipped, total), w1) ∧
                f ∈ files ∧ ev ∈ copy_events E r f).
  { intros ev Hev.
    destruct H9 as [[-> _]|(files & sk & tot & wa & hdr & handled & H78r & -> & Hhdr
                            & Hpre & _)].
    { by apply elem_of_nil in Hev. }
    apply elem_of_app in Hev as [Hev|Hev].
    - left. rewrite Forall_forall in Hhdr. by apply Hhdr.
    - right. apply elem_of_concat in Hev as (evs & Hin & Hevs).
      apply list_elem_of_fmap in Hevs as (f & -> & Hf).
      exists files, sk, tot, wa, f. split; [done|]. split; [|done].
      destruct Hpre as [k ->]. apply elem_of_app. by left. }
  split; [|split].
  - intros src dst [Hin|Hin]%elem_of_app.
    { by destruct (Hlook _ Hin) as [(? & ? & ?)|(? & ?)]. }
    destruct (Hcopy _ Hin) as [?|(files & sk & tot & wa & f & H78r & Hf & Hev)]; [done|].
    destruct (copy_events_copy2_made _ _ _ _ _ Hev) as (-> & -> & Hmk).
    split; [done|]. split; [|split; [done|by exists files, sk, tot, wa]].
    apply elem_of_app. right.
    destruct H9 as [[-> _]|(files' & sk' & tot' & wa' & hdr & handled & H78r' & -> & Hhdr
                            & Hpre & _)].
    { by apply elem_of_nil in Hin. }
    apply elem_of_app in Hin as [Hin|Hin].
    { rewrite Forall_forall in Hhdr. by specialize (Hhdr _ Hin). }
    apply elem_of_concat in Hin as (evs & Hin & Hevs).
    apply list_elem_of_fmap in Hevs as (f' & -> & Hf').
    destruct (copy_events_copy2_made _ _ _ _ _ Hin) as (<- & _ & _).
    apply elem_of_app. right. apply elem_of_concat.
    exists (copy_events E r f). split; [apply copy_events_mkdir|].
    apply list_elem_of_fmap. by exists f.
  - intros args [Hin|Hin]%elem_of_app.
    { by destruct (Hlook _ Hin) as [(? & ? & ?)|(? & ?)]. }
    destruct (Hcopy _ Hin) as [?|(files & sk & tot & wa & f & _ & _ & Hev)]; [done|].
    revert Hev. unfold copy_events. cbv zeta.
    destruct (mkdir E _) as [e|]; [destruct (is_Exception e); in_list|].
    destruct (copy2 E _ _) as [e|]; [destruct (is_Exception e)|]; in_list.
  - intros p [Hin|Hin]%elem_of_app.
    { by destruct (Hlook _ Hin) as [(? & ? & ?)|(? & ?)]. }
    destruct (Hcopy _ Hin) as [?|(files & sk & tot & wa & f & _ & _ & Hev)]; [done|].
    revert Hev. unfold copy_events. cbv zeta.
    destruct (mkdir E _) as [e|]; [destruct (is_Exception e); in_list|].
    destruct (copy2 E _ _) as [e|]; [destruct (is_Exception e)|]; in_list.
Qed.

Lemma copies_mirror_relative_paths_witness :
  ∃ evs, trace (sync_files Sample.E0 Sample.run0 Sample.w0).2 = trace Sample.w0 ++ evs ∧
         ∀ p, Rmtree p ∉ evs.
Proof.
  destruct (copies_mirror_relative_paths Sample.E0 Sample.run0 Sample.w0
              (sync_files Sample.E0 Sample.run0 Sample.w0).1
              (sync_files Sample.E0 Sample.run0 Sample.w0).2)
    as (evs & Htr & _ & _ & Hrm).
  - vm_compute. reflexivity.
  - exists evs. split; [exact Htr|exact Hrm].
Defined.

(** * Existence tests that fail *)

Lemma probe_find_git_ignored_files_run P E sd gp w :
  Probe.find_git_ignored_files P E sd gp w =
  match Probe.exists_error P (length (trace w)) gp with
  | Some e => (Raise e, w)
  | None => find_git_ignored_files E sd gp w
  end.
Proof.
  unfold Probe.find_git_ignored_files, find_git_ignored_files.
  rewrite !bind_run. unfold Probe.path_exists, path_exists.
  by destruct (Probe.exists_error P _ gp).
Qed.

(** ** The scanner *)

(** X5.  The scanner raises in three cases only: the existence test on the
    ignore file raised, and then nothing else was done; reading the ignore
    file raised something that is not an [Exception]; or a [stat] raised
    something that is not an [OSError]. *)
Theorem scan_raises_only P E sd gp w e w' :
  Probe.find_git_ignored_files P E sd gp w = (Raise e, w') ->
  (Probe.exists_error P (length (trace w)) gp = Some e ∧ w' = w)
  ∨ (read_lines E gp = Raise e ∧ is_Exception e = false)
  ∨ (∃ p, stat E p = Raise e ∧ is_OSError e = false).
Proof.
  rewrite probe_find_git_ignored_files_run.
  destruct (Probe.exists_error P _ gp) as [e'|].
  { intros [= <- <-]. by left. }
  intros Hrun. right.
  pose proof (find_git_ignored_files_spec E sd gp w) as Hspec.
  unfold post in Hspec. rewrite Hrun in Hspec. by destruct Hspec as [_ ?].
Qed.

Lemma scan_raises_only_witness :
  Probe.find_git_ignored_files (Probe.denied Sample.gp) Sample.E0 Sample.sd Sample.gp
    Sample.w0
  = (Raise OSError, Sample.w0) ∧
  ((Probe.exists_error (Probe.denied Sample.gp) (length (trace Sample.w0)) Sample.gp
    = Some OSError ∧ Sample.w0 = Sample.w0)
   ∨ (read_lines Sample.E0 Sample.gp = Raise OSError ∧ is_Exception OSError = false)
   ∨ (∃ p, stat Sample.E0 p = Raise OSError ∧ is_OSError OSError = false)).
Proof.
  assert (H : Probe.find_git_ignored_files (Probe.denied Sample.gp) Sample.E0
                Sample.sd Sample.gp Sample.w0
              = (Raise OSError, Sample.w0)) by (vm_compute; reflexivity).
  split; [exact H|].
  exact (scan_raises_only _ _ _ _ _ _ _ H).
Defined.

(** ** The cleanup *)

Lemma probe_cleanup_on_failure_run P E p w :
  Probe.cleanup_on_failure P E p w =
  match Probe.exists_error P (length (trace w)) p with
  | Some e => (Raise e, w)
  | None =>
      if exists_now E w p then
        let w1 := emits w [Out LWarn (CleaningUp p); Git (removal_args p)] in
        let w2 := match git E (removal_args p) with
                  | Completed rc _ _ =>
                      set_existing (git_effect E (removal_args p) rc) w1
                  | Failed _ => w1
                  end in
        match Probe.exists_error P (length (trace w) + 2) p with
        | Some e => (Raise e, w2)
        | None =>
            if exists_now E w2 p then
              (Ret tt, match rmtree E p with
                       | Some _ => emits w2 [Rmtree p]
                       | None => set_existing (fun ex => ex ∖ {[str_of_path p]})
                                              (emits w2 [Rmtree p])
                       end)
            else (Ret tt, w2)
        end
      else (Ret tt, w)
  end.
Proof.
  unfold Probe.cleanup_on_failure. rewrite bind_run. unfold Probe.path_exists at 1.
  destruct (Probe.exists_error P (length (trace w)) p) as [e|]; [done|].
  destruct (exists_now E w p); [|done].
  rewrite !bind_run. unfold print_warn, emit. rewrite !bind_run.
  fold (removal_args p). unfold try_except at 1. rewrite bind_run.
  unfold subprocess_run_git.
  change (log (Git (removal_args p)) (log (Out LWarn (CleaningUp p)) w))
    with (emits (emits w [Out LWarn (CleaningUp p)]) [Git (removal_args p)]).
  rewrite emits_emits. cbn [app]. cbv zeta.
  assert (Hlen : ∀ f, length (trace (set_existing f
                   (emits w [Out LWarn (CleaningUp p); Git (removal_args p)])))
                 = (length (trace w) + 2)%nat).
  { intros f. cbn [trace set_existing emits]. by rewrite length_app. }
  assert (Hlen' : length (trace (emits w [Out LWarn (CleaningUp p);
                                           Git (removal_args p)]))
                  = (length (trace w) + 2)%nat).
  { cbn [trace emits]. by rewrite length_app. }
  destruct (git E (removal_args p)) as [rc out err|e];
    cbv beta iota delta [mret M_ret]; rewrite bind_run; unfold Probe.path_exists;
    rewrite ?Hlen, ?Hlen';
    destruct (Probe.exists_error P (length (trace w) + 2) p); try done.
  - destruct (exists_now E _ p); [|done].
    unfold do_rmtree. destruct (rmtree E p); mdone.
  - destruct (exists_now E _ p); [|done].
    unfold do_rmtree. destruct (rmtree E p); mdone.
Qed.

(** C8.  [cleanup_on_failure] raises.  The destination [/home/wt] exists,
    and a directory above it cannot be searched: the existence test of line
    371 raises the [OSError], which leaves the function before anything is
    done.  When the directory becomes unsearchable only after the first
    test, the function prints its warning, asks git for the removal, and
    the second test, of line 384, raises.  Neither test sits in a [try]. *)
Theorem cleanup_raises_when_exists_raises :
  exists_now Sample.E0 Sample.w_taken ["home"; "wt"] = true ∧
  Probe.cleanup_on_failure (Probe.denied ["home"; "wt"]) Sample.E0 ["home"; "wt"]
    Sample.w_taken
  = (Raise OSError, Sample.w_taken) ∧
  Probe.cleanup_on_failure (Probe.denied_from 1 ["home"; "wt"]) Sample.E0
    ["home"; "wt"] Sample.w_taken
  = (Raise OSError,
     {| existing := ∅;
        trace := [Out LWarn (CleaningUp ["home"; "wt"]);
                  Git ["worktree"; "remove"; "--force"; "/home/wt"]] |}).
Proof.
  split; [vm_compute; reflexivity|].
  split; [vm_compute; reflexivity|].
  vm_compute. reflexivity.
Qed.

(** X8.  [cleanup_on_failure] on a path that was not there when the run
    started, which is the only kind [main] hands to it.  It does nothing
    unless its first existence test answers [True]; then it prints the
    warning and asks git for the forced removal, and calls [shutil.rmtree]
    exactly when the second test answers and the path still exists, that
    is, when git did not complete the removal with exit status 0.  Nothing
    else is done and nothing is created; what it raises is what one of the
    two tests raised, the failures of the removal command and of the
    deletion being swallowed; and when it returns after a removal or a
    deletion that succeeded, the path is gone. *)
Theorem cleanup_on_failure_contract P E p w res w' :
  tree_lookup (tree E) p = None ->
  Probe.cleanup_on_failure P E p w = (res, w') ->
  existing w' ⊆ existing w ∧
  (¬ (Probe.exists_error P (length (trace w)) p = None ∧ exists_now E w p = true) ->
   w' = w) ∧
  (∀ e, res = Raise e ↔
        Probe.exists_error P (length (trace w)) p = Some e
        ∨ (Probe.exists_error P (length (trace w)) p = None ∧
           exists_now E w p = true ∧
           Probe.exists_error P (length (trace w) + 2) p = Some e)) ∧
  (res = Ret tt ->
   (∃ out err, git E (removal_args p) = Completed 0 out err) ∨ rmtree E p = None ->
   str_of_path p ∉ existing w') ∧
  ∃ evs, trace w' = trace w ++ evs ∧
    evs `prefix_of` [Out LWarn (CleaningUp p); Git (removal_args p); Rmtree p] ∧
    (Git (removal_args p) ∈ evs ↔
       Probe.exists_error P (length (trace w)) p = None ∧ exists_now E w p = true) ∧
    (Rmtree p ∈ evs ↔
       Probe.exists_error P (length (trace w)) p = None ∧ exists_now E w p = true ∧
       Probe.exists_error P (length (trace w) + 2) p = None ∧
       ∀ out err, git E (removal_args p) ≠ Completed 0 out err).
Proof.
  intros Htree. rewrite probe_cleanup_on_failure_run.
  assert (Hnow : ∀ w0, exists_now E w0 p = bool_decide (str_of_path p ∈ existing w0)).
  { intros w0. unfold exists_now. rewrite Htree.
    rewrite (bool_decide_eq_false_2 (is_Some None)); [done|]. by intros [? ?]. }
  destruct (Probe.exists_error P (length (trace w)) p) as [e1|] eqn:H1.
  { intros [= <- <-]. split; [done|]. split; [done|]. split.
    { intros e. split; [intros [= ->]; by left|]. intros [[= ->]|[? _]]; done. }
    split; [done|]. exists []. rewrite app_nil_r. split; [done|].
    split; [apply prefix_nil|]. split; in_list. }
  destruct (exists_now E w p) eqn:Hex.
  2:{ intros [= <- <-]. split; [done|]. split; [done|]. split.
      { intros e. split; [done|]. intros [?|(_ & ? & _)]; done. }
      split.
      { intros _ _. rewrite Hnow in Hex. by apply bool_decide_eq_false in Hex. }
      exists []. rewrite app_nil_r. split; [done|].
      split; [apply prefix_nil|]. split; in_list. }
  cbv zeta.
  set (w1 := emits w [Out LWarn (CleaningUp p); Git (removal_args p)]).
  assert (Hsplit :
    (∃ out err, git E (removal_args p) = Completed 0 out err) ∨
    (∀ out err, git E (removal_args p) ≠ Completed 0 out err)).
  { destruct (git E (removal_args p)) as [rc out err|e]; [|by right].
    destruct (decide (rc = 0)) as [->|]; [left; eauto|right; congruence]. }
  set (w2 := match git E (removal_args p) with
             | Completed rc _ _ => set_existing (git_effect E (removal_args p) rc) w1
             | Failed _ => w1
             end).
  assert (Htr2 : trace w2 = trace w ++ [Out LWarn (CleaningUp p); Git (removal_args p)]).
  { unfold w2. by destruct (git E (removal_args p)). }
  assert (Hsub2 : existing w2 ⊆ existing w).
  { unfold w2. destruct (git E (removal_args p)) as [rc ? ?|]; [|done].
    cbn [existing set_existing w1 emits]. rewrite git_effect_removal.
    destruct (rc =? 0); set_solver. }
  assert (Hex2 : exists_now E w2 p = true ↔
                 ∀ out err, git E (removal_args p) ≠ Completed 0 out err).
  { rewrite Hnow in Hex |- *. apply bool_decide_eq_true in Hex.
    rewrite bool_decide_eq_true. unfold w2.
    destruct (git E (removal_args p)) as [rc out err|e].
    - cbn [existing set_existing w1 emits]. rewrite git_effect_removal.
      destruct (Z.eqb_spec rc 0) as [->|Hrc].
      + split; [set_solver|]. intros Hno. by destruct (Hno out err).
      + split; [|done]. intros _ ?? [= ? _ _]. done.
    - split; [|done]. by intros _ ??. }
  destruct (Probe.exists_error P (length (trace w) + 2) p) as [e2|] eqn:H2.
  { intros [= <- <-]. split; [done|]. split; [by intros []|]. split.
    { intros e. split; [intros [= ->]; by right|]. intros [?|(_ & _ & [= ->])]; done. }
    split; [done|]. eexists. split; [exact Htr2|].
    split; [by exists [Rmtree p]|]. split; in_list. }
  destruct (exists_now E w2 p) eqn:Hstill.
  - intros [= <- <-].
    assert (Hno : ∀ out err, git E (removal_args p) ≠ Completed 0 out err)
      by by apply Hex2.
    split.
    { destruct (rmtree E p); cbn [existing set_existing emits]; set_solver. }
    split; [by intros []|]. split.
    { intros e. split; [done|]. intros [?|(_ & _ & ?)]; done. }
    split.
    { intros _ [(out & err & Hgit)|Hrm]; [by destruct (Hno out err)|].
      rewrite Hrm. cbn [existing set_existing emits]. set_solver. }
    exists [Out LWarn (CleaningUp p); Git (removal_args p); Rmtree p]. split.
    { destruct (rmtree E p); cbn [trace set_existing emits]; rewrite Htr2;
        by rewrite <- app_assoc. }
    split; [done|]. split; in_list.
  - intros [= <- <-].
    split; [done|]. split; [by intros []|]. split.
    { intros e. split; [done|]. intros [?|(_ & _ & ?)]; done. }
    split.
    { intros _ _. rewrite Hnow in Hstill. by apply bool_decide_eq_false in Hstill. }
    eexists. split; [exact Htr2|]. split; [by exists [Rmtree p]|].
    split; [in_list|]. split; [in_list|].
    intros (_ & _ & _ & Hno). apply Hex2 in Hno. congruence.
Qed.

Lemma cleanup_on_failure_contract_witness :
  tree_lookup (tree Sample.E0) ["home"; "wt"] = None ∧
  str_of_path ["home"; "wt"]
  ∉ existing (Probe.cleanup_on_failure Probe.answering Sample.E0 ["home"; "wt"]
                Sample.w_taken).2.
Proof.
  split; [reflexivity|].
  destruct (cleanup_on_failure_contract Probe.answering Sample.E0 ["home"; "wt"]
              Sample.w_taken (Ret tt)
              (Probe.cleanup_on_failure Probe.answering Sample.E0 ["home"; "wt"]
                 Sample.w_taken).2)
    as (_ & _ & _ & Hgone & _).
  - reflexivity.
  - vm_compute. reflexivity.
  - apply Hgone; [reflexivity|]. right. reflexivity.
Defined.

(** ** The explicit list *)

Lemma probe_check_config_run P E sd cf seen config w :
  Probe.check_config P E sd (cf, seen) config w =
  let p := sd ++ parts config in
  match Probe.exists_error P (length (trace w)) p with
  | Some e => (Raise e, w)
  | None =>
      if exists_now E w p then
        match Probe.is_file_error P (length (trace w)) p with
        | Some e => (Raise e, w)
        | None =>
            match tree_lookup (tree E) p with
            | Some File =>
                if bool_decide (p ∈ seen) then (Ret (cf, seen), w)
                else (Ret (cf ++ [p], {[p]} ∪ seen), w)
            | _ => (Ret (cf, seen), w)
            end
        end
      else (Ret (cf, seen), w)
  end.
Proof.
  unfold Probe.check_config. cbv zeta. rewrite bind_run.
  unfold Probe.path_exists at 1.
  destruct (Probe.exists_error P _ _); [done|].
  destruct (exists_now E w _); rewrite bind_run; [|done].
  unfold Probe.path_is_file.
  destruct (Probe.is_file_error P _ _); [done|].
  destruct (tree_lookup (tree E) _) as [[|es]|]; try done.
  by case_bool_decide.
Qed.

Lemma file_exists_now E w p :
  tree_lookup (tree E) p = Some File -> exists_now E w p = true.
Proof.
  intros H. unfold exists_now. rewrite H.
  rewrite bool_decide_eq_true_2; [done|by eexists].
Qed.

Lemma probe_config_loop P E sd configs :
  ∀ cf seen w res w',
    for_each (Probe.check_config P E sd) configs (cf, seen) w = (res, w') ->
    w' = w ∧
    match res with
    | Ret (cf', seen') =>
        ∃ new, cf' = cf ++ new ∧ seen' = seen ∪ list_to_set new ∧ NoDup new ∧
          ∀ p, p ∈ new ↔
               (p ∉ seen) ∧ ∃ config, config ∈ configs ∧ p = sd ++ parts config ∧
                                    tree_lookup (tree E) p = Some File
    | Raise e =>
        ∃ config, config ∈ configs ∧
          (Probe.exists_error P (length (trace w)) (sd ++ parts config) = Some e
           ∨ Probe.is_file_error P (length (trace w)) (sd ++ parts config) = Some e)
    end.
Proof.
  induction configs as [|config configs IH]; intros cf seen w res w'.
  { intros [= <- <-]. split; [done|]. exists []. rewrite app_nil_r.
    split; [done|]. split; [set_solver|]. split; [constructor|].
    intros p. split; [by intros ?%elem_of_nil|].
    by intros (_ & ? & ?%elem_of_nil & _). }
  cbn [for_each]. rewrite bind_run, probe_check_config_run. cbv zeta.
  set (q := sd ++ parts config).
  assert (Hkeep : for_each (Probe.check_config P E sd) configs (cf, seen) w = (res, w') ->
                  (tree_lookup (tree E) q = Some File -> q ∈ seen) ->
                  w' = w ∧
                  match res with
                  | Ret (cf', seen') =>
                      ∃ new, cf' = cf ++ new ∧ seen' = seen ∪ list_to_set new ∧
                        NoDup new ∧
                        ∀ p, p ∈ new ↔
                             (p ∉ seen) ∧
                             ∃ c, c ∈ config :: configs ∧ p = sd ++ parts c ∧
                                  tree_lookup (tree E) p = Some File
                  | Raise e =>
                      ∃ c, c ∈ config :: configs ∧
                        (Probe.exists_error P (length (trace w)) (sd ++ parts c) = Some e
                         ∨ Probe.is_file_error P (length (trace w)) (sd ++ parts c)
                           = Some e)
                  end).
  { intros Hrun Hq. destruct (IH _ _ _ _ _ Hrun) as [-> Hres]. split; [done|].
    destruct res as [[cf' seen']|e].
    - destruct Hres as (new & -> & -> & Hnd & Hnew). exists new.
      split; [done|]. split; [done|]. split; [done|].
      intros p. rewrite Hnew. split.
      + intros (Hp & c & Hc & -> & Hf). split; [done|]. exists c.
        split; [by right|done].
      + intros (Hp & c & [->|Hc]%elem_of_cons & -> & Hf).
        * destruct Hp. by apply Hq.
        * split; [done|]. by exists c.
    - destruct Hres as (c & Hc & He). exists c. split; [by right|done]. }
  destruct (Probe.exists_error P (length (trace w)) q) as [e|] eqn:He.
  { intros [= <- <-]. split; [done|]. exists config. split; [by left|by left]. }
  destruct (exists_now E w q) eqn:Hex; cycle 1.
  { intros Hrun. apply Hkeep; [done|]. intros Hf.
    by rewrite (file_exists_now _ _ _ Hf) in Hex. }
  destruct (Probe.is_file_error P (length (trace w)) q) as [e|] eqn:Hf.
  { intros [= <- <-]. split; [done|]. exists config. split; [by left|by right]. }
  destruct (tree_lookup (tree E) q) as [[|es]|] eqn:Hq;
    [|intros Hrun; by apply Hkeep..].
  case_bool_decide as Hseen; [intros Hrun; by apply Hkeep|].
  intros Hrun. destruct (IH _ _ _ _ _ Hrun) as [-> Hres]. split; [done|].
  destruct res as [[cf' seen']|e].
  - destruct Hres as (new & -> & -> & Hnd & Hnew). exists (q :: new).
    split; [by rewrite <- app_assoc|]. split; [set_solver|]. split.
    { constructor; [|done]. rewrite Hnew. set_solver. }
    intros p. rewrite elem_of_cons, Hnew. split.
    + intros [->|(Hp & c & Hc & -> & Hfile)].
      * split; [done|]. exists config. split; [by left|done].
      * split; [set_solver|]. exists c. split; [by right|done].
    + intros (Hp & c & [->|Hc]%elem_of_cons & -> & Hfile); [by left|].
      destruct (decide (sd ++ parts c = q)) as [|Hne]; [by left|].
      right. split; [set_solver|]. by exists c.
  - destruct Hres as (c & Hc & Herr). exists c. split; [by right|done].
Qed.

(** X6.  [find_common_config_files] changes nothing on disk and prints
    nothing.  When it returns, the list has no duplicates and holds exactly
    the paths of the explicit list that are regular files and were not in
    [seen_files], and the set handed back is [seen_files] with the returned
    paths added.  It raises only what an existence or file test on a path
    of the explicit list raised, so it returns whenever these tests
    answer. *)
Theorem find_common_config_files_contract P E sd seen w res w' :
  Probe.find_common_config_files P E sd seen w = (res, w') ->
  w' = w ∧
  match res with
  | Ret (config_files, seen') =>
      seen' = seen ∪ list_to_set config_files ∧
      NoDup config_files ∧
      ∀ p, p ∈ config_files ↔
           (p ∉ seen) ∧ ∃ config, config ∈ COMMON_CONFIGS ∧ p = sd ++ parts config ∧
                                tree_lookup (tree E) p = Some File
  | Raise e =>
      ∃ config, config ∈ COMMON_CONFIGS ∧
        (Probe.exists_error P (length (trace w)) (sd ++ parts config) = Some e
         ∨ Probe.is_file_error P (length (trace w)) (sd ++ parts config) = Some e)
  end.
Proof.
  intros Hrun. unfold Probe.find_common_config_files in Hrun.
  destruct (probe_config_loop _ _ _ _ _ _ _ _ _ Hrun) as [-> Hres].
  split; [done|]. destruct res as [[cf seen']|e]; [|done].
  destruct Hres as (new & -> & -> & Hnd & Hnew). by rewrite app_nil_l.
Qed.

Lemma find_common_config_files_contract_witness :
  (Probe.find_common_config_files Probe.answering Sample.E0 Sample.sd ∅ Sample.w0).1
  = Ret ([Sample.sd ++ [".env"]; Sample.sd ++ ["config"; "local.yaml"]],
         {[Sample.sd ++ [".env"]; Sample.sd ++ ["config"; "local.yaml"]]}) ∧
  (Probe.find_common_config_files Probe.answering Sample.E0 Sample.sd ∅ Sample.w0).2
  = Sample.w0.
Proof.
  split; [vm_compute; reflexivity|].
  refine (proj1 (find_common_config_files_contract Probe.answering Sample.E0 Sample.sd ∅
                   Sample.w0
                   (Probe.find_common_config_files Probe.answering Sample.E0
                      Sample.sd ∅ Sample.w0).1 _ _)).
  vm_compute. reflexivity.
Defined.

(** With tests that answer, the three functions are the ones of the model
    above. *)
Lemma probe_answering E :
  (∀ sd gp w, Probe.find_git_ignored_files Probe.answering E sd gp w
              = find_git_ignored_files E sd gp w) ∧
  (∀ sd seen w, Probe.find_common_config_files Probe.answering E sd seen w
                = find_common_config_files E sd seen w) ∧
  (∀ p w, Probe.cleanup_on_failure Probe.answering E p w = cleanup_on_failure E p w).
Proof.
  split; [|split].
  - intros sd gp w. by rewrite probe_find_git_ignored_files_run.
  - intros sd seen w. unfold Probe.find_common_config_files, find_common_config_files.
    apply for_each_ext. intros [cf sn] config w1.
    rewrite probe_check_config_run. cbv zeta.
    rewrite !bind_run. unfold path_exists, path_is_file. cbn [Probe.answering
      Probe.exists_error Probe.is_file_error].
    destruct (exists_now E w1 _); cbn [andb]; [|done].
    destruct (tree_lookup (tree E) _) as [[|es]|]; try done.
    by case_bool_decide.
  - intros p w. by rewrite probe_cleanup_on_failure_run, cleanup_on_failure_run_eq.
Qed.

(** * Without an ignore file *)

(** C9.  When there is no ignore file at the repository root,
    [find_git_ignored_files] returns no candidate and no skipped directory
    and leaves the world as it was, so nothing is listed, also when its
    existence test is one that may fail but answers here.  The copy set of
    steps 7 and 8 is then exactly the set of regular files of the explicit
    list, without duplicates.  In the file sync no directory is listed;
    everything handed to [copy2] is a regular file of the explicit list,
    copied to the same relative path in the worktree; and once the sync
    returns, every regular file of the explicit list whose destination
    directory could be made has been handed to [copy2] with that
    destination. *)
Theorem no_ignore_file_only_common_configs E r w :
  exists_now E w (source_dir r ++ [".gitignore"]) = false ->
  find_git_ignored_files E (source_dir r) (source_dir r ++ [".gitignore"]) w
  = (Ret ([], ∅), w) ∧
  (∀ P, Probe.exists_error P (length (trace w)) (source_dir r ++ [".gitignore"]) = None ->
        Probe.find_git_ignored_files P E (source_dir r)
          (source_dir r ++ [".gitignore"]) w
        = (Ret ([], ∅), w)) ∧
  (∀ files skipped total w1,
     step7_8_find_files E r w = (Ret (files, skipped, total), w1) ->
     w1 = w ∧ skipped = ∅ ∧ NoDup files ∧
     ∀ p, p ∈ files ↔
          ∃ config, config ∈ COMMON_CONFIGS ∧ p = source_dir r ++ parts config ∧
                    tree_lookup (tree E) p = Some File) ∧
  ∀ res w',
    sync_files E r w = (res, w') ->
    ∃ evs, trace w' = trace w ++ evs ∧
      (∀ top, Scandir top ∉ evs) ∧
      (∀ src dst, Copy2 src dst ∈ evs ->
         ∃ config, config ∈ COMMON_CONFIGS ∧
           src = source_dir r ++ parts config ∧
           tree_lookup (tree E) src = Some File ∧
           dst = worktree_path r ++ parts config) ∧
      (∀ n t s config,
         res = Ret (n, t, s) ->
         config ∈ COMMON_CONFIGS ->
         tree_lookup (tree E) (source_dir r ++ parts config) = Some File ->
         mkdir E (parent (worktree_path r ++ parts config)) = None ->
         Copy2 (source_dir r ++ parts config) (worktree_path r ++ parts config) ∈ evs).
Proof.
  intros Hno.
  assert (Hfind : find_git_ignored_files E (source_dir r)
                    (source_dir r ++ [".gitignore"]) w = (Ret ([], ∅), w)).
  { unfold find_git_ignored_files. rewrite bind_run. unfold path_exists.
    by rewrite Hno. }
  assert (H78 : ∀ files skipped total w1,
            step7_8_find_files E r w = (Ret (files, skipped, total), w1) ->
            w1 = w ∧ skipped = ∅ ∧ NoDup files ∧
            ∀ p, p ∈ files ↔
                 ∃ config, config ∈ COMMON_CONFIGS ∧ p = source_dir r ++ parts config ∧
                           tree_lookup (tree E) p = Some File).
  { intros files skipped total w1 Hrun.
    pose proof (step7_8_spec E r w) as Hspec.
    cbv zeta in Hspec. unfold post in Hspec. rewrite Hrun in Hspec.
    destruct Hspec as (_ & Hnd & _ & Hall & Hfiles).
    destruct (Hfiles Hno) as (-> & -> & Hcfg).
    split; [done|]. split; [done|]. split; [done|]. intros p. split; [apply Hcfg|].
    intros (config & Hc & -> & Hfile). by apply Hall. }
  split; [done|]. split.
  { intros P HP. by rewrite probe_find_git_ignored_files_run, HP. }
  split; [done|].
  intros res w' Hrun.
  destruct (sync_files_trace E r w res w' Hrun)
    as (evs78 & evs9 & Htr & _ & Hnil & Hcases).
  rewrite (Hnil Hno) in Htr. simpl in Htr. exists evs9. split; [done|].
  destruct Hcases as [[-> [e ->]]|
    (files & skipped & total & w1 & hdr & handled & Hrun78 & -> & Hhdr & Hpre & Hall)].
  { split; [intros ? []%elem_of_nil|]. split; [intros ?? []%elem_of_nil|done]. }
  destruct (H78 _ _ _ _ Hrun78) as (_ & _ & _ & Hcfg). split; [|split].
  - intros top [Hin|Hin]%elem_of_app.
    + rewrite Forall_forall in Hhdr. by specialize (Hhdr _ Hin).
    + apply elem_of_concat in Hin as (evs & Hin & (f & -> & _)%list_elem_of_fmap).
      unfold copy_events in Hin.
      apply elem_of_cons in Hin as [[=]|Hin].
      destruct (mkdir E _) as [e|].
      { destruct (is_Exception e); [|by apply elem_of_nil in Hin].
        apply list_elem_of_singleton in Hin. discriminate. }
      apply elem_of_cons in Hin as [[=]|Hin].
      destruct (copy2 E _ _) as [e|].
      * destruct (is_Exception e); [|by apply elem_of_nil in Hin].
        apply list_elem_of_singleton in Hin. discriminate.
      * apply list_elem_of_singleton in Hin. discriminate.
  - intros src dst [Hin|Hin]%elem_of_app.
    { rewrite Forall_forall in Hhdr. by specialize (Hhdr _ Hin). }
    apply copy2_in_handled in Hin as [Hsrc ->].
    destruct Hpre as [k ->].
    destruct (proj1 (Hcfg src)) as (config & Hc & -> & Hfile).
    { apply elem_of_app. by left. }
    exists config. split_and!; [done|done|done|].
    unfold dest_path. by rewrite relative_to_app.
  - intros n t s config Hres Hc Hfile Hmk.
    rewrite (Hall n t s Hres).
    apply elem_of_app. right. apply elem_of_concat.
    exists (copy_events E r (source_dir r ++ parts config)). split.
    + assert (Hd : dest_path r (source_dir r ++ parts config)
                   = worktree_path r ++ parts config).
      { unfold dest_path. by rewrite relative_to_app. }
      rewrite <- Hd. apply copy2_after_mkdir. by rewrite Hd.
    + apply list_elem_of_fmap. eexists. split; [done|].
      apply Hcfg. by exists config.
Qed.

Lemma no_ignore_file_only_common_configs_witness :
  exists_now Sample.E_plain Sample.w0 (Sample.sd ++ [".gitignore"]) = false ∧
  ∃ evs,
    trace (sync_files Sample.E_plain Sample.run0 Sample.w0).2 = trace Sample.w0 ++ evs ∧
    Copy2 (Sample.sd ++ [".env"]) ["home"; "wt"; ".env"] ∈ evs.
Proof.
  split; [reflexivity|].
  destruct (no_ignore_file_only_common_configs Sample.E_plain Sample.run0 Sample.w0
              eq_refl) as (_ & _ & _ & Hsync).
  destruct (Hsync (Ret (2%nat, 400, ∅))
                  (sync_files Sample.E_plain Sample.run0 Sample.w0).2)
    as (evs & Htr & _ & _ & Hcopied).
  - vm_compute. reflexivity.
  - exists evs. split; [exact Htr|].
    apply (Hcopied 2%nat 400 ∅ ".env" eq_refl).
    + vm_compute. repeat first [apply list_elem_of_here | apply list_elem_of_further].
    + reflexivity.
    + reflexivity.
Defined.
